(** * Incremental query core: AST normalisation, Join bookkeeping and the
      pipeline builder

    A shallow embedding of
    - [packages/zql/src/zql/ast/ast.ts]            (module [Ast]),
    - [packages/zql/src/zql/ivm2/join.ts]          (module [JoinOp]),
    - [packages/zql/src/zql/ast-to-ivm/pipeline-builder.ts]
                                                   (module [PipelineBuilder]),
    - the pure part of
      [packages/zero-cache/src/services/change-source/pg/initial-sync.ts]
                                                   (module [InitialSync]),
    preceded by the fragments of the JavaScript run time these files rely on
    (module [Js]).

    Conventions.  A JavaScript string is a [string]: one [ascii] per code
    unit, so the development covers strings over the code units 0..255.
    A JavaScript number is a [number]: an integer, or one of the three
    non-finite values; fractional numbers are outside the development.  The
    definitions come first, the properties follow. *)

From Stdlib Require Import ZArith List String Ascii Bool Lia.
From Stdlib Require Import Permutation DecimalString DecimalPos DecimalZ.
From stdpp Require Import gmap strings.

Set Warnings "-register-all".

Local Open Scope string_scope.
Local Open Scope Z_scope.

(* ===================================================================== *)
(** * Part I: the embedding                                               *)
(* ===================================================================== *)

(** ** JavaScript run-time fragments *)

Module Js.

(** Outcome of a call that may throw. *)
Inductive Res (A : Type) : Type :=
| Ok (a : A)
| Throw (message : string).
Arguments Ok {A} a.
Arguments Throw {A} message.

Definition bindRes {A B} (r : Res A) (k : A -> Res B) : Res B :=
  match r with
  | Ok a => k a
  | Throw m => Throw m
  end.

Definition isThrow {A} (r : Res A) : bool :=
  match r with
  | Ok _ => false
  | Throw _ => true
  end.

(** The double quote and the backslash, as characters and as strings. *)
Definition dquoteChar : ascii := "034"%char.
Definition backslashChar : ascii := "092"%char.
Definition dquote : string := String dquoteChar EmptyString.
Definition backslash : string := String backslashChar EmptyString.

Definition code (c : ascii) : Z := Z.of_N (N_of_ascii c).

(** [number]: the integers and the non-finite values. *)
Inductive number : Type :=
| Int (z : Z)
| NaN
| PosInfinity
| NegInfinity.

(** [Number::toString] (radix 10).  Integers print in decimal (the exponent
    form JavaScript uses from 1e21 on is outside the development). *)
Definition numberToString (n : number) : string :=
  match n with
  | Int z => NilZero.string_of_int (Z.to_int z)
  | NaN => "NaN"
  | PosInfinity => "Infinity"
  | NegInfinity => "-Infinity"
  end.

Definition numberEqb (a b : number) : bool :=
  match a, b with
  | Int x, Int y => x =? y
  | NaN, NaN | PosInfinity, PosInfinity | NegInfinity, NegInfinity => true
  | _, _ => false
  end.

(** [a || b] on numbers: [b] when [a] is zero. *)
Definition orElse (a b : Z) : Z := if a =? 0 then b else a.

(** The first non-zero value of [f x y] along two lists walked in step,
    [None] when one list is exhausted first: the shape of the comparison
    loops below. *)
Definition firstDifference {A B : Type} (f : A -> B -> Z)
  : list A -> list B -> option Z :=
  fix loop (la : list A) (lb : list B) {struct la} : option Z :=
    match la, lb with
    | x :: la', y :: lb' =>
        let val := f x y in
        if val =? 0 then loop la' lb' else Some val
    | _, _ => None
    end.

(** [compareUTF8] of the npm package compare-utf8: the order of the UTF-8
    encodings, which is the order of the code points.  It returns the
    difference at the first position where the strings differ and the
    difference of the lengths when one is a prefix of the other. *)
Definition compareUTF8 (a b : string) : Z :=
  match firstDifference (fun x y => code x - code y)
          (list_ascii_of_string a) (list_ascii_of_string b) with
  | Some val => val
  | None => Z.of_nat (String.length a) - Z.of_nat (String.length b)
  end.

(** [Array.prototype.sort(cmp)]: a stable sort.  Each element is inserted
    in front of the first element that does not sort before it.  Every
    stable sort returns this list when [cmp] orders the elements
    consistently, as the comparisons used here do. *)
Fixpoint insertSorted {A : Type} (cmp : A -> A -> Z) (x : A) (l : list A)
  : list A :=
  match l with
  | [] => [x]
  | y :: l' => if cmp x y <=? 0 then x :: l else y :: insertSorted cmp x l'
  end.

Definition sort {A : Type} (cmp : A -> A -> Z) (l : list A) : list A :=
  List.fold_right (insertSorted cmp) [] l.

(** Modelled from the spec: [defined] of shared/src/arrays.js, which is not
    under src/; it keeps the elements that are not [undefined]. *)
Definition defined {A : Type} (l : list (option A)) : list A :=
  List.flat_map (fun o => match o with Some a => [a] | None => [] end) l.

Definition hexDigit (n : N) : ascii :=
  match String.get (N.to_nat n) "0123456789abcdef" with
  | Some c => c
  | None => "0"%char
  end.

(** [QuoteJSONString]: the two-character escapes, [\u00xx] for the other
    control characters, every other code unit as it is. *)
Definition jsonEscapeChar (c : ascii) : string :=
  if Ascii.eqb c dquoteChar then backslash +:+ dquote
  else if Ascii.eqb c backslashChar then backslash +:+ backslash
  else if Ascii.eqb c "008"%char then backslash +:+ "b"
  else if Ascii.eqb c "009"%char then backslash +:+ "t"
  else if Ascii.eqb c "010"%char then backslash +:+ "n"
  else if Ascii.eqb c "012"%char then backslash +:+ "f"
  else if Ascii.eqb c "013"%char then backslash +:+ "r"
  else if (N_of_ascii c <? 32)%N then
    backslash +:+ "u00"
      +:+ String (hexDigit (N_of_ascii c / 16))
            (String (hexDigit (N_of_ascii c mod 16)) EmptyString)
  else String c EmptyString.

Fixpoint jsonEscape (s : string) : string :=
  match s with
  | EmptyString => EmptyString
  | String c s' => jsonEscapeChar c +:+ jsonEscape s'
  end.

Definition quoteJSONString (s : string) : string :=
  dquote +:+ jsonEscape s +:+ dquote.

(** [JSON.stringify] of a number: non-finite numbers serialise as [null]. *)
Definition jsonNumber (n : number) : string :=
  match n with
  | Int _ => numberToString n
  | NaN | PosInfinity | NegInfinity => "null"
  end.

(** [JSON.stringify] of an array whose elements serialise to [elements]. *)
Definition jsonArray (elements : list string) : string :=
  "[" +:+ String.concat "," elements +:+ "]".

End Js.

(** ** ast.ts *)

Module Ast.
Import Js.

Inductive Primitive : Type :=
| PString (s : string)
| PNumber (n : number)
| PBoolean (b : bool)
| PNull.

(** [String(v)] on a [Primitive]. *)
Definition String_ (v : Primitive) : string :=
  match v with
  | PString s => s
  | PNumber n => numberToString n
  | PBoolean true => "true"
  | PBoolean false => "false"
  | PNull => "null"
  end.

Inductive Aggregate : Type := Sum | Avg | Min | Max | Array | Count.

Definition aggregateName (a : Aggregate) : string :=
  match a with
  | Sum => "sum"
  | Avg => "avg"
  | Min => "min"
  | Max => "max"
  | Array => "array"
  | Count => "count"
  end.

Record Aggregation : Type := mkAggregation {
  agg_field : option string;
  agg_alias : string;
  agg_aggregate : Aggregate
}.

Inductive Direction : Type := Asc | Desc.

Definition Ordering : Type := (list string * Direction)%type.

Inductive ConjunctionOp : Type := AND | OR.

Definition conjunctionOpName (op : ConjunctionOp) : string :=
  match op with
  | AND => "AND"
  | OR => "OR"
  end.

Definition conjunctionOpEqb (a b : ConjunctionOp) : bool :=
  match a, b with
  | AND, AND | OR, OR => true
  | _, _ => false
  end.

Inductive SimpleOperator : Type :=
| OpEq | OpNe
| OpLt | OpGt | OpLe | OpGe
| OpIn | OpNotIn
| OpLike | OpNotLike | OpILike | OpNotILike.

Definition simpleOperatorName (op : SimpleOperator) : string :=
  match op with
  | OpEq => "="
  | OpNe => "!="
  | OpLt => "<"
  | OpGt => ">"
  | OpLe => "<="
  | OpGe => ">="
  | OpIn => "IN"
  | OpNotIn => "NOT IN"
  | OpLike => "LIKE"
  | OpNotLike => "NOT LIKE"
  | OpILike => "ILIKE"
  | OpNotILike => "NOT ILIKE"
  end.

(** [Condition = SimpleCondition | Conjunction]; the [type] tag is the
    constructor, and [value] is the literal of [{type: 'literal', value}]. *)
Inductive Condition : Type :=
| Simple (op : SimpleOperator) (field : string) (value : Primitive)
| Conjunction (op : ConjunctionOp) (conditions : list Condition).

Record AST : Type := mkAST {
  table : string;
  alias : option string;
  select : option (list (string * string));
  aggregate : option (list Aggregation);
  where_ : option Condition;
  limit : option number;
  groupBy : option (list string);
  orderBy : Ordering
}.

(** [flattened] on a condition that is not [undefined].  The [flatMap]
    callback contributes, for the child [c], the flattened children of [c]
    when [c.op === cond.op] and the flattened [c] otherwise; a simple
    condition never carries the operator of a conjunction. *)
Fixpoint flattenedCondition (cond : Condition) : option Condition :=
  match cond with
  | Simple _ _ _ => Some cond
  | Conjunction op conds =>
      let conditions :=
        defined
          (List.flat_map
             (fun c =>
                match c with
                | Conjunction op' conds' =>
                    if conjunctionOpEqb op' op
                    then List.map flattenedCondition conds'
                    else [flattenedCondition c]
                | Simple _ _ _ => [flattenedCondition c]
                end)
             conds) in
      match conditions with
      | [] => None
      | [c] => Some c
      | _ => Some (Conjunction op conditions)
      end
  end.

(** [flattened(cond: Condition | undefined)]. *)
Definition flattened (cond : option Condition) : option Condition :=
  match cond with
  | None => None
  | Some c => flattenedCondition c
  end.

Fixpoint cmp (a b : Condition) {struct a} : Z :=
  match a with
  | Simple opa fielda valuea =>
      match b with
      | Simple opb fieldb valueb =>
          orElse (compareUTF8 fielda fieldb)
            (orElse
               (compareUTF8 (simpleOperatorName opa) (simpleOperatorName opb))
               (compareUTF8 (String_ valuea) (String_ valueb)))
      | Conjunction _ _ => -1
      end
  | Conjunction opa condsa =>
      match b with
      | Simple _ _ _ => 1
      | Conjunction opb condsb =>
          let val :=
            compareUTF8 (conjunctionOpName opa) (conjunctionOpName opb) in
          if negb (val =? 0) then val
          else
            match firstDifference cmp condsa condsb with
            | Some val => val
            | None =>
                Z.of_nat (List.length condsa) - Z.of_nat (List.length condsb)
            end
      end
  end.

Fixpoint sorted (cond : Condition) : Condition :=
  match cond with
  | Simple _ _ _ => cond
  | Conjunction op conds =>
      Conjunction op (sort cmp (List.map sorted conds))
  end.

Definition normalizeAST (ast : AST) : AST :=
  let where' := flattened (where_ ast) in
  {| table := table ast;
     alias := alias ast;
     select :=
       match select ast with
       | Some sel =>
           Some (sort (fun a b => compareUTF8 (fst a) (fst b)) sel)
       | None => None
       end;
     aggregate :=
       match aggregate ast with
       | Some aggs =>
           Some
             (sort
                (fun a b =>
                   orElse
                     (compareUTF8 (aggregateName (agg_aggregate a))
                        (aggregateName (agg_aggregate b)))
                     (compareUTF8
                        (match agg_field a with Some f => f | None => "*" end)
                        (match agg_field b with Some f => f | None => "*" end)))
                aggs)
       | None => None
       end;
     where_ :=
       match where' with
       | Some w => Some (sorted w)
       | None => None
       end;
     groupBy :=
       match groupBy ast with
       | Some g => Some (sort compareUTF8 g)
       | None => None
       end;
     orderBy := orderBy ast;
     limit := limit ast |}.

End Ast.

(** ** ivm2/join.ts *)

Module JoinOp.
Import Js.

(** data.ts: [Value = undefined | null | boolean | number | string]; a
    [NormalizedValue] is a [Value] other than [undefined]. *)
Inductive NormalizedValue : Type :=
| VNull
| VBoolean (b : bool)
| VNumber (n : number)
| VString (s : string).

(** [None] is [undefined]. *)
Definition Value : Type := option NormalizedValue.

(** Modelled from the spec: [normalizeUndefined] of ivm2/data.ts, which is
    not under src/; it maps [undefined] to [null]. *)
Definition normalizeUndefined (v : Value) : NormalizedValue :=
  match v with
  | Some x => x
  | None => VNull
  end.

(** A row maps column names to values; [row !! key] is [row[key]]. *)
Abbreviation Row := (gmap string NormalizedValue).

Record Constraint : Type := mkConstraint {
  key : string;
  value : Value
}.

Record FetchRequest : Type := mkFetchRequest {
  constraint : option Constraint
}.

Inductive ProcessParentMode : Type := Fetch | Cleanup.

(** A relationship of a node is a lazy stream: it is represented by the
    pull that produces it when it is iterated, that is the input, the
    method ([fetch] or [cleanup]) and the request. *)
Record Stream : Type := mkStream {
  stream_input : nat;
  stream_method : ProcessParentMode;
  stream_request : FetchRequest
}.

Record Node : Type := mkNode {
  row : Row;
  relationships : gmap string Stream
}.

Inductive Change : Type :=
| AddChange (node : Node)
| RemoveChange (node : Node)
| ChildChange (row : Row) (relationshipName : string) (change : Change).

(** An [Input] as the Join uses it: an identity, [fetch], [cleanup] and
    the primary key of [getSchema()]. *)
Record Input : Type := mkInput {
  input_id : nat;
  input_fetch : FetchRequest -> list Node;
  input_cleanup : FetchRequest -> list Node;
  input_primaryKey : list string
}.

(** Modelled from the spec: the operator [Storage] of ivm2/operator.ts, which
    is not under src/: a key-value map with [set], [del] and a scan of the
    entries whose key starts with a prefix.  The order in which a scan
    yields its entries plays no role in the Join, which only looks whether
    there is a second entry. *)
Abbreviation Storage := (gmap string bool).

Definition storage_set (k : string) (v : bool) (st : Storage) : Storage :=
  <[k := v]> st.

Definition storage_del (k : string) (st : Storage) : Storage :=
  delete k st.

Definition storage_scan (prefix : string) (st : Storage)
  : list (string * bool) :=
  List.filter (fun kv => String.prefix prefix (fst kv)) (map_to_list st).

(** Modelled from the spec: [take] of ivm2/stream.ts, which is not under
    src/: the first [n] elements of a stream. *)
Definition take {A : Type} (l : list A) (n : nat) : list A := List.firstn n l.

Definition jsonValue (v : NormalizedValue) : string :=
  match v with
  | VNull => "null"
  | VBoolean true => "true"
  | VBoolean false => "false"
  | VNumber n => jsonNumber n
  | VString s => quoteJSONString s
  end.

Definition createPrimaryKeySetStorageKey (values : list NormalizedValue)
  : string :=
  let json := jsonArray (quoteJSONString "pKeySet" :: List.map jsonValue values) in
  String.substring 1 (String.length json - 1 - 1) json +:+ ",".

Definition createPrimaryKeySetStorageKeyPrefix (value : NormalizedValue)
  : string :=
  createPrimaryKeySetStorageKey [value].

Record Join : Type := mkJoin {
  parent : Input;
  child : Input;
  parentKey : string;
  childKey : string;
  relationshipName : string;
  output : bool
}.

(** [#processParentNode]: returns the node and the storage it leaves. *)
Definition processParentNode (j : Join) (storage : Storage)
  (parentNode : Node) (mode : ProcessParentMode) : Node * Storage :=
  let parentKeyValue := normalizeUndefined (row parentNode !! parentKey j) in
  let parentPrimaryKey :=
    List.map (fun key => normalizeUndefined (row parentNode !! key))
      (input_primaryKey (parent j)) in
  let storageKey :=
    createPrimaryKeySetStorageKey (parentKeyValue :: parentPrimaryKey) in
  let method :=
    match mode with
    | Fetch => Fetch
    | Cleanup =>
        match
          take
            (storage_scan (createPrimaryKeySetStorageKeyPrefix parentKeyValue)
               storage) 2
        with
        | _ :: second :: _ => Fetch
        | _ => Cleanup
        end
    end in
  let childStream :=
    {| stream_input := input_id (child j);
       stream_method := method;
       stream_request :=
         {| constraint :=
              Some {| key := childKey j; value := Some parentKeyValue |} |} |} in
  let storage' :=
    match mode with
    | Fetch => storage_set storageKey true storage
    | Cleanup => storage_del storageKey storage
    end in
  ({| row := row parentNode;
      relationships :=
        <[relationshipName j := childStream]> (relationships parentNode) |},
   storage').

(** [fetch] and [cleanup], iterated to the end: the nodes yielded and the
    storage left. *)
Fixpoint processParentNodes (j : Join) (storage : Storage)
  (parentNodes : list Node) (mode : ProcessParentMode)
  : list Node * Storage :=
  match parentNodes with
  | [] => ([], storage)
  | parentNode :: rest =>
      let '(node, storage1) := processParentNode j storage parentNode mode in
      let '(nodes, storage2) := processParentNodes j storage1 rest mode in
      (node :: nodes, storage2)
  end.

Definition fetch (j : Join) (storage : Storage) (req : FetchRequest)
  : list Node * Storage :=
  processParentNodes j storage (input_fetch (parent j) req) Fetch.

Definition cleanup (j : Join) (storage : Storage) (req : FetchRequest)
  : list Node * Storage :=
  processParentNodes j storage (input_cleanup (parent j) req) Cleanup.

Inductive From : Type := FromParent | FromChild.

Definition changeRow (change : Change) : Row :=
  match change with
  | ChildChange r _ _ => r
  | AddChange node | RemoveChange node => row node
  end.

(** [#push]: the changes handed to [this.#output.push], in order, and the
    storage left; it throws when no output is set. *)
Definition push (j : Join) (storage : Storage) (change : Change)
  (from : From) : Res (list Change * Storage) :=
  if negb (output j) then Throw "Output not set"
  else
    match from with
    | FromParent =>
        match change with
        | AddChange node =>
            let '(node', storage') := processParentNode j storage node Fetch in
            Ok ([AddChange node'], storage')
        | RemoveChange node =>
            let '(node', storage') :=
              processParentNode j storage node Cleanup in
            Ok ([RemoveChange node'], storage')
        | ChildChange _ _ _ => Ok ([change], storage)
        end
    | FromChild =>
        let childRow := changeRow change in
        let parentNodes :=
          input_fetch (parent j)
            {| constraint :=
                 Some {| key := parentKey j;
                         value := childRow !! childKey j |} |} in
        Ok (List.map
              (fun parentNode =>
                 ChildChange (row parentNode) (relationshipName j) change)
              parentNodes,
            storage)
    end.

End JoinOp.

(** ** ast-to-ivm/pipeline-builder.ts *)

Module PipelineBuilder.
Import Js Ast.

(** *** The fragment of [RegExp] that [patternToRegExp] uses *)

Inductive Atom : Type :=
| AnyChar                 (* [.] *)
| Literal (c : ascii).    (* a character or an escaped syntax character *)

Inductive Term : Type :=
| AssertStart             (* [^] *)
| AssertEnd               (* [$] *)
| One (a : Atom)
| Star (a : Atom).        (* [a*] *)

Inductive Flags : Type := FlagsNone | FlagsI.

Record RegExp : Type := mkRegExp {
  terms : list Term;
  ignoreCase : bool
}.

(** [specialCharsRe = /[$()*+.?[\]\\^{|}]/]: the syntax characters. *)
Definition specialChars : list ascii :=
  ["$"; "("; ")"; "*"; "+"; "."; "?"; "["; "]"; backslashChar; "^"; "{"; "|";
   "}"]%char.

Definition specialCharsRe_test (c : ascii) : bool :=
  List.existsb (Ascii.eqb c) specialChars.

(** The pattern grammar restricted to [^], [$], [.], [*] after an atom,
    escaped syntax characters and plain characters; [None] is a
    [SyntaxError] or a pattern outside this fragment. *)
Fixpoint parsePattern (source : string) : option (list Term) :=
  let quantified (a : Atom) (rest : string) : option (list Term) :=
    match rest with
    | String q rest' =>
        if Ascii.eqb q "*" then option_map (cons (Star a)) (parsePattern rest')
        else option_map (cons (One a)) (parsePattern rest)
    | EmptyString => option_map (cons (One a)) (parsePattern rest)
    end in
  match source with
  | EmptyString => Some []
  | String c rest =>
      if Ascii.eqb c "^" then option_map (cons AssertStart) (parsePattern rest)
      else if Ascii.eqb c "$" then
        option_map (cons AssertEnd) (parsePattern rest)
      else if Ascii.eqb c "." then quantified AnyChar rest
      else if Ascii.eqb c backslashChar then
        match rest with
        | String e rest' =>
            if specialCharsRe_test e then quantified (Literal e) rest'
            else None
        | EmptyString => None
        end
      else if specialCharsRe_test c then None
      else quantified (Literal c) rest
  end.

(** [new RegExp(source, flags)]. *)
Definition RegExp_new (source : string) (flags : Flags) : Res RegExp :=
  match parsePattern source with
  | Some ts =>
      Ok {| terms := ts;
            ignoreCase := match flags with FlagsI => true | FlagsNone => false end |}
  | None => Throw "Invalid regular expression"
  end.

(** Line terminators, which [.] does not match (no [s] flag): of the four,
    line feed and carriage return are code units below 256. *)
Definition isLineTerminator (c : ascii) : bool :=
  Ascii.eqb c "010" || Ascii.eqb c "013".

Definition inRange (lo hi : N) (c : ascii) : bool :=
  ((lo <=? N_of_ascii c) && (N_of_ascii c <=? hi))%N.

(** [Canonicalize] under the [i] flag: the upper-case form when it is one
    code unit.  For the code units [181] and [255] the upper-case form is
    above 255 and equal to that of no other code unit below 256, so they
    stand for themselves here. *)
Definition canonicalize (c : ascii) : ascii :=
  if inRange 97 122 c
     || (inRange 224 254 c && negb (N_of_ascii c =? 247)%N)
  then ascii_of_N (N_of_ascii c - 32)
  else c.

(** [String.prototype.toLowerCase], one code unit at a time. *)
Definition toLowerCaseChar (c : ascii) : ascii :=
  if inRange 65 90 c
     || (inRange 192 222 c && negb (N_of_ascii c =? 215)%N)
  then ascii_of_N (N_of_ascii c + 32)
  else c.

Fixpoint toLowerCase (s : string) : string :=
  match s with
  | EmptyString => EmptyString
  | String c s' => String (toLowerCaseChar c) (toLowerCase s')
  end.

Definition atomMatches (ignoreCase : bool) (a : Atom) (c : ascii) : bool :=
  match a with
  | AnyChar => negb (isLineTerminator c)
  | Literal l =>
      if ignoreCase then Ascii.eqb (canonicalize l) (canonicalize c)
      else Ascii.eqb l c
  end.

(** Whether [ts] matches a prefix of the input [s]; [atStart] tells whether
    [s] begins at index 0 of the whole input. *)
Fixpoint matchHere (ignoreCase : bool) (ts : list Term)
  : bool -> string -> bool :=
  match ts with
  | [] => fun _ _ => true
  | AssertStart :: ts' =>
      fun atStart s => atStart && matchHere ignoreCase ts' atStart s
  | AssertEnd :: ts' =>
      fun atStart s =>
        match s with
        | EmptyString => matchHere ignoreCase ts' atStart s
        | String _ _ => false
        end
  | One a :: ts' =>
      fun _ s =>
        match s with
        | EmptyString => false
        | String c s' =>
            atomMatches ignoreCase a c && matchHere ignoreCase ts' false s'
        end
  | Star a :: ts' =>
      let continue := matchHere ignoreCase ts' in
      fix star (atStart : bool) (s : string) {struct s} : bool :=
        continue atStart s
        || match s with
           | EmptyString => false
           | String c s' => atomMatches ignoreCase a c && star false s'
           end
  end.

(** [re.test(lhs)]: a match starting at some index of [lhs]. *)
Definition test (re : RegExp) (lhs : string) : bool :=
  (fix search (atStart : bool) (s : string) {struct s} : bool :=
     matchHere (ignoreCase re) (terms re) atStart s
     || match s with
        | EmptyString => false
        | String _ s' => search false s'
        end) true lhs.

(** *** LIKE *)

(** The loop of [patternToRegExp]: [pattern] is the regular expression
    source built so far, [source] what is left of the LIKE pattern. *)
Fixpoint patternToRegExpLoop (source : string) (pattern : string)
  : Res string :=
  match source with
  | EmptyString => Ok pattern
  | String c rest =>
      if Ascii.eqb c "%" then patternToRegExpLoop rest (pattern +:+ ".*")
      else if Ascii.eqb c "_" then patternToRegExpLoop rest (pattern +:+ ".")
      else if Ascii.eqb c backslashChar then
        match rest with
        | EmptyString =>
            Throw "LIKE pattern must not end with escape character"
        | String c' rest' =>
            patternToRegExpLoop rest'
              ((if specialCharsRe_test c' then pattern +:+ backslash
                else pattern) +:+ String c' EmptyString)
        end
      else
        patternToRegExpLoop rest
          ((if specialCharsRe_test c then pattern +:+ backslash else pattern)
             +:+ String c EmptyString)
  end.

Definition patternToRegExp (source : string) (flags : Flags) : Res RegExp :=
  bindRes (patternToRegExpLoop source "^")
    (fun pattern => RegExp_new (pattern +:+ "$") flags).

(** [/_|%|\\/.test(pattern)]. *)
Fixpoint hasWildcard (pattern : string) : bool :=
  match pattern with
  | EmptyString => false
  | String c rest =>
      Ascii.eqb c "_" || Ascii.eqb c "%" || Ascii.eqb c backslashChar
      || hasWildcard rest
  end.

Definition getLikeOp (pattern : string) (flags : Flags)
  : Res (string -> bool) :=
  if negb (hasWildcard pattern) then
    match flags with
    | FlagsI =>
        let rhsLower := toLowerCase pattern in
        Ok (fun lhs => String.eqb (toLowerCase lhs) rhsLower)
    | FlagsNone => Ok (fun lhs => String.eqb lhs pattern)
    end
  else
    bindRes (patternToRegExp pattern flags)
      (fun re => Ok (fun lhs => test re lhs)).

Definition not_ {T : Type} (f : T -> bool) : T -> bool :=
  fun lhs => negb (f lhs).

(** What [getOperator] returns.  The closures of the comparison and
    membership operators are kept as the operator and its right-hand side:
    building them evaluates nothing.  The LIKE family yields a predicate on
    strings. *)
Inductive Operator : Type :=
| Comparison (op : SimpleOperator) (rhs : Primitive)
| StringPredicate (f : string -> bool).

Definition mapPredicate (g : (string -> bool) -> string -> bool)
  (r : Res (string -> bool)) : Res Operator :=
  bindRes r (fun f => Ok (StringPredicate (g f))).

(** [getLikeOp(rhs, flags)] as [getOperator] calls it, with [rhs] of any
    type.  For a right-hand side that is not a string the wildcard test sees
    its string form, which has no wildcard; [toLowerCase] is then missing
    under [ILIKE], and [lhs === pattern] is false for every string. *)
Definition getLikeOpAny (rhs : Primitive) (flags : Flags)
  : Res (string -> bool) :=
  match rhs with
  | PString pattern => getLikeOp pattern flags
  | _ =>
      match flags with
      | FlagsI => Throw "pattern.toLowerCase is not a function"
      | FlagsNone => Ok (fun _ => false)
      end
  end.

Definition getOperator (condition : Condition) : Res Operator :=
  match condition with
  | Simple op _ rhs =>
      match op with
      | OpLike => mapPredicate (fun f => f) (getLikeOpAny rhs FlagsNone)
      | OpNotLike => mapPredicate not_ (getLikeOpAny rhs FlagsNone)
      | OpILike => mapPredicate (fun f => f) (getLikeOpAny rhs FlagsI)
      | OpNotILike => mapPredicate not_ (getLikeOpAny rhs FlagsI)
      | _ => Ok (Comparison op rhs)
      end
  | Conjunction op _ =>
      Throw ("Operator " +:+ conjunctionOpName op +:+ " not supported")
  end.

(** [x.split('.')]. *)
Fixpoint splitDot (x : string) : list string :=
  match x with
  | EmptyString => [EmptyString]
  | String c rest =>
      if Ascii.eqb c "." then EmptyString :: splitDot rest
      else
        match splitDot rest with
        | part :: parts => String c part :: parts
        | [] => [String c EmptyString]
        end
  end.

(** [x.includes('.')]. *)
Fixpoint includesDot (x : string) : bool :=
  match x with
  | EmptyString => false
  | String c rest => Ascii.eqb c "." || includesDot rest
  end.

(** *** Entities *)

(** The values a pipeline handles.  An object keeps its string-keyed
    properties in insertion order; [joinSymbol] tells whether it carries the
    marker of a join result.  Own properties of strings and arrays are
    outside the development: reading a property of a value that is not an
    object gives [undefined]. *)
Inductive JsValue : Type :=
| JUndefined
| JNull
| JBoolean (b : bool)
| JNumber (n : number)
| JString (s : string)
| JArray (elements : list JsValue)
| JObject (joinSymbol : bool) (props : list (string * JsValue)).

Fixpoint lookupProp (props : list (string * JsValue)) (k : string) : JsValue :=
  match props with
  | [] => JUndefined
  | (k', v) :: rest => if String.eqb k' k then v else lookupProp rest k
  end.

(** [o[k]]. *)
Definition getProp (o : JsValue) (k : string) : JsValue :=
  match o with
  | JObject _ props => lookupProp props k
  | _ => JUndefined
  end.

Fixpoint assignProp (props : list (string * JsValue)) (k : string)
  (v : JsValue) : list (string * JsValue) :=
  match props with
  | [] => [(k, v)]
  | (k', v') :: rest =>
      if String.eqb k' k then (k', v) :: rest
      else (k', v') :: assignProp rest k v
  end.

(** [Object.hasOwn(o, k)] on the properties of an object. *)
Definition hasOwnProp (props : list (string * JsValue)) (k : string) : bool :=
  List.existsb (fun kv => String.eqb (fst kv) k) props.

(** The assignment [o[k] = v] goes to the [__proto__] setter of
    [Object.prototype]: the key is [__proto__] and the object has no own
    property of that name. *)
Definition reachesProtoSetter (props : list (string * JsValue)) (k : string)
  : bool :=
  String.eqb k "__proto__" && negb (hasOwnProp props k).

(** [o[k] = v] on an ordinary object.  The [__proto__] setter stores no
    property: it changes the prototype when [v] is an object or [null] and
    does nothing otherwise; in both cases the own properties stay as they
    are. *)
Definition setProp (o : JsValue) (k : string) (v : JsValue) : JsValue :=
  match o with
  | JObject sym props =>
      if reachesProtoSetter props k then o
      else JObject sym (assignProp props k v)
  | _ => o
  end.

(** [o[k] = v] changes the prototype of [o].  Inherited properties are
    outside the development. *)
Definition setsPrototype (o : JsValue) (k : string) (v : JsValue) : bool :=
  match o with
  | JObject _ props =>
      reachesProtoSetter props k
      && match v with
         | JNull | JArray _ | JObject _ _ => true
         | _ => false
         end
  | _ => false
  end.

(** The property key of [o[field]] when [field] may be [undefined]. *)
Definition propertyKey (field : option string) : string :=
  match field with
  | Some f => f
  | None => "undefined"
  end.

(** [JSON.stringify]; [None] is [undefined]. *)
Fixpoint jsonStringify (v : JsValue) : option string :=
  match v with
  | JUndefined => None
  | JNull => Some "null"
  | JBoolean true => Some "true"
  | JBoolean false => Some "false"
  | JNumber n => Some (jsonNumber n)
  | JString s => Some (quoteJSONString s)
  | JArray elements =>
      Some
        (jsonArray
           (List.map
              (fun e =>
                 match jsonStringify e with
                 | Some s => s
                 | None => "null"
                 end)
              elements))
  | JObject _ props =>
      Some
        ("{"
           +:+ String.concat ","
                 (List.flat_map
                    (fun kv =>
                       match kv with
                       | (k, e) =>
                           match jsonStringify e with
                           | Some s => [quoteJSONString k +:+ ":" +:+ s]
                           | None => []
                           end
                       end)
                    props)
           +:+ "}")
  end.

(** Modelled from the spec: [isJoinResult] of ivm/types.ts, which is not
    under src/: an entity is a join result when it carries the join
    marker. *)
Definition isJoinResult (x : JsValue) : bool :=
  match x with
  | JObject sym _ => sym
  | _ => false
  end.

(** [must] of shared/src/must.js throws on [undefined]; reading a property
    of [undefined] or [null] throws. *)
Definition getValueFromEntity (entity : JsValue)
  (qualifiedColumn : option string * string) : Res JsValue :=
  if isJoinResult entity then
    match fst qualifiedColumn with
    | None => Throw "Unexpected undefined value"
    | Some tableName =>
        match getProp entity tableName with
        | JUndefined | JNull => Throw "Cannot read properties of undefined"
        | part => Ok (getProp part (snd qualifiedColumn))
        end
    end
  else Ok (getProp entity (snd qualifiedColumn)).

Definition selectorsToQualifiedColumns (selectors : list string)
  : list (option string * string) :=
  List.map
    (fun x =>
       if includesDot x then
         match splitDot x with
         | tableName :: column :: _ => (Some tableName, column)
         | _ => (None, x)
         end
       else (None, x))
    selectors.

Fixpoint getValuesFromEntity (x : JsValue)
  (qualifiedColumns : list (option string * string)) : Res (list JsValue) :=
  match qualifiedColumns with
  | [] => Ok []
  | qualifiedColumn :: rest =>
      bindRes (getValueFromEntity x qualifiedColumn)
        (fun v =>
           bindRes (getValuesFromEntity x rest) (fun vs => Ok (v :: vs)))
  end.

Definition makeKeyFunction (selectors : list string) (x : JsValue)
  : Res string :=
  let qualifiedColumns := selectorsToQualifiedColumns selectors in
  bindRes (getValuesFromEntity x qualifiedColumns)
    (fun ret =>
       match jsonStringify (JArray ret) with
       | Some json => Ok json
       | None => Throw "unreachable"
       end).

(** *** Arithmetic of the reducer.  [None] marks a value outside the
    development: a fraction, a sum of integers that leaves the safe
    integers, or the conversion of a string or an object to a number. *)

Definition toNumber (v : JsValue) : option number :=
  match v with
  | JUndefined => Some NaN
  | JNull => Some (Int 0)
  | JBoolean true => Some (Int 1)
  | JBoolean false => Some (Int 0)
  | JNumber n => Some n
  | _ => None
  end.

Definition toStringPrimitive (v : JsValue) : option string :=
  match v with
  | JUndefined => Some "undefined"
  | JNull => Some "null"
  | JBoolean true => Some "true"
  | JBoolean false => Some "false"
  | JNumber n => Some (numberToString n)
  | JString s => Some s
  | _ => None
  end.

(** [Number.isSafeInteger]: the integers from [-(2^53 - 1)] to [2^53 - 1],
    which a double holds exactly. *)
Definition isSafeInteger (z : Z) : bool :=
  (- (2 ^ 53 - 1) <=? z) && (z <=? 2 ^ 53 - 1).

(** [a + b] on numbers.  The sum of two safe integers is exact when it is a
    safe integer again; any other sum of integers may be rounded to the
    nearest double and is outside the development ([None]). *)
Definition numberAdd (a b : number) : option number :=
  match a, b with
  | Int x, Int y =>
      if isSafeInteger x && isSafeInteger y && isSafeInteger (x + y)
      then Some (Int (x + y))
      else None
  | NaN, _ | _, NaN => Some NaN
  | PosInfinity, NegInfinity | NegInfinity, PosInfinity => Some NaN
  | PosInfinity, _ | _, PosInfinity => Some PosInfinity
  | NegInfinity, _ | _, NegInfinity => Some NegInfinity
  end.

(** [a / b] on numbers.  The quotient of two safe integers is exact when it
    is an integer; a fraction, or a quotient of integers that are not safe,
    is outside the development ([None]). *)
Definition numberDivide (a b : number) : option number :=
  match a, b with
  | Int x, Int y =>
      if y =? 0 then
        Some (if x =? 0 then NaN else if 0 <? x then PosInfinity else NegInfinity)
      else if isSafeInteger x && isSafeInteger y && (x mod y =? 0)
      then Some (Int (x / y))
      else None
  | NaN, _ | _, NaN => Some NaN
  | Int _, _ => Some (Int 0)
  | PosInfinity, Int y => Some (if y <? 0 then NegInfinity else PosInfinity)
  | NegInfinity, Int y => Some (if y <? 0 then PosInfinity else NegInfinity)
  | _, _ => Some NaN
  end.

Definition numberLess (a b : number) : bool :=
  match a, b with
  | Int x, Int y => x <? y
  | NaN, _ | _, NaN => false
  | NegInfinity, NegInfinity | PosInfinity, _ => false
  | NegInfinity, _ | _, PosInfinity => true
  | _, NegInfinity => false
  end.

(** [a + b]. *)
Definition jsAdd (a b : JsValue) : option JsValue :=
  match a, b with
  | JString s, _ => option_map (fun t => JString (s +:+ t)) (toStringPrimitive b)
  | _, JString t => option_map (fun s => JString (s +:+ t)) (toStringPrimitive a)
  | _, _ =>
      match toNumber a, toNumber b with
      | Some x, Some y => option_map JNumber (numberAdd x y)
      | _, _ => None
      end
  end.

(** [a / b]. *)
Definition jsDivide (a b : JsValue) : option JsValue :=
  match toNumber a, toNumber b with
  | Some x, Some y => option_map JNumber (numberDivide x y)
  | _, _ => None
  end.

(** [a < b] on two numbers or on two strings. *)
Definition jsLess (a b : JsValue) : option bool :=
  match a, b with
  | JNumber x, JNumber y => Some (numberLess x y)
  | JString s, JString t => Some (compareUTF8 s t <? 0)
  | _, _ => None
  end.

Definition isUndefined (v : JsValue) : bool :=
  match v with
  | JUndefined => true
  | _ => false
  end.

(** [for (const value of values) acc = step acc value], [None] absorbing. *)
Fixpoint forOf {S : Type} (values : list JsValue)
  (step : S -> JsValue -> option S) (acc : S) : option S :=
  match values with
  | [] => Some acc
  | value :: rest =>
      match step acc value with
      | Some acc' => forOf rest step acc'
      | None => None
      end
  end.

(** The value that one aggregation stores under its alias. *)
Definition aggregateValue (aggregation : Aggregation)
  (values : list JsValue) : option JsValue :=
  let field := propertyKey (agg_field aggregation) in
  match agg_aggregate aggregation with
  | Count =>
      option_map JNumber
        (forOf values (fun count _ => numberAdd count (Int 1)) (Int 0))
  | Sum =>
      forOf values (fun sum value => jsAdd sum (getProp value field))
        (JNumber (Int 0))
  | Avg =>
      match
        forOf values
          (fun '(sum, count) value =>
             match jsAdd sum (getProp value field) with
             | Some sum' =>
                 option_map (fun count' => (sum', count'))
                   (numberAdd count (Int 1))
             | None => None
             end)
          (JNumber (Int 0), Int 0)
      with
      | Some (sum, count) => jsDivide sum (JNumber count)
      | None => None
      end
  | Min =>
      forOf values
        (fun min value =>
           let newValue := getProp value field in
           if isUndefined min then Some newValue
           else
             option_map (fun gt => if gt : bool then newValue else min)
               (jsLess newValue min))
        JUndefined
  | Max =>
      forOf values
        (fun max value =>
           let newValue := getProp value field in
           if isUndefined max then Some newValue
           else
             option_map (fun lt => if lt : bool then newValue else max)
               (jsLess max newValue))
        JUndefined
  | Array => Some (JArray (List.map (fun x => getProp x field) values))
  end.

(** The reducer that [applyGroupBy] hands to [reduce]: the first value of
    the group, spread, with one property per aggregation.  [None] when an
    aggregation has no value in the development or when an alias
    [__proto__] would change the prototype of the group row. *)
Definition groupReducer (aggregations : list Aggregation)
  (values : list JsValue) : option JsValue :=
  let first := List.hd JUndefined values in
  let ret :=
    match first with
    | JObject sym props => JObject sym props
    | _ => JObject false []
    end in
  List.fold_left
    (fun ret aggregation =>
       match ret, aggregateValue aggregation values with
       | Some ret, Some v =>
           if setsPrototype ret (agg_alias aggregation) v then None
           else Some (setProp ret (agg_alias aggregation) v)
       | _, _ => None
       end)
    aggregations (Some ret).

(** *** The pipeline *)

(** Modelled from the spec: [DifferenceStream] of
    ivm/graph/difference-stream.ts, which is not under src/.  A stream is
    represented by the operator graph that the calls [filter], [concat],
    [distinct], [reduce], [average], [count] and [sum] build; building an
    operator does not throw. *)
Inductive DifferenceStream : Type :=
| SourceStream (sourceName : string)
| FilterStream (qualifiedColumn : string * string) (operator : Operator)
    (input : DifferenceStream)
| ConcatStream (branches : list DifferenceStream)
| DistinctStream (input : DifferenceStream)
| ReduceStream (getGroupKey : JsValue -> Res string)
    (getValueIdentity : JsValue -> JsValue)
    (f : list JsValue -> option JsValue) (input : DifferenceStream)
| AverageStream (field : option string) (alias : string)
    (input : DifferenceStream)
| CountStream (alias : string) (input : DifferenceStream)
| SumStream (field : option string) (alias : string)
    (input : DifferenceStream).

Definition applySimpleCondition (stream : DifferenceStream)
  (condition : Condition) : Res DifferenceStream :=
  bindRes (getOperator condition)
    (fun operator =>
       let selector :=
         match condition with
         | Simple _ field _ => field
         | Conjunction _ _ => EmptyString
         end in
       let qualifiedColumn :=
         if includesDot selector then
           match splitDot selector with
           | source :: field :: _ => (source, field)
           | _ => (selector, selector)
           end
         else (selector, selector) in
       Ok (FilterStream qualifiedColumn operator stream)).

(** [applyWhere], with [applyAnd] and [applyOr] as its two inner loops. *)
Fixpoint applyWhere (where' : Condition) (stream : DifferenceStream)
  {struct where'} : Res DifferenceStream :=
  match where' with
  | Conjunction AND conditions =>
      (fix applyAnd (conditions : list Condition) (stream : DifferenceStream)
         {struct conditions} : Res DifferenceStream :=
         match conditions with
         | [] => Ok stream
         | condition :: rest =>
             bindRes (applyWhere condition stream) (applyAnd rest)
         end) conditions stream
  | Conjunction OR conditions =>
      bindRes
        ((fix branches (conditions : list Condition)
            : Res (list DifferenceStream) :=
            match conditions with
            | [] => Ok []
            | c :: rest =>
                bindRes (applyWhere c stream)
                  (fun branch =>
                     bindRes (branches rest)
                       (fun others => Ok (branch :: others)))
            end) conditions)
        (fun branches => Ok (DistinctStream (ConcatStream branches)))
  | Simple _ _ _ => applySimpleCondition stream where'
  end.

Definition applyGroupBy (stream : DifferenceStream) (columns : list string)
  (aggregations : list Aggregation) : DifferenceStream :=
  let keyFunction := makeKeyFunction columns in
  ReduceStream keyFunction (fun value => getProp value "id")
    (groupReducer aggregations) stream.

Fixpoint applyFullTableAggregation (stream : DifferenceStream)
  (aggregations : list Aggregation) : Res DifferenceStream :=
  match aggregations with
  | [] => Ok stream
  | agg :: rest =>
      match agg_aggregate agg with
      | Array | Min | Max =>
          Throw
            (aggregateName (agg_aggregate agg)
               +:+ " not yet supported outside of group-by")
      | Avg =>
          applyFullTableAggregation
            (AverageStream (agg_field agg) (agg_alias agg) stream) rest
      | Count =>
          applyFullTableAggregation (CountStream (agg_alias agg) stream) rest
      | Sum =>
          applyFullTableAggregation
            (SumStream (agg_field agg) (agg_alias agg) stream) rest
      end
  end.

Definition buildPipeline (sourceStreamProvider : string -> DifferenceStream)
  (ast : AST) : Res DifferenceStream :=
  let stream := sourceStreamProvider (table ast) in
  bindRes
    (match where_ ast with
     | Some where' => applyWhere where' stream
     | None => Ok stream
     end)
    (fun stream =>
       match groupBy ast with
       | Some columns =>
           Ok (applyGroupBy stream columns
                 (match aggregate ast with
                  | Some aggs => aggs
                  | None => []
                  end))
       | None =>
           match aggregate ast with
           | Some aggs => applyFullTableAggregation stream aggs
           | None => Ok stream
           end
       end).

(** *** The reduce operator *)

(** Modelled from the spec: the reduce operator behind
    [DifferenceStream.reduce], which is not under src/.  It keeps, for every
    group key, the members of the group keyed by their identity, in
    insertion order; a group that empties disappears; the row of a group is
    the reducer applied to its members. *)
Inductive Difference : Type :=
| Added (value : JsValue)
| Removed (value : JsValue).

Definition sameValueZero (a b : JsValue) : bool :=
  match a, b with
  | JUndefined, JUndefined | JNull, JNull => true
  | JBoolean x, JBoolean y => Bool.eqb x y
  | JNumber x, JNumber y => numberEqb x y
  | JString x, JString y => String.eqb x y
  | _, _ => false
  end.

Abbreviation Groups := (gmap string (list (JsValue * JsValue))).

Definition reducePush (getGroupKey : JsValue -> Res string)
  (getValueIdentity : JsValue -> JsValue) (groups : Groups)
  (difference : Difference) : Res Groups :=
  match difference with
  | Added value =>
      bindRes (getGroupKey value)
        (fun k =>
           let members := default [] (groups !! k) in
           let identity := getValueIdentity value in
           if List.existsb (fun m => sameValueZero (fst m) identity) members
           then Ok groups
           else Ok (<[k := (members ++ [(identity, value)])%list]> groups))
  | Removed value =>
      bindRes (getGroupKey value)
        (fun k =>
           let identity := getValueIdentity value in
           let members :=
             List.filter (fun m => negb (sameValueZero (fst m) identity))
               (default [] (groups !! k)) in
           match members with
           | [] => Ok (delete k groups)
           | _ => Ok (<[k := members]> groups)
           end)
  end.

Fixpoint reducePushAll (getGroupKey : JsValue -> Res string)
  (getValueIdentity : JsValue -> JsValue) (groups : Groups)
  (differences : list Difference) : Res Groups :=
  match differences with
  | [] => Ok groups
  | difference :: rest =>
      bindRes (reducePush getGroupKey getValueIdentity groups difference)
        (fun groups' =>
           reducePushAll getGroupKey getValueIdentity groups' rest)
  end.

(** The group rows of a stream that ends in a reduce operator, after the
    given differences reached it: one row per group key. *)
Definition groupRows (stream : DifferenceStream)
  (differences : list Difference) : Res (gmap string (option JsValue)) :=
  match stream with
  | ReduceStream getGroupKey getValueIdentity f _ =>
      bindRes (reducePushAll getGroupKey getValueIdentity ∅ differences)
        (fun groups => Ok ((fun members => f (List.map snd members)) <$> groups))
  | _ => Throw "not a reduce operator"
  end.

End PipelineBuilder.

(** ** Vocabulary of the properties *)

(** ** zero-cache/src/services/change-source/pg/initial-sync.ts *)

Module InitialSync.
Import Js.

(** The class [[a-z0-9_]]. *)
Definition allowedShardIdCharacter (c : ascii) : bool :=
  ((code "a" <=? code c) && (code c <=? code "z"))
  || ((code "0" <=? code c) && (code c <=? code "9"))
  || Ascii.eqb c "_".

Fixpoint everyCharacter (p : ascii -> bool) (s : string) : bool :=
  match s with
  | EmptyString => true
  | String c rest => p c && everyCharacter p rest
  end.

(** [ALLOWED_SHARD_ID_CHARACTERS.test(s)] for [/^[a-z0-9_]+$/]: the whole
    of [s] is one or more characters of the class. *)
Definition ALLOWED_SHARD_ID_CHARACTERS_test (s : string) : bool :=
  match s with
  | EmptyString => false
  | String _ _ => everyCharacter allowedShardIdCharacter s
  end.

Definition replicationSlot (shardID : string) : string := "zero_" +:+ shardID.

(** The beginning of [initialSync]: the check of the shard id, and the name
    of the replication slot it goes on with.  The database sessions that
    follow are outside the development. *)
Definition initialSyncSlotName (shardID : string) : Res string :=
  if negb (ALLOWED_SHARD_ID_CHARACTERS_test shardID) then
    Throw
      "A shard ID may only consist of lower-case letters, numbers, and the underscore character"
  else Ok (replicationSlot shardID).

(** The statements that [createReplicationSlot] sends, in order. *)
Definition createReplicationSlotStatements (slotName : string)
  (dropExisting : bool) : list string :=
  (if dropExisting
   then ["DROP_REPLICATION_SLOT " +:+ slotName +:+ " WAIT"]
   else [])
    ++ ["CREATE_REPLICATION_SLOT " +:+ dquote +:+ slotName +:+ dquote
          +:+ " LOGICAL pgoutput"].

End InitialSync.

Module Characters.
Import Js.

Definition allAscii : list ascii :=
  List.map ascii_of_nat (List.seq 0 256).

Fixpoint allChars (P : ascii -> bool) (s : string) : bool :=
  match s with
  | EmptyString => true
  | String c s' => P c && allChars P s'
  end.

(** Neither a comma nor a double quote. *)
Definition plainChar (c : ascii) : bool :=
  negb (Ascii.eqb c ",") && negb (Ascii.eqb c dquoteChar).

(** A decimal digit or the minus sign. *)
Definition decimalChar (c : ascii) : bool :=
  List.existsb (Ascii.eqb c)
    ["0"; "1"; "2"; "3"; "4"; "5"; "6"; "7"; "8"; "9"; "-"]%char.

Definition headIsNot (h : ascii) (s : string) : bool :=
  match s with
  | String c _ => negb (Ascii.eqb c h)
  | EmptyString => false
  end.

(** One string starts the other. *)
Definition comparable (a b : string) : bool :=
  String.prefix a b || String.prefix b a.

End Characters.

Module AstProperties.
Import Js Ast.

#[global] Instance number_eq_dec : EqDecision number.
Proof. solve_decision. Defined.

#[global] Instance Primitive_eq_dec : EqDecision Primitive.
Proof. solve_decision. Defined.

#[global] Instance ConjunctionOp_eq_dec : EqDecision ConjunctionOp.
Proof. solve_decision. Defined.

#[global] Instance SimpleOperator_eq_dec : EqDecision SimpleOperator.
Proof. solve_decision. Defined.

(** The operator of a conjunction, [None] for a simple condition. *)
Definition conditionOp (c : Condition) : option ConjunctionOp :=
  match c with
  | Simple _ _ _ => None
  | Conjunction op _ => Some op
  end.

Definition hasOp (op : ConjunctionOp) (c : Condition) : bool :=
  match c with
  | Simple _ _ _ => false
  | Conjunction op' _ => conjunctionOpEqb op' op
  end.

(** No conjunction has a direct child conjunction with its own operator. *)
Fixpoint noNestedSameOp (c : Condition) : bool :=
  match c with
  | Simple _ _ _ => true
  | Conjunction op conds =>
      List.forallb (fun c' => negb (hasOp op c') && noNestedSameOp c') conds
  end.

(** Every conjunction has at least two conditions. *)
Fixpoint atLeastTwo (c : Condition) : bool :=
  match c with
  | Simple _ _ _ => true
  | Conjunction _ conds =>
      (2 <=? List.length conds)%nat && List.forallb atLeastTwo conds
  end.

(** The literal values of a condition, left to right. *)
Fixpoint literals (c : Condition) : list Primitive :=
  match c with
  | Simple _ _ v => [v]
  | Conjunction _ conds => List.flat_map literals conds
  end.

(** The simple conditions of a tree, left to right. *)
Fixpoint simpleConditions (c : Condition)
  : list (SimpleOperator * string * Primitive) :=
  match c with
  | Simple op field value => [(op, field, value)]
  | Conjunction _ conds => List.flat_map simpleConditions conds
  end.

Definition simpleConditionsOf (w : option Condition)
  : list (SimpleOperator * string * Primitive) :=
  match w with
  | Some c => simpleConditions c
  | None => []
  end.

(** Two simple conditions that [cmp] does not tell apart: the same field,
    the same operator, and literals with the same string form. *)
Definition sameForm (x y : SimpleOperator * string * Primitive) : bool :=
  match x, y with
  | (opx, fieldx, valuex), (opy, fieldy, valuey) =>
      String.eqb fieldx fieldy && bool_decide (opx = opy)
      && String.eqb (String_ valuex) (String_ valuey)
  end.

(** Simple conditions that [cmp] does not tell apart are equal: no field is
    compared by one operator with two different literals that have the same
    string form (the assumption that the code states for [cmp]: "assume the
    values are of the same type"). *)
Definition distinctSimpleForms (l : list (SimpleOperator * string * Primitive))
  : bool :=
  List.forallb
    (fun x =>
       List.forallb (fun y => implb (sameForm x y) (bool_decide (x = y))) l)
    l.

(** Values with equal string forms are equal: the assumption under which
    [cmp] orders simple conditions ("assume the values are of the same
    type"). *)
Definition distinctStringForms (vs : list Primitive) : bool :=
  List.forallb
    (fun v =>
       List.forallb
         (fun w => implb (String.eqb (String_ v) (String_ w)) (bool_decide (v = w)))
         vs)
    vs.


(** Two conditions that differ only in associativity, commutativity or
    duplication: nested conjunctions with the operator of their parent may
    be inlined, conditions may be reordered, and a condition may be
    repeated, anywhere in the tree. *)
Inductive sameWhere : Condition -> Condition -> Prop :=
| sameWhere_refl c : sameWhere c c
| sameWhere_sym a b : sameWhere a b -> sameWhere b a
| sameWhere_trans a b c : sameWhere a b -> sameWhere b c -> sameWhere a c
| sameWhere_inside op l1 c c' l2 :
    sameWhere c c' ->
    sameWhere (Conjunction op (l1 ++ c :: l2)) (Conjunction op (l1 ++ c' :: l2))
| sameWhere_commute op l l' :
    Permutation l l' -> sameWhere (Conjunction op l) (Conjunction op l')
| sameWhere_associate op l1 l l2 :
    sameWhere (Conjunction op (l1 ++ Conjunction op l :: l2))
      (Conjunction op (l1 ++ l ++ l2))
| sameWhere_duplicate op l1 c l2 :
    sameWhere (Conjunction op (l1 ++ c :: c :: l2))
      (Conjunction op (l1 ++ c :: l2)).

(** The variants that [normalizeAST] identifies: two conditions that
    differ only in the order of the conditions inside their conjunctions
    and in the grouping of a conjunction into nested conjunctions with the
    same operator, anywhere in the tree, as long as the same operator is
    not nested three deep where the grouping changes.

    [variantOf regrouped a b]: [a] and [b] are such variants; with
    [regrouped = false] the conditions of [a] and [b] themselves
    correspond to each other, with [regrouped = true] their grouping may
    also differ at the top of [a] and [b].
    - [variant_commute]: the conditions of a conjunction are reordered;
    - [variant_associate]: a nested conjunction with the operator of its
      parent is inlined, when none of its own conditions is again a
      conjunction with that operator;
    - [variant_inside]: one condition of a conjunction is replaced by a
      variant; a variant regrouped at its top must not be a conjunction
      with the operator of the enclosing conjunction. *)
Inductive variantOf : bool -> Condition -> Condition -> Prop :=
| variant_refl regrouped c : variantOf regrouped c c
| variant_sym regrouped a b :
    variantOf regrouped a b -> variantOf regrouped b a
| variant_trans regrouped a b c :
    variantOf regrouped a b -> variantOf regrouped b c ->
    variantOf regrouped a c
| variant_regrouped a b : variantOf false a b -> variantOf true a b
| variant_commute op l l' :
    Permutation l l' ->
    variantOf false (Conjunction op l) (Conjunction op l')
| variant_associate op l1 l l2 :
    Forall (fun c => conditionOp c <> Some op) l ->
    variantOf true (Conjunction op (l1 ++ Conjunction op l :: l2))
      (Conjunction op (l1 ++ l ++ l2))
| variant_inside regrouped op l1 c c' l2 :
    variantOf regrouped c c' ->
    (regrouped = true -> conditionOp c <> Some op) ->
    variantOf false (Conjunction op (l1 ++ c :: l2))
      (Conjunction op (l1 ++ c' :: l2)).

Definition whereVariant : Condition -> Condition -> Prop := variantOf true.

Definition liftOption {A : Type} (R : A -> A -> Prop) (x y : option A) : Prop :=
  match x, y with
  | Some a, Some b => R a b
  | None, None => True
  | _, _ => False
  end.

(** Two queries that differ only in their WHERE clause, as far as [sameW]
    allows, and in the order of their select and groupBy lists. *)
Record differOnly (sameW : Condition -> Condition -> Prop) (A B : AST)
  : Prop := mkDifferOnly {
  differ_table : table A = table B;
  differ_alias : alias A = alias B;
  differ_aggregate : aggregate A = aggregate B;
  differ_limit : limit A = limit B;
  differ_orderBy : orderBy A = orderBy B;
  differ_select : liftOption (@Permutation _) (select A) (select B);
  differ_groupBy : liftOption (@Permutation _) (groupBy A) (groupBy B);
  differ_where : liftOption sameW (where_ A) (where_ B)
}.

Definition whereConditions (A : AST)
  : list (SimpleOperator * string * Primitive) :=
  simpleConditionsOf (where_ A).

(** Select entries with the same selector are equal: [select] is sorted by
    selector only. *)
Definition unambiguousSelect (A : AST) : bool :=
  match select A with
  | Some sel =>
      List.forallb
        (fun x =>
           List.forallb
             (fun y =>
                implb (String.eqb (fst x) (fst y))
                  (String.eqb (snd x) (snd y)))
             sel)
        sel
  | None => true
  end.

(** The value of a comparison loop followed by the comparison of the
    lengths: the shape shared by [compareUTF8] and by [cmp] on two
    conjunctions with one operator. *)
Definition lexCompare {A : Type} (f : A -> A -> Z) (la lb : list A) : Z :=
  match firstDifference f la lb with
  | Some val => val
  | None => Z.of_nat (List.length la) - Z.of_nat (List.length lb)
  end.

(** The three strings by which [cmp] orders simple conditions. *)
Definition simpleKey (op : SimpleOperator) (field : string)
  (value : Primitive) : list string :=
  [field; simpleOperatorName op; String_ value].

(** The last step of [flattened]. *)
Definition packConditions (op : ConjunctionOp) (conditions : list Condition)
  : option Condition :=
  match conditions with
  | [] => None
  | [c] => Some c
  | _ => Some (Conjunction op conditions)
  end.

(** The callback that [flattened] hands to [flatMap]. *)
Definition flatMapCallback (op : ConjunctionOp) (c : Condition)
  : list (option Condition) :=
  match c with
  | Conjunction op' conds' =>
      if conjunctionOpEqb op' op
      then List.map flattenedCondition conds'
      else [flattenedCondition c]
  | Simple _ _ _ => [flattenedCondition c]
  end.

(** The normalized form of a WHERE clause: flattened, then sorted. *)
Definition normalizedCondition (c : Condition) : option Condition :=
  option_map sorted (flattenedCondition c).

Definition children (c : Condition) : list Condition :=
  match c with
  | Simple _ _ _ => []
  | Conjunction _ conds => conds
  end.

(** The normalized forms of the children of a condition, and the sorted
    items that a child contributes to a parent with operator [op]. *)
Definition normalizedChildren (c : Condition) : list Condition :=
  defined (List.map normalizedCondition (children c)).

Definition sortedItems (op : ConjunctionOp) (c : Condition) : list Condition :=
  List.map sorted (defined (flatMapCallback op c)).

(** What makes two conditions interchangeable as children of a conjunction:
    equal normalized forms, equal operators, and normalized children that
    are arrangements of each other. *)
Definition interchangeable (c c' : Condition) : Prop :=
  normalizedCondition c = normalizedCondition c'
  /\ conditionOp c = conditionOp c'
  /\ Permutation (normalizedChildren c) (normalizedChildren c').

(** All simple conditions of a condition are taken from [L]. *)
Definition within (L : list (SimpleOperator * string * Primitive))
  (c : Condition) : Prop :=
  forall x, In x (simpleConditions c) -> In x L.

(** Example queries. *)
Definition eq1 (field : string) (n : Z) : Condition :=
  Simple OpEq field (PNumber (Int n)).

Definition queryWhere (w : option Condition) : AST :=
  {| table := "issue"; alias := None; select := None; aggregate := None;
     where_ := w; limit := None; groupBy := None;
     orderBy := (["id"], Asc) |}.

(** Two queries that differ in the order of their lists only. *)
Definition listedQuery (sel : list (string * string)) (w : Condition)
  (g : list string) : AST :=
  {| table := "issue"; alias := None; select := Some sel; aggregate := None;
     where_ := Some w; limit := None; groupBy := Some g;
     orderBy := (["id"], Asc) |}.

Definition queryOneWay : AST :=
  listedQuery [("title", "t"); ("id", "i")]
    (Conjunction AND
       [eq1 "b" 2; Conjunction OR [eq1 "d" 4; eq1 "c" 3]; eq1 "a" 1])
    ["owner"; "label"].

Definition queryOtherWay : AST :=
  listedQuery [("id", "i"); ("title", "t")]
    (Conjunction AND
       [Conjunction OR [eq1 "c" 3; eq1 "d" 4];
        Conjunction AND [eq1 "a" 1; eq1 "b" 2]])
    ["label"; "owner"].

(** [x = 0 OR (a = 1 AND (b = '1' AND c = 3))] and
    [x = 0 OR (a = 1 AND b = '1' AND c = 3)]: a regrouping below an OR, with
    the number [1] and the string ['1'] as literals of different fields. *)
Definition bIsString : Condition := Simple OpEq "b" (PString "1").

Definition regroupedBelowOr : Condition :=
  Conjunction OR
    [eq1 "x" 0;
     Conjunction AND
       [eq1 "a" 1; Conjunction AND [bIsString; eq1 "c" 3]]].

Definition flatBelowOr : Condition :=
  Conjunction OR
    [eq1 "x" 0; Conjunction AND [eq1 "a" 1; bIsString; eq1 "c" 3]].

(** The example of the comment of [flattened]:
    [((a AND b) AND (c AND (d OR (e OR f))))] and
    [(a AND b AND c AND (d OR e OR f))]. *)
Definition commentNested : Condition :=
  Conjunction AND
    [Conjunction AND [eq1 "a" 1; eq1 "b" 2];
     Conjunction AND
       [eq1 "c" 3;
        Conjunction OR
          [eq1 "d" 4; Conjunction OR [eq1 "e" 5; eq1 "f" 6]]]].

Definition commentFlat : Condition :=
  Conjunction AND
    [eq1 "a" 1; eq1 "b" 2; eq1 "c" 3;
     Conjunction OR [eq1 "d" 4; eq1 "e" 5; eq1 "f" 6]].

(** [x = 1] with the number 1 and [x = '1'] with the string. *)
Definition xIsNumber : Condition := Simple OpEq "x" (PNumber (Int 1)).
Definition xIsString : Condition := Simple OpEq "x" (PString "1").

(** [((a = 1 AND b = 2) AND c = 3) AND d = 4]. *)
Definition nestedThreeDeep : Condition :=
  Conjunction AND
    [Conjunction AND [Conjunction AND [eq1 "a" 1; eq1 "b" 2]; eq1 "c" 3];
     eq1 "d" 4].

End AstProperties.

Module JoinProperties.
Import Js JoinOp AstProperties.

#[global] Instance NormalizedValue_eq_dec : EqDecision NormalizedValue.
Proof. solve_decision. Defined.

(** The join value of a parent node and the storage key that
    [#processParentNode] computes for it. *)
Definition parentKeyValueOf (j : Join) (parentNode : Node) : NormalizedValue :=
  normalizeUndefined (row parentNode !! parentKey j).

Definition storageKeyOf (j : Join) (parentNode : Node) : string :=
  createPrimaryKeySetStorageKey
    (parentKeyValueOf j parentNode
       :: List.map (fun key => normalizeUndefined (row parentNode !! key))
            (input_primaryKey (parent j))).



(** The stream of the child input pulled with [method] for the join value
    of [parentNode]. *)
Definition childPull (j : Join) (parentNode : Node)
  (method : ProcessParentMode) : Stream :=
  {| stream_input := input_id (child j);
     stream_method := method;
     stream_request :=
       {| constraint :=
            Some {| key := childKey j;
                    value := Some (parentKeyValueOf j parentNode) |} |} |}.

(** What follows the prefix of the join value in the key of a parent. *)
Definition keyTail (primaryKey : list NormalizedValue) : string :=
  match primaryKey with
  | [] => EmptyString
  | _ => String.concat "," (List.map jsonValue primaryKey) +:+ ","
  end.

(** Modelled from the spec: a Source (section 4.2), which is not under src/,
    as far as [fetch] goes: the current rows, as nodes without
    relationships, filtered by the equality constraint of the request. *)
Definition sourceFetch (rows : list Row) (req : FetchRequest) : list Node :=
  List.map (fun r => {| row := r; relationships := ∅ |})
    (List.filter
       (fun r =>
          match constraint req with
          | Some c => bool_decide (r !! key c = value c)
          | None => true
          end)
       rows).

Definition sourceInput (id : nat) (primaryKey : list string)
  (rows : list Row) : Input :=
  {| input_id := id;
     input_fetch := sourceFetch rows;
     input_cleanup := sourceFetch rows;
     input_primaryKey := primaryKey |}.

(** The example of the specification: two parents that share the join value
    [u1], and one child row for it. *)
Definition parentRow1 : Row :=
  <["id" := VString "i1"]> (<["uid" := VString "u1"]> ∅).
Definition parentRow2 : Row :=
  <["id" := VString "i2"]> (<["uid" := VString "u1"]> ∅).
Definition childRow1 : Row :=
  <["id" := VString "c1"]> (<["uid" := VString "u1"]> ∅).
Definition parentNode1 : Node := {| row := parentRow1; relationships := ∅ |}.
Definition parentNode2 : Node := {| row := parentRow2; relationships := ∅ |}.
Definition childNode1 : Node := {| row := childRow1; relationships := ∅ |}.

(** A child row with another join value. *)
Definition strangerRow : Row :=
  <["id" := VString "c9"]> (<["uid" := VString "u9"]> ∅).
Definition strangerNode : Node := {| row := strangerRow; relationships := ∅ |}.

Definition exampleJoin : Join :=
  {| parent := sourceInput 0 ["id"] [parentRow1; parentRow2];
     child := sourceInput 1 ["id"] [childRow1];
     parentKey := "uid";
     childKey := "uid";
     relationshipName := "comments";
     output := true |}.

(** A value that [JSON.stringify] does not turn into [null] unless it is
    [null]: every value but the non-finite numbers. *)
Definition finiteValue (v : NormalizedValue) : bool :=
  match v with
  | VNumber (Int _) => true
  | VNumber _ => false
  | _ => true
  end.

Definition isString (v : NormalizedValue) : bool :=
  match v with
  | VString _ => true
  | _ => false
  end.

End JoinProperties.

Module PipelineProperties.
Import Js Ast PipelineBuilder.

(** The example of the specification: three rows, grouped by [g], with the
    aggregations [count()] and [sum(v)].  The rows carry the [id] by which
    the reduce operator tells the members of a group apart. *)
Definition groupedRow (id g : string) (v : Z) : JsValue :=
  JObject false
    [("id", JString id); ("g", JString g); ("v", JNumber (Int v))].

Definition rowA1 : JsValue := groupedRow "r1" "a" 1.
Definition rowA2 : JsValue := groupedRow "r2" "a" 2.
Definition rowB : JsValue := groupedRow "r3" "b" 5.

Definition countAndSum : list Aggregation :=
  [{| agg_field := None; agg_alias := "count"; agg_aggregate := Count |};
   {| agg_field := Some "v"; agg_alias := "sum"; agg_aggregate := Sum |}].

Definition groupByG : DifferenceStream :=
  applyGroupBy (SourceStream "t") ["g"] countAndSum.

(** The JSON text of an array element: [undefined] serialises as [null]. *)
Definition jsonElement (v : JsValue) : string :=
  match jsonStringify v with
  | Some s => s
  | None => "null"
  end.

(** The group and aggregate columns of a group row. *)
Definition groupColumns (groupRow : option JsValue)
  : option (JsValue * JsValue * JsValue) :=
  option_map
    (fun r => (getProp r "g", getProp r "count", getProp r "sum")) groupRow.

(** The aggregate kinds of the full-table stage. *)
Definition supportedOutsideGroupBy (a : Aggregation) : bool :=
  match agg_aggregate a with
  | Count | Sum | Avg => true
  | Min | Max | Array => false
  end.

(** Every simple condition of the tree compiles to an operator. *)
Fixpoint conditionCompiles (c : Condition) : bool :=
  match c with
  | Simple _ _ _ => negb (isThrow (getOperator c))
  | Conjunction _ conds => List.forallb conditionCompiles conds
  end.

Definition whereCompiles (w : option Condition) : bool :=
  match w with
  | Some c => conditionCompiles c
  | None => true
  end.

(** The stream after the WHERE stage. *)
Definition filtered (sourceStreamProvider : string -> DifferenceStream)
  (ast : AST) : Res DifferenceStream :=
  match where_ ast with
  | Some w => applyWhere w (sourceStreamProvider (table ast))
  | None => Ok (sourceStreamProvider (table ast))
  end.

Definition aggregateQuery (w : option Condition)
  (aggs : option (list Aggregation)) (g : option (list string)) : AST :=
  {| table := "issue"; alias := None; select := None; aggregate := aggs;
     where_ := w; limit := None; groupBy := g; orderBy := (["id"], Asc) |}.

Definition countAndAvg : list Aggregation :=
  [{| agg_field := None; agg_alias := "n"; agg_aggregate := Count |};
   {| agg_field := Some "v"; agg_alias := "m"; agg_aggregate := Avg |}].

Definition onlyMin : list Aggregation :=
  [{| agg_field := Some "v"; agg_alias := "m"; agg_aggregate := Min |}].

(** [title LIKE 'a\']: the pattern ends with a dangling escape. *)
Definition danglingLike : Condition :=
  Simple OpLike "title" (PString ("a" +:+ backslash)).

End PipelineProperties.

Module LikeProperties.
Import Js Ast PipelineBuilder Characters.

(** The reading of a LIKE pattern: [%] stands for any sequence of
    characters, [_] for any one character, a backslash makes the next
    character stand for itself, every other character stands for itself.
    (A backslash at the very end escapes nothing and is dropped here; such
    a pattern is rejected.) *)
Inductive LikeToken : Type :=
| AnySequence
| AnyOne
| Exactly (c : ascii).

Fixpoint likeTokens (pattern : string) : list LikeToken :=
  match pattern with
  | EmptyString => []
  | String c rest =>
      if Ascii.eqb c "%" then AnySequence :: likeTokens rest
      else if Ascii.eqb c "_" then AnyOne :: likeTokens rest
      else if Ascii.eqb c backslashChar then
        match rest with
        | EmptyString => []
        | String c' rest' => Exactly c' :: likeTokens rest'
        end
      else Exactly c :: likeTokens rest
  end.

Definition sameCharacter (caseInsensitive : bool) (a b : ascii) : bool :=
  if caseInsensitive
  then Ascii.eqb (toLowerCaseChar a) (toLowerCaseChar b)
  else Ascii.eqb a b.

(** The whole input matches the whole pattern, where [%] and [_] stand for
    the characters that [wild] accepts. *)
Fixpoint likeMatchesWith (wild : ascii -> bool) (caseInsensitive : bool)
  (tokens : list LikeToken) : string -> bool :=
  match tokens with
  | [] => fun s => match s with EmptyString => true | _ => false end
  | AnySequence :: tokens' =>
      fix skip (s : string) : bool :=
        likeMatchesWith wild caseInsensitive tokens' s
        || match s with
           | EmptyString => false
           | String c s' => wild c && skip s'
           end
  | AnyOne :: tokens' =>
      fun s =>
        match s with
        | EmptyString => false
        | String c s' =>
            wild c && likeMatchesWith wild caseInsensitive tokens' s'
        end
  | Exactly c :: tokens' =>
      fun s =>
        match s with
        | EmptyString => false
        | String d s' =>
            sameCharacter caseInsensitive c d
            && likeMatchesWith wild caseInsensitive tokens' s'
        end
  end.

(** LIKE as the claim reads it: [%] and [_] stand for any character. *)
Definition likeMatches : bool -> list LikeToken -> string -> bool :=
  likeMatchesWith (fun _ => true).

(** LIKE as the regular expression reads it: [.] stands for any character
    but a line terminator. *)
Definition likeMatchesRegExp : bool -> list LikeToken -> string -> bool :=
  likeMatchesWith (fun c => negb (isLineTerminator c)).

Definition caseInsensitive (flags : Flags) : bool :=
  match flags with
  | FlagsI => true
  | FlagsNone => false
  end.

(** The number of backslashes at the end of a pattern. *)
Fixpoint trailingEscapes (pattern : string) : nat :=
  match pattern with
  | EmptyString => 0
  | String c rest =>
      let k := trailingEscapes rest in
      if Ascii.eqb c backslashChar && (k =? String.length rest)%nat
      then S k
      else k
  end.

(** The pattern ends with an escape character that is not itself escaped:
    the backslashes at its end are odd in number. *)
Definition endsWithDanglingEscape (pattern : string) : bool :=
  Nat.odd (trailingEscapes pattern).

Fixpoint noLineTerminator (s : string) : bool :=
  match s with
  | EmptyString => true
  | String c s' => negb (isLineTerminator c) && noLineTerminator s'
  end.

Definition isLikeOperator (op : SimpleOperator) : bool :=
  match op with
  | OpLike | OpNotLike | OpILike | OpNotILike => true
  | _ => false
  end.

(** The regular expression source and the term of one token. *)
Definition tokenSource (t : LikeToken) : string :=
  match t with
  | AnySequence => ".*"
  | AnyOne => "."
  | Exactly c =>
      (if specialCharsRe_test c then backslash else EmptyString)
        +:+ String c EmptyString
  end.

Fixpoint tokensSource (ts : list LikeToken) : string :=
  match ts with
  | [] => EmptyString
  | t :: ts' => tokenSource t +:+ tokensSource ts'
  end.

Definition tokenTerm (t : LikeToken) : Term :=
  match t with
  | AnySequence => Star AnyChar
  | AnyOne => One AnyChar
  | Exactly c => One (Literal c)
  end.

Definition lineFeed : string := String "010"%char EmptyString.

(** The pattern [foo\%bar]. *)
Definition fooPercentBar : string := "foo" +:+ backslash +:+ "%bar".

(** An atom and the [*] that may follow it, as [parsePattern] reads them. *)
Definition quantified (a : Atom) (rest : string) : option (list Term) :=
  match rest with
  | String q rest' =>
      if Ascii.eqb q "*" then option_map (cons (Star a)) (parsePattern rest')
      else option_map (cons (One a)) (parsePattern rest)
  | EmptyString => option_map (cons (One a)) (parsePattern rest)
  end.

Definition startsWithStar (s : string) : bool :=
  match s with
  | String q _ => Ascii.eqb q "*"
  | EmptyString => false
  end.

End LikeProperties.

(** ** Vocabulary of the further properties *)

Module AstOrder.
Import Js Ast AstProperties.

(** Neighbours are in the order of [cmp]: no element sorts strictly after
    its successor. *)
Fixpoint ordered {A : Type} (cmp : A -> A -> Z) (l : list A) : bool :=
  match l with
  | x :: l' =>
      match l' with
      | y :: _ => (cmp x y <=? 0) && ordered cmp l'
      | [] => true
      end
  | [] => true
  end.

Definition isSimple (c : Condition) : bool :=
  match c with
  | Simple _ _ _ => true
  | Conjunction _ _ => false
  end.

(** No conjunction is directly followed by a simple condition, so the
    simple conditions come first. *)
Fixpoint simplesFirst (l : list Condition) : bool :=
  match l with
  | x :: l' =>
      match l' with
      | y :: _ => (isSimple x || negb (isSimple y)) && simplesFirst l'
      | [] => true
      end
  | [] => true
  end.

(** [P] holds of the condition list of every conjunction of the tree. *)
Fixpoint everyConjunction (P : list Condition -> bool) (c : Condition)
  : bool :=
  match c with
  | Simple _ _ _ => true
  | Conjunction _ conds =>
      P conds && List.forallb (everyConjunction P) conds
  end.

(** The truth value of a condition on a row, given the truth values of the
    simple conditions on that row: an AND holds when all its conditions
    hold, an OR when one of them does, as [applyAnd] chains the filters and
    [applyOr] merges the branches. *)
Fixpoint holds (simple : SimpleOperator -> string -> Primitive -> bool)
  (c : Condition) : bool :=
  match c with
  | Simple op field value => simple op field value
  | Conjunction AND conds => List.forallb (holds simple) conds
  | Conjunction OR conds => List.existsb (holds simple) conds
  end.

(** The truth value of a conjunction from those of its conditions. *)
Definition combine (simple : SimpleOperator -> string -> Primitive -> bool)
  (op : ConjunctionOp) (l : list Condition) : bool :=
  holds simple (Conjunction op l).

(** A query without WHERE clause keeps every row. *)
Definition holdsWhere (simple : SimpleOperator -> string -> Primitive -> bool)
  (w : option Condition) : bool :=
  match w with
  | Some c => holds simple c
  | None => true
  end.

(** The comparison functions that [normalizeAST] hands to [sort]. *)
Definition compareSelect (a b : string * string) : Z :=
  compareUTF8 (fst a) (fst b).

Definition compareAggregation (a b : Aggregation) : Z :=
  orElse
    (compareUTF8 (aggregateName (agg_aggregate a))
       (aggregateName (agg_aggregate b)))
    (compareUTF8
       (match agg_field a with Some f => f | None => "*" end)
       (match agg_field b with Some f => f | None => "*" end)).

(** The number of conjunctions of a tree. *)
Fixpoint conjunctionCount (c : Condition) : nat :=
  match c with
  | Simple _ _ _ => 0%nat
  | Conjunction _ conds => S (list_sum (List.map conjunctionCount conds))
  end.

Definition nonEmpty (l : list Condition) : bool :=
  match l with
  | [] => false
  | _ :: _ => true
  end.

(** The conditions of a conjunction are in the order of [cmp], the simple
    ones first. *)
Definition inOrder (l : list Condition) : bool :=
  ordered cmp l && simplesFirst l.

(** [OR(AND(), a = 1)]: an empty conjunction inside a conjunction. *)
Definition trueOrA : Condition :=
  Conjunction OR [Conjunction AND []; eq1 "a" 1].

End AstOrder.

Module JoinBookkeeping.
Import Js JoinOp JoinProperties.

(** The method with which [#processParentNode] pulls the child in cleanup
    mode: [fetch] when the scan of the prefix has a second entry. *)
Definition cleanupMethod (j : Join) (storage : Storage) (parentNode : Node)
  : ProcessParentMode :=
  if (2 <=? List.length
              (storage_scan
                 (createPrimaryKeySetStorageKeyPrefix
                    (parentKeyValueOf j parentNode)) storage))%nat
  then Fetch else Cleanup.

(** The parent node with the relationship of the join added: the child
    pulled with [method] for the join value of the parent. *)
Definition joinedNode (j : Join) (method : ProcessParentMode)
  (parentNode : Node) : Node :=
  {| row := row parentNode;
     relationships :=
       <[relationshipName j := childPull j parentNode method]>
         (relationships parentNode) |}.

(** The serialised values, each followed by a comma. *)
Fixpoint terminatedValues (values : list NormalizedValue) : string :=
  match values with
  | [] => EmptyString
  | v :: rest => jsonValue v +:+ String "," (terminatedValues rest)
  end.

(** No entry of the storage is under the prefix of the join value [v]. *)
Definition noEntryFor (v : NormalizedValue) (storage : Storage) : Prop :=
  forall k, is_Some (storage !! k) ->
    String.prefix (createPrimaryKeySetStorageKeyPrefix v) k = false.

(** A third parent with the join value [u1], and a join over the three. *)
Definition parentRow3 : Row :=
  <["id" := VString "i3"]> (<["uid" := VString "u1"]> ∅).
Definition parentNode3 : Node := {| row := parentRow3; relationships := ∅ |}.

Definition threeParents : Join :=
  {| parent := sourceInput 0 ["id"] [parentRow1; parentRow2; parentRow3];
     child := sourceInput 1 ["id"] [childRow1];
     parentKey := "uid";
     childKey := "uid";
     relationshipName := "comments";
     output := true |}.

End JoinBookkeeping.

Module PipelineMore.
Import Js Ast JoinOp PipelineBuilder PipelineProperties LikeProperties.

(** The column [field] of the rows [values] holds the integers [ints]. *)
Definition integerColumn (field : string) (values : list JsValue)
  (ints : list Z) : Prop :=
  Forall2 (fun x z => getProp x field = JNumber (Int z)) values ints.

Definition sumZ (ints : list Z) : Z := List.fold_right Z.add 0 ints.

(** Adding the integers to [sum] one after the other never leaves the safe
    integers: [sum], every integer and every intermediate sum is safe. *)
Fixpoint safeSums (sum : Z) (ints : list Z) : bool :=
  match ints with
  | [] => isSafeInteger sum
  | z :: rest =>
      isSafeInteger sum && isSafeInteger z && safeSums (sum + z) rest
  end.

(** No alias of the aggregations is [__proto__]. *)
Definition plainAliases (aggregations : list Aggregation) : bool :=
  List.forallb (fun a => negb (String.eqb (agg_alias a) "__proto__"))
    aggregations.

(** Every aggregation has a value on the group. *)
Definition allAggregate (aggregations : list Aggregation)
  (values : list JsValue) : bool :=
  List.forallb
    (fun a => negb (bool_decide (aggregateValue a values = None)))
    aggregations.

(** The least and the greatest of the integers [z :: zs]. *)
Definition least (z : Z) (zs : list Z) : Z := List.fold_left Z.min zs z.
Definition greatest (z : Z) (zs : list Z) : Z := List.fold_left Z.max zs z.

Definition aggregation (kind : Aggregate) (field : option string)
  (alias : string) : Aggregation :=
  {| agg_field := field; agg_alias := alias; agg_aggregate := kind |}.

(** The last aggregation of the list that writes the property [k]. *)
Fixpoint lastWithAlias (k : string) (aggregations : list Aggregation)
  : option Aggregation :=
  match aggregations with
  | [] => None
  | a :: rest =>
      match lastWithAlias k rest with
      | Some a' => Some a'
      | None => if String.eqb (agg_alias a) k then Some a else None
      end
  end.

(** A group value whose JSON text tells it apart from every other such
    value: [null], a boolean, a finite number or a string. *)
Definition keyable (v : JsValue) : bool :=
  match v with
  | JNull | JBoolean _ | JString _ | JNumber (Int _) => true
  | _ => false
  end.

Definition normalizedValueOf (v : JsValue) : NormalizedValue :=
  match v with
  | JBoolean b => VBoolean b
  | JNumber n => VNumber n
  | JString s => VString s
  | _ => VNull
  end.

(** The values of the group columns of a plain row. *)
Definition groupValues (columns : list string) (x : JsValue) : list JsValue :=
  List.map (fun qc => getProp x (snd qc)) (selectorsToQualifiedColumns columns).



(** [NOT LIKE] and [NOT ILIKE] negate; [ILIKE] and [NOT ILIKE] ignore
    case. *)
Definition likeNegated (op : SimpleOperator) : bool :=
  match op with
  | OpNotLike | OpNotILike => true
  | _ => false
  end.

Definition likeIgnoresCase (op : SimpleOperator) : bool :=
  match op with
  | OpILike | OpNotILike => true
  | _ => false
  end.

(** The simple conditions that [getOperator] accepts: every comparison and
    membership test; a LIKE with a string pattern that does not end with a
    dangling escape; a case-sensitive LIKE with a literal that is not a
    string. *)
Definition simpleCompiles (op : SimpleOperator) (value : Primitive) : bool :=
  if isLikeOperator op then
    match value with
    | PString pattern => negb (endsWithDanglingEscape pattern)
    | _ => negb (likeIgnoresCase op)
    end
  else true.

Fixpoint compiles (c : Condition) : bool :=
  match c with
  | Simple op _ value => simpleCompiles op value
  | Conjunction _ conds => List.forallb compiles conds
  end.

(** The error of the first simple condition, left to right, that
    [getOperator] rejects. *)
Fixpoint firstError (conditions : list (SimpleOperator * string * Primitive))
  : option string :=
  match conditions with
  | [] => None
  | (op, field, value) :: rest =>
      match getOperator (Simple op field value) with
      | Throw message => Some message
      | Ok _ => firstError rest
      end
  end.

(** The stage that the full-table aggregation adds for one aggregation. *)
Definition aggregationStage (stream : DifferenceStream) (agg : Aggregation)
  : DifferenceStream :=
  match agg_aggregate agg with
  | Avg => AverageStream (agg_field agg) (agg_alias agg) stream
  | Count => CountStream (agg_alias agg) stream
  | Sum => SumStream (agg_field agg) (agg_alias agg) stream
  | Min | Max | Array => stream
  end.

(** Example rows: one with the column [g] set to [null], one without it. *)
Definition rowNullG : JsValue := JObject false [("id", JString "r1"); ("g", JNull)].
Definition rowNoG : JsValue := JObject false [("id", JString "r2")].


End PipelineMore.

Module SlotNames.
Import Js InitialSync.

(** The number of characters of [s] that satisfy [p]. *)
Fixpoint countCharacters (p : ascii -> bool) (s : string) : nat :=
  match s with
  | EmptyString => 0%nat
  | String c rest => ((if p c then 1 else 0) + countCharacters p rest)%nat
  end.

Definition isQuote (c : ascii) : bool := Ascii.eqb c dquoteChar.
Definition isBlank (c : ascii) : bool := Ascii.eqb c " ".

End SlotNames.

(* ===================================================================== *)
(** * Part II: properties                                                 *)
(* ===================================================================== *)

(** *** Sorting with a comparison that is a total order on the elements *)

Section SortFacts.
Import Js.
Context {A : Type} (cmp : A -> A -> Z) (D : A -> Prop).
Hypothesis cmp_neg : forall x y, D x -> D y -> cmp y x = - cmp x y.
Hypothesis cmp_zero : forall x y, D x -> D y -> cmp x y = 0 -> x = y.
Hypothesis cmp_trans :
  forall x y z, D x -> D y -> D z -> cmp x y < 0 -> cmp y z < 0 -> cmp x z < 0.

Lemma cmp_le_trans (x y z : A) :
  D x -> D y -> D z -> cmp x y <= 0 -> cmp y z <= 0 -> cmp x z <= 0.
Proof.
  intros Dx Dy Dz Hxy Hyz.
  destruct (Z.eq_dec (cmp x y) 0) as [E | N].
  { apply cmp_zero in E; auto. now subst. }
  destruct (Z.eq_dec (cmp y z) 0) as [E' | N'].
  { apply cmp_zero in E'; auto. now subst. }
  assert (cmp x z < 0) by (apply (cmp_trans x y z); auto; lia). lia.
Qed.

Lemma insertSorted_comm (x y : A) (l : list A) :
  D x -> D y -> Forall D l ->
  insertSorted cmp x (insertSorted cmp y l)
  = insertSorted cmp y (insertSorted cmp x l).
Proof.
  intros Dx Dy Dl. pose proof (cmp_neg x y Dx Dy) as Hneg.
  induction l as [| z l IH].
  - simpl. destruct (Z.leb_spec (cmp x y) 0) as [Hxy | Hxy];
      destruct (Z.leb_spec (cmp y x) 0) as [Hyx | Hyx];
      try reflexivity; try lia.
    assert (x = y) by (apply cmp_zero; auto; lia). now subst.
  - apply Forall_cons in Dl as [Dz Dl]. specialize (IH Dl).
    cbn [insertSorted].
    destruct (Z.leb_spec (cmp y z) 0) as [Hyz | Hyz];
      destruct (Z.leb_spec (cmp x z) 0) as [Hxz | Hxz]; cbn [insertSorted].
    + destruct (Z.leb_spec (cmp x y) 0) as [Hxy | Hxy];
        destruct (Z.leb_spec (cmp y x) 0) as [Hyx | Hyx]; try lia.
      * assert (x = y) by (apply cmp_zero; auto; lia). now subst.
      * destruct (Z.leb_spec (cmp y z) 0); [reflexivity | lia].
      * destruct (Z.leb_spec (cmp x z) 0); [reflexivity | lia].
    + destruct (Z.leb_spec (cmp x y) 0) as [Hxy | Hxy].
      * pose proof (cmp_le_trans x y z Dx Dy Dz Hxy Hyz). lia.
      * destruct (Z.leb_spec (cmp x z) 0); [lia |].
        destruct (Z.leb_spec (cmp y z) 0); [reflexivity | lia].
    + destruct (Z.leb_spec (cmp y x) 0) as [Hyx | Hyx].
      * pose proof (cmp_le_trans y x z Dy Dx Dz Hyx Hxz). lia.
      * destruct (Z.leb_spec (cmp y z) 0); [lia |].
        destruct (Z.leb_spec (cmp x z) 0); [reflexivity | lia].
    + destruct (Z.leb_spec (cmp x z) 0); [lia |].
      destruct (Z.leb_spec (cmp y z) 0); [lia |].
      now rewrite IH.
Qed.

Lemma Forall_insertSorted (x : A) (l : list A) :
  D x -> Forall D l -> Forall D (insertSorted cmp x l).
Proof.
  intros Dx. induction l as [| z l IH]; intros Dl; simpl.
  - now constructor.
  - apply Forall_cons in Dl as [Dz Dl].
    destruct (cmp x z <=? 0); repeat constructor; auto.
Qed.

Lemma Forall_sort (l : list A) : Forall D l -> Forall D (sort cmp l).
Proof.
  induction l as [| x l IH]; intros Dl; simpl; [constructor |].
  apply Forall_cons in Dl as [Dx Dl]. apply Forall_insertSorted; auto.
Qed.

(** Two arrangements of the same elements sort to the same list. *)
Lemma sort_Permutation (l l' : list A) :
  Forall D l -> Permutation l l' -> sort cmp l = sort cmp l'.
Proof.
  intros Dl Hp. induction Hp as [| x l l' Hp IH | x y l | l l' l'' Hp1 IH1 Hp2 IH2].
  - reflexivity.
  - apply Forall_cons in Dl as [Dx Dl]. simpl. now rewrite IH.
  - apply Forall_cons in Dl as [Dy Dl]. apply Forall_cons in Dl as [Dx Dl].
    simpl. apply insertSorted_comm; auto. now apply Forall_sort.
  - rewrite IH1 by exact Dl. apply IH2.
    rewrite Forall_forall in Dl |- *. intros x Hx. apply Dl.
    rewrite list_elem_of_In in Hx |- *.
    eapply Permutation_in; [symmetry; exact Hp1 | exact Hx].
Qed.

End SortFacts.

Section SortShape.
Import Js.
Context {A : Type} (cmp : A -> A -> Z).

Lemma length_insertSorted (x : A) (l : list A) :
  List.length (insertSorted cmp x l) = S (List.length l).
Proof.
  induction l as [| z l IH]; simpl; [reflexivity |].
  destruct (cmp x z <=? 0); simpl; [reflexivity | now rewrite IH].
Qed.

Lemma length_sort (l : list A) : List.length (sort cmp l) = List.length l.
Proof.
  induction l as [| x l IH]; simpl; [reflexivity |].
  now rewrite length_insertSorted, IH.
Qed.

Lemma insertSorted_Permutation (x : A) (l : list A) :
  Permutation (x :: l) (insertSorted cmp x l).
Proof.
  induction l as [| z l IH]; simpl; [reflexivity |].
  destruct (cmp x z <=? 0); [reflexivity |].
  rewrite perm_swap. now apply perm_skip.
Qed.

Lemma sort_is_Permutation (l : list A) : Permutation l (sort cmp l).
Proof.
  induction l as [| x l IH]; simpl; [reflexivity |].
  rewrite <- insertSorted_Permutation. now apply perm_skip.
Qed.

End SortShape.

Section AstFacts.
Import Js Ast AstProperties.

(** Induction on conditions with the hypothesis on every child. *)
Lemma Condition_nested_ind (P : Condition -> Prop) :
  (forall op field value, P (Simple op field value)) ->
  (forall op conds, Forall P conds -> P (Conjunction op conds)) ->
  forall c, P c.
Proof.
  intros HS HC. fix IH 1. intros [op f v | op conds].
  - apply HS.
  - apply HC. induction conds as [| c conds IHconds]; constructor.
    + apply IH.
    + exact IHconds.
Qed.

(** C1 (code defect).  [normalizeAST] is not idempotent on a WHERE clause
    that nests the same operator three deep: the first pass leaves
    [AND(c, d, AND(a, b))], which the second pass flattens and reorders. *)
Theorem normalizeAST_not_idempotent_nested :
  where_ (normalizeAST (queryWhere (Some nestedThreeDeep)))
  = Some (Conjunction AND
            [eq1 "c" 3; eq1 "d" 4; Conjunction AND [eq1 "a" 1; eq1 "b" 2]])
  /\ where_ (normalizeAST (normalizeAST (queryWhere (Some nestedThreeDeep))))
     = Some (Conjunction AND [eq1 "a" 1; eq1 "b" 2; eq1 "c" 3; eq1 "d" 4])
  /\ normalizeAST (normalizeAST (queryWhere (Some nestedThreeDeep)))
     <> normalizeAST (queryWhere (Some nestedThreeDeep)).
Proof.
  split; [vm_compute; reflexivity |].
  split; [vm_compute; reflexivity |].
  intros H. apply (f_equal where_) in H. vm_compute in H. discriminate H.
Qed.

(** C2 (code defect).  The normalized WHERE clause of the same query keeps a
    conjunction directly under a conjunction with the same operator:
    [flattened] inlines one level of nesting only. *)
Theorem flattened_keeps_nested_same_op :
  flattened (Some nestedThreeDeep)
  = Some (Conjunction AND
            [Conjunction AND [eq1 "a" 1; eq1 "b" 2]; eq1 "c" 3; eq1 "d" 4])
  /\ option_map noNestedSameOp
       (where_ (normalizeAST (queryWhere (Some nestedThreeDeep))))
     = Some false.
Proof. split; vm_compute; reflexivity. Qed.

End AstFacts.

Section StringFacts.
Import Js Characters.

Lemma allAscii_complete (c : ascii) : In c allAscii.
Proof.
  unfold allAscii. apply in_map_iff. exists (nat_of_ascii c). split.
  - apply ascii_nat_embedding.
  - apply in_seq. pose proof (nat_ascii_bounded c). lia.
Qed.


Lemma str_append_cons (x : ascii) (a b : string) :
  String x a +:+ b = String x (a +:+ b).
Proof. reflexivity. Qed.

Lemma str_append_nil_l (b : string) : EmptyString +:+ b = b.
Proof. reflexivity. Qed.

Lemma str_append_assoc (a b c : string) : (a +:+ b) +:+ c = a +:+ (b +:+ c).
Proof.
  induction a as [| x a IH]; [reflexivity |].
  rewrite !str_append_cons. now f_equal.
Qed.

Lemma str_append_nil_r (a : string) : a +:+ EmptyString = a.
Proof.
  induction a as [| x a IH]; [reflexivity |].
  rewrite str_append_cons. now f_equal.
Qed.

Lemma str_length_append (a b : string) :
  String.length (a +:+ b) = (String.length a + String.length b)%nat.
Proof.
  induction a as [| x a IH]; [reflexivity |].
  rewrite str_append_cons. simpl. now f_equal.
Qed.

Lemma str_substring_append (a b : string) :
  String.substring 0 (String.length a) (a +:+ b) = a.
Proof.
  induction a as [| x a IH]; [now destruct b |].
  rewrite str_append_cons. simpl. now f_equal.
Qed.

Lemma str_prefix_append (a b : string) : String.prefix a (a +:+ b) = true.
Proof.
  induction a as [| x a IH]; [now destruct b |].
  rewrite str_append_cons. simpl.
  destruct (ascii_dec x x) as [_ | Hne]; [exact IH | now destruct Hne].
Qed.

Lemma str_prefix_inv (a b : string) :
  String.prefix a b = true -> exists t, b = a +:+ t.
Proof.
  revert b. induction a as [| x a IH]; intros b H.
  - exists b. reflexivity.
  - destruct b as [| y b]; simpl in H; [discriminate |].
    destruct (ascii_dec x y) as [-> | _]; [| discriminate].
    destruct (IH b H) as [t ->]. exists t. reflexivity.
Qed.

Lemma str_append_cancel_l (a b c : string) : a +:+ b = a +:+ c -> b = c.
Proof.
  induction a as [| x a IH]; intros H; [exact H |].
  rewrite !str_append_cons in H. injection H as H. auto.
Qed.

Lemma str_prefix_append_cancel (a b c : string) :
  String.prefix (a +:+ b) (a +:+ c) = String.prefix b c.
Proof.
  induction a as [| x a IH]; [reflexivity |].
  rewrite !str_append_cons. simpl.
  destruct (ascii_dec x x) as [_ | Hne]; [exact IH | now destruct Hne].
Qed.

End StringFacts.

Section JoinFacts.
Import Js JoinOp JoinProperties.

(** The storage key is the serialised values, each followed by a comma, after
    the serialised tag. *)
Lemma createPrimaryKeySetStorageKey_unfold (values : list NormalizedValue) :
  createPrimaryKeySetStorageKey values
  = String.concat "," (quoteJSONString "pKeySet" :: List.map jsonValue values)
      +:+ ",".
Proof.
  unfold createPrimaryKeySetStorageKey, jsonArray.
  set (body := String.concat "," _).
  f_equal.
  change ("[" +:+ body +:+ "]") with (String "[" (body +:+ "]")).
  cbn [String.length String.substring].
  rewrite str_length_append. cbn [String.length].
  replace (S (String.length body + 1) - 1 - 1)%nat with (String.length body)
    by lia.
  apply str_substring_append.
Qed.

Lemma createPrimaryKeySetStorageKey_cons (v : NormalizedValue)
  (primaryKey : list NormalizedValue) :
  createPrimaryKeySetStorageKey (v :: primaryKey)
  = createPrimaryKeySetStorageKeyPrefix v +:+ keyTail primaryKey.
Proof.
  unfold createPrimaryKeySetStorageKeyPrefix.
  rewrite !createPrimaryKeySetStorageKey_unfold.
  destruct primaryKey as [| p primaryKey].
  - simpl keyTail. now rewrite str_append_nil_r.
  - unfold keyTail.
    change (List.map jsonValue (v :: p :: primaryKey))
      with (jsonValue v :: List.map jsonValue (p :: primaryKey)).
    set (rest := List.map jsonValue (p :: primaryKey)).
    assert (Hrest : exists r rs, rest = r :: rs) by (now eexists; eexists).
    destruct Hrest as [r [rs Hrest]]. rewrite Hrest.
    change (String.concat "," (quoteJSONString "pKeySet" :: jsonValue v :: r :: rs))
      with (quoteJSONString "pKeySet" +:+ ","
              +:+ (jsonValue v +:+ "," +:+ String.concat "," (r :: rs))).
    change (String.concat "," [quoteJSONString "pKeySet"; jsonValue v])
      with (quoteJSONString "pKeySet" +:+ "," +:+ jsonValue v).
    now rewrite !str_append_assoc.
Qed.

(** The prefix of a join value starts the key of every parent with that
    join value. *)
Lemma prefix_of_own_key (v : NormalizedValue)
  (primaryKey : list NormalizedValue) :
  String.prefix (createPrimaryKeySetStorageKeyPrefix v)
    (createPrimaryKeySetStorageKey (v :: primaryKey)) = true.
Proof.
  rewrite createPrimaryKeySetStorageKey_cons. apply str_prefix_append.
Qed.

Lemma storage_scan_spec (prefix : string) (st : Storage) k b :
  In (k, b) (storage_scan prefix st)
  <-> st !! k = Some b /\ String.prefix prefix k = true.
Proof.
  unfold storage_scan. rewrite filter_In, <- list_elem_of_In.
  rewrite elem_of_map_to_list. simpl. tauto.
Qed.

Lemma storage_scan_NoDup (prefix : string) (st : Storage) :
  NoDup (List.map fst (storage_scan prefix st)).
Proof.
  unfold storage_scan.
  assert (H : NoDup (List.map fst (map_to_list st))).
  { exact (NoDup_fst_map_to_list st). }
  revert H. generalize (map_to_list st). intros l.
  induction l as [| [k b] l IH]; simpl; intros H.
  - constructor.
  - apply NoDup_cons in H as [Hk Hl].
    destruct (String.prefix prefix k); simpl.
    + apply NoDup_cons_2.
      * intros Hin. apply Hk. rewrite list_elem_of_In in Hin |- *.
        apply in_map_iff in Hin as [[k' b'] [Heq Hin]]. simpl in Heq. subst k'.
        apply filter_In in Hin as [Hin _].
        apply in_map_iff. exists (k, b'). split; [reflexivity | exact Hin].
      * apply IH, Hl.
    + apply IH, Hl.
Qed.


Lemma scan_short_iff (prefix : string) (st : Storage) (own : string) :
  is_Some (st !! own) -> String.prefix prefix own = true ->
  ((List.length (storage_scan prefix st) < 2)%nat
   <-> forall k, is_Some (st !! k) -> String.prefix prefix k = true -> k = own).
Proof.
  intros [b Hown] Hp.
  assert (Hin : In (own, b) (storage_scan prefix st)).
  { apply storage_scan_spec. auto. }
  pose proof (storage_scan_NoDup prefix st) as Hnd.
  split.
  - intros Hlen k [b' Hk] Hpk.
    assert (Hin' : In (k, b') (storage_scan prefix st)).
    { apply storage_scan_spec. auto. }
    destruct (storage_scan prefix st) as [| e1 [| e2 l]]; simpl in *.
    + contradiction.
    + destruct Hin as [-> | []]. destruct Hin' as [Heq | []].
      congruence.
    + lia.
  - intros Hall.
    destruct (storage_scan prefix st) as [| [k1 b1] [| [k2 b2] l]] eqn:Hscan;
      simpl; try lia.
    exfalso.
    assert (H1 : k1 = own).
    { apply Hall.
      - exists b1. eapply storage_scan_spec. rewrite Hscan. left. reflexivity.
      - eapply (storage_scan_spec prefix st k1 b1). rewrite Hscan. left.
        reflexivity. }
    assert (H2 : k2 = own).
    { apply Hall.
      - exists b2. eapply storage_scan_spec. rewrite Hscan. right. left.
        reflexivity.
      - eapply (storage_scan_spec prefix st k2 b2). rewrite Hscan. right.
        left. reflexivity. }
    subst. simpl in Hnd. apply NoDup_cons in Hnd as [Hnd _].
    apply Hnd. left.
Qed.



Lemma prefix_of_storageKeyOf (j : Join) (node : Node) :
  String.prefix
    (createPrimaryKeySetStorageKeyPrefix (parentKeyValueOf j node))
    (storageKeyOf j node) = true.
Proof. apply prefix_of_own_key. Qed.


(** C5.  A change pushed from the child input makes the Join fetch the
    parent input with the constraint [{key: parentKey, value:
    childRow[childKey]}], where [childRow] is the row of the node of an
    [add] or a [remove] and the row of a [child] change, and push, for each
    parent node returned and in that order, one child change rooted at the
    row of that parent and wrapping the original change under the
    relationship name; the storage is left alone, and two parents give
    exactly two child changes. *)
Theorem push_from_child (j : Join) (st : Storage) :
  output j = true ->
  let fetched (v : Value) : list Node :=
    input_fetch (parent j)
      {| constraint := Some {| key := parentKey j; value := v |} |} in
  let pushed (change : Change) (parentNodes : list Node)
    : Res (list Change * Storage) :=
    Ok (List.map
          (fun parentNode =>
             ChildChange (row parentNode) (relationshipName j) change)
          parentNodes,
        st) in
  (forall node,
      push j st (AddChange node) FromChild
      = pushed (AddChange node) (fetched (row node !! childKey j)))
  /\ (forall node,
        push j st (RemoveChange node) FromChild
        = pushed (RemoveChange node) (fetched (row node !! childKey j)))
  /\ (forall r name change,
        push j st (ChildChange r name change) FromChild
        = pushed (ChildChange r name change) (fetched (r !! childKey j)))
  /\ (forall node first second,
        fetched (row node !! childKey j) = [first; second] ->
        push j st (AddChange node) FromChild
        = Ok ([ChildChange (row first) (relationshipName j) (AddChange node);
               ChildChange (row second) (relationshipName j) (AddChange node)],
              st)).
Proof.
  intros Hout fetched pushed.
  assert (Hadd : forall node,
    push j st (AddChange node) FromChild
    = pushed (AddChange node) (fetched (row node !! childKey j))).
  { intros node. unfold push. rewrite Hout. reflexivity. }
  split; [exact Hadd |]. split; [| split].
  - intros node. unfold push. rewrite Hout. reflexivity.
  - intros r name change. unfold push. rewrite Hout. reflexivity.
  - intros node first second Hp. rewrite Hadd, Hp. reflexivity.
Qed.

(** The example of the specification: the child [c1] is inserted while the
    parents [i1] and [i2] share its join value; so for its removal and for a
    change below it; a child with another join value reaches no parent. *)
Lemma push_from_child_witness :
  push exampleJoin ∅ (AddChange childNode1) FromChild
  = Ok ([ChildChange parentRow1 "comments" (AddChange childNode1);
         ChildChange parentRow2 "comments" (AddChange childNode1)],
        ∅)
  /\ push exampleJoin ∅ (RemoveChange childNode1) FromChild
     = Ok ([ChildChange parentRow1 "comments" (RemoveChange childNode1);
            ChildChange parentRow2 "comments" (RemoveChange childNode1)],
           ∅)
  /\ push exampleJoin ∅
       (ChildChange childRow1 "replies" (AddChange strangerNode)) FromChild
     = Ok ([ChildChange parentRow1 "comments"
              (ChildChange childRow1 "replies" (AddChange strangerNode));
            ChildChange parentRow2 "comments"
              (ChildChange childRow1 "replies" (AddChange strangerNode))],
           ∅)
  /\ push exampleJoin ∅ (AddChange strangerNode) FromChild = Ok ([], ∅).
Proof.
  destruct (push_from_child exampleJoin ∅ eq_refl)
    as [Hadd [Hremove [Hchild Htwo]]].
  split; [| split; [| split]].
  - apply (Htwo childNode1 parentNode1 parentNode2). vm_compute. reflexivity.
  - rewrite Hremove. vm_compute. reflexivity.
  - rewrite Hchild. vm_compute. reflexivity.
  - rewrite Hadd. vm_compute. reflexivity.
Defined.

End JoinFacts.

Section GroupByFacts.
Import Js Ast PipelineBuilder PipelineProperties.

Lemma getValuesFromEntity_plain (x : JsValue)
  (qualifiedColumns : list (option string * string)) :
  isJoinResult x = false ->
  getValuesFromEntity x qualifiedColumns
  = Ok (List.map (fun qc => getProp x (snd qc)) qualifiedColumns).
Proof.
  intros Hx. induction qualifiedColumns as [| qc rest IH]; simpl.
  - reflexivity.
  - unfold getValueFromEntity. rewrite Hx. simpl. rewrite IH. reflexivity.
Qed.

(** C9.  Grouping the three rows by [g] with [count()] and [sum(v)] gives
    two groups, keyed by the JSON text of the tuple of the group columns;
    each group row is the first member of the group with the aggregate
    aliases set, so it shows [g = a, count = 2, sum = 3] and
    [g = b, count = 1, sum = 5]; after the row [{g: a, v: 1}] is removed the
    group [a] shows [count = 1, sum = 2].  The key of any plain row is the
    JSON array of its group-column values in the declared order. *)
Theorem groupBy_count_sum_example :
  let keyA := jsonArray [quoteJSONString "a"] in
  let keyB := jsonArray [quoteJSONString "b"] in
  let merged (first : JsValue) (count sum : Z) :=
    setProp (setProp first "count" (JNumber (Int count))) "sum"
      (JNumber (Int sum)) in
  (forall (x : JsValue) (columns : list string),
      isJoinResult x = false ->
      makeKeyFunction columns x
      = Ok (jsonArray
              (List.map (fun qc => jsonElement (getProp x (snd qc)))
                 (selectorsToQualifiedColumns columns))))
  /\ makeKeyFunction ["g"] rowA1 = Ok keyA
  /\ makeKeyFunction ["g"] rowA2 = Ok keyA
  /\ makeKeyFunction ["g"] rowB = Ok keyB
  /\ groupRows groupByG [Added rowA1; Added rowA2; Added rowB]
     = Ok (<[keyA := Some (merged rowA1 2 3)]>
             (<[keyB := Some (merged rowB 1 5)]> ∅))
  /\ groupColumns (Some (merged rowA1 2 3))
     = Some (JString "a", JNumber (Int 2), JNumber (Int 3))
  /\ groupColumns (Some (merged rowB 1 5))
     = Some (JString "b", JNumber (Int 1), JNumber (Int 5))
  /\ groupRows groupByG
       [Added rowA1; Added rowA2; Added rowB; Removed rowA1]
     = Ok (<[keyA := Some (merged rowA2 1 2)]>
             (<[keyB := Some (merged rowB 1 5)]> ∅))
  /\ groupColumns (Some (merged rowA2 1 2))
     = Some (JString "a", JNumber (Int 1), JNumber (Int 2)).
Proof.
  intros keyA keyB merged.
  split.
  { intros x columns Hx. unfold makeKeyFunction.
    rewrite (getValuesFromEntity_plain _ _ Hx). simpl.
    rewrite List.map_map. reflexivity. }
  repeat split; vm_compute; reflexivity.
Qed.

(** The key of the first example row, from the general statement. *)
Lemma groupBy_count_sum_example_witness :
  makeKeyFunction ["g"; "v"] rowA1
  = Ok (jsonArray [quoteJSONString "a"; "1"]).
Proof.
  apply (proj1 groupBy_count_sum_example rowA1 ["g"; "v"]).
  reflexivity.
Defined.

End GroupByFacts.

Section BuildFacts.
Import Js Ast AstProperties PipelineBuilder PipelineProperties.

Lemma applyFullTableAggregation_throws (aggs : list Aggregation) :
  forall stream,
    isThrow (applyFullTableAggregation stream aggs)
    = List.existsb (fun a => negb (supportedOutsideGroupBy a)) aggs.
Proof.
  induction aggs as [| a aggs IH]; intros stream; simpl.
  - reflexivity.
  - unfold supportedOutsideGroupBy at 1.
    destruct (agg_aggregate a); simpl; try reflexivity; apply IH.
Qed.

Lemma applyWhere_throws (c : Condition) :
  forall stream, isThrow (applyWhere c stream) = negb (conditionCompiles c).
Proof.
  induction c as [op field value | op conds IH] using Condition_nested_ind;
    intros stream.
  - cbn [applyWhere conditionCompiles]. unfold applySimpleCondition.
    destruct (getOperator (Simple op field value)); reflexivity.
  - destruct op; simpl.
    + revert stream.
      induction conds as [| c conds IHconds]; intros stream; simpl.
      * reflexivity.
      * apply Forall_cons in IH as [Hc Hconds].
        specialize (Hc stream).
        destruct (applyWhere c stream) as [stream' | m]; simpl in *.
        -- rewrite IHconds by exact Hconds.
           destruct (conditionCompiles c); [reflexivity | discriminate Hc].
        -- destruct (conditionCompiles c); [discriminate Hc | reflexivity].
    + match goal with
      | |- isThrow (bindRes ?branches _) = _ =>
          assert (Hb : isThrow branches
                       = negb (List.forallb conditionCompiles conds))
      end.
      { induction conds as [| c conds IHconds]; simpl.
        - reflexivity.
        - apply Forall_cons in IH as [Hc Hconds].
          specialize (Hc stream).
          destruct (applyWhere c stream) as [stream' | m]; simpl in *.
          + specialize (IHconds Hconds).
            match goal with
            | |- isThrow (bindRes ?b _) = _ => destruct b; simpl in *
            end;
              destruct (conditionCompiles c); try discriminate Hc;
              simpl; exact IHconds.
          + destruct (conditionCompiles c); [discriminate Hc | reflexivity]. }
      match goal with
      | |- isThrow (bindRes ?branches _) = _ => destruct branches
      end; exact Hb.
Qed.

Lemma filtered_throws provider (ast : AST) :
  isThrow (filtered provider ast) = negb (whereCompiles (where_ ast)).
Proof.
  unfold filtered, whereCompiles. destruct (where_ ast) as [w |].
  - apply applyWhere_throws.
  - reflexivity.
Qed.

(** C8 as stated fails: every aggregation is [count], there is no groupBy,
    and [buildPipeline] throws, because the WHERE clause does not compile. *)
Lemma buildPipeline_count_throws_on_bad_where :
  let ast :=
    aggregateQuery (Some danglingLike)
      (Some [{| agg_field := None; agg_alias := "n"; agg_aggregate := Count |}])
      None in
  groupBy ast = None
  /\ option_map (List.forallb supportedOutsideGroupBy) (aggregate ast)
     = Some true
  /\ buildPipeline SourceStream ast
     = Throw "LIKE pattern must not end with escape character".
Proof. repeat split. Qed.

(** C8 (amended).  With aggregations and no groupBy, [buildPipeline] throws
    when some aggregation is [min], [max] or [array]; when every aggregation
    is [count], [sum] or [avg] and the WHERE clause compiles, it returns the
    full-table aggregation of the filtered stream.  With a groupBy and a
    WHERE clause that compiles, it returns the group-by stage whatever the
    aggregate kinds are. *)
Theorem buildPipeline_aggregates provider (ast : AST)
  (aggs : list Aggregation) :
  aggregate ast = Some aggs ->
  (groupBy ast = None ->
     (List.existsb (fun a => negb (supportedOutsideGroupBy a)) aggs = true ->
      isThrow (buildPipeline provider ast) = true)
     /\ (List.forallb supportedOutsideGroupBy aggs = true ->
         whereCompiles (where_ ast) = true ->
         exists stream result,
           filtered provider ast = Ok stream
           /\ applyFullTableAggregation stream aggs = Ok result
           /\ buildPipeline provider ast = Ok result))
  /\ (forall columns,
        groupBy ast = Some columns ->
        whereCompiles (where_ ast) = true ->
        exists stream,
          filtered provider ast = Ok stream
          /\ buildPipeline provider ast
             = Ok (applyGroupBy stream columns aggs)).
Proof.
  intros Haggs.
  assert (Hbuild :
    buildPipeline provider ast
    = bindRes (filtered provider ast)
        (fun stream =>
           match groupBy ast with
           | Some columns => Ok (applyGroupBy stream columns aggs)
           | None => applyFullTableAggregation stream aggs
           end)).
  { unfold buildPipeline, filtered. rewrite Haggs. reflexivity. }
  pose proof (filtered_throws provider ast) as Hf.
  split.
  - intros Hg. rewrite Hbuild, Hg. split.
    + intros Hbad. destruct (filtered provider ast) as [stream | m]; simpl.
      * rewrite applyFullTableAggregation_throws. exact Hbad.
      * reflexivity.
    + intros Hgood Hw. rewrite Hw in Hf.
      destruct (filtered provider ast) as [stream | m]; [| discriminate Hf].
      pose proof (applyFullTableAggregation_throws aggs stream) as Ha.
      assert (Hex :
        List.existsb (fun a => negb (supportedOutsideGroupBy a)) aggs = false).
      { clear -Hgood. induction aggs as [| a aggs IH]; simpl in *.
        - reflexivity.
        - apply andb_prop in Hgood as [Ha Hgood]. rewrite Ha. simpl. auto. }
      rewrite Hex in Ha.
      destruct (applyFullTableAggregation stream aggs) as [result | m] eqn:Hr;
        [| discriminate Ha].
      exists stream, result. simpl. rewrite Hr. auto.
  - intros columns Hg Hw. rewrite Hbuild, Hg. rewrite Hw in Hf.
    destruct (filtered provider ast) as [stream | m]; [| discriminate Hf].
    exists stream. auto.
Qed.

(** Three queries over the example: [count] and [avg] without groupBy,
    [min] without groupBy, and [min] with a groupBy. *)
Lemma buildPipeline_aggregates_witness :
  (exists stream result,
      filtered SourceStream
        (aggregateQuery (Some (eq1 "a" 1)) (Some countAndAvg) None)
      = Ok stream
      /\ applyFullTableAggregation stream countAndAvg = Ok result
      /\ buildPipeline SourceStream
           (aggregateQuery (Some (eq1 "a" 1)) (Some countAndAvg) None)
         = Ok result)
  /\ isThrow
       (buildPipeline SourceStream (aggregateQuery None (Some onlyMin) None))
     = true
  /\ (exists stream,
         filtered SourceStream
           (aggregateQuery None (Some onlyMin) (Some ["g"]))
         = Ok stream
         /\ buildPipeline SourceStream
              (aggregateQuery None (Some onlyMin) (Some ["g"]))
            = Ok (applyGroupBy stream ["g"] onlyMin)).
Proof.
  split; [| split].
  - apply (proj2 (proj1 (buildPipeline_aggregates SourceStream
                           (aggregateQuery (Some (eq1 "a" 1))
                              (Some countAndAvg) None)
                           countAndAvg eq_refl) eq_refl));
      reflexivity.
  - apply (proj1 (proj1 (buildPipeline_aggregates SourceStream
                           (aggregateQuery None (Some onlyMin) None)
                           onlyMin eq_refl) eq_refl));
      reflexivity.
  - apply (proj2 (buildPipeline_aggregates SourceStream
                    (aggregateQuery None (Some onlyMin) (Some ["g"]))
                    onlyMin eq_refl) ["g"]);
      reflexivity.
Defined.

End BuildFacts.

Section LikeFacts.
Import Js Ast PipelineBuilder Characters PipelineProperties LikeProperties.

Lemma trailingEscapes_le (p : string) :
  (trailingEscapes p <= String.length p)%nat.
Proof.
  induction p as [| c p IH]; simpl; [lia |].
  destruct (Ascii.eqb c backslashChar && (trailingEscapes p =? String.length p)%nat);
    lia.
Qed.

Lemma trailingEscapes_other (c : ascii) (p : string) :
  Ascii.eqb c backslashChar = false ->
  trailingEscapes (String c p) = trailingEscapes p.
Proof. intros H. simpl. rewrite H. reflexivity. Qed.

Lemma trailingEscapes_escaped (c : ascii) (p : string) :
  Nat.odd (trailingEscapes (String backslashChar (String c p)))
  = Nat.odd (trailingEscapes p).
Proof.
  pose proof (trailingEscapes_le p) as Hle.
  cbn [trailingEscapes String.length]. rewrite Ascii.eqb_refl. simpl andb.
  destruct (Ascii.eqb c backslashChar && (trailingEscapes p =? String.length p)%nat)
    eqn:Hc.
  - apply andb_prop in Hc as [_ Hk]. apply Nat.eqb_eq in Hk.
    rewrite Hk, Nat.eqb_refl.
    rewrite <- Hk. rewrite !Nat.odd_succ, Nat.even_succ. reflexivity.
  - destruct (Nat.eqb_spec (trailingEscapes p) (S (String.length p))); [lia |].
    reflexivity.
Qed.

(** The loop throws exactly on a dangling escape. *)
Lemma patternToRegExpLoop_throws (n : nat) :
  forall source acc,
    (String.length source <= n)%nat ->
    isThrow (patternToRegExpLoop source acc) = endsWithDanglingEscape source.
Proof.
  unfold endsWithDanglingEscape.
  induction n as [| n IH]; intros source acc Hlen.
  - destruct source; [reflexivity | simpl in Hlen; lia].
  - destruct source as [| c rest]; [reflexivity |].
    simpl in Hlen. cbn [patternToRegExpLoop].
    destruct (Ascii.eqb c "%") eqn:Hpct.
    { apply Ascii.eqb_eq in Hpct. subst c.
      rewrite trailingEscapes_other by reflexivity. apply IH. lia. }
    destruct (Ascii.eqb c "_") eqn:Hund.
    { apply Ascii.eqb_eq in Hund. subst c.
      rewrite trailingEscapes_other by reflexivity. apply IH. lia. }
    destruct (Ascii.eqb c backslashChar) eqn:Hbs.
    + apply Ascii.eqb_eq in Hbs. subst c.
      destruct rest as [| c' rest']; [reflexivity |].
      rewrite trailingEscapes_escaped. apply IH. simpl in Hlen. lia.
    + rewrite trailingEscapes_other by exact Hbs. apply IH. lia.
Qed.

Lemma hasWildcard_trailingEscapes (p : string) :
  hasWildcard p = false -> trailingEscapes p = 0%nat.
Proof.
  induction p as [| c p IH]; simpl; [reflexivity |].
  intros H. apply orb_false_elim in H as [H Hp].
  apply orb_false_elim in H as [_ Hbs]. rewrite Hbs. simpl. auto.
Qed.

(** What the loop builds. *)
Lemma patternToRegExpLoop_source (n : nat) :
  forall source acc out,
    (String.length source <= n)%nat ->
    patternToRegExpLoop source acc = Ok out ->
    out = acc +:+ tokensSource (likeTokens source).
Proof.
  induction n as [| n IH]; intros source acc out Hlen H.
  - destruct source; [| simpl in Hlen; lia].
    simpl in H. injection H as <-. now rewrite str_append_nil_r.
  - destruct source as [| c rest].
    { simpl in H. injection H as <-. now rewrite str_append_nil_r. }
    simpl in Hlen. cbn [patternToRegExpLoop likeTokens] in *.
    destruct (Ascii.eqb c "%").
    { apply IH in H; [| lia]. rewrite H. cbn [tokensSource tokenSource].
      now rewrite !str_append_assoc. }
    destruct (Ascii.eqb c "_").
    { apply IH in H; [| lia]. rewrite H. cbn [tokensSource tokenSource].
      now rewrite !str_append_assoc. }
    destruct (Ascii.eqb c backslashChar).
    + destruct rest as [| c' rest']; [discriminate H |].
      apply IH in H; [| simpl in Hlen; lia]. rewrite H.
      cbn [tokensSource tokenSource].
      destruct (specialCharsRe_test c'); now rewrite !str_append_assoc.
    + apply IH in H; [| lia]. rewrite H. cbn [tokensSource tokenSource].
      destruct (specialCharsRe_test c); now rewrite !str_append_assoc.
Qed.

Lemma not_special (c : ascii) :
  specialCharsRe_test c = false ->
  Ascii.eqb c "^" = false /\ Ascii.eqb c "$" = false
  /\ Ascii.eqb c "." = false /\ Ascii.eqb c backslashChar = false
  /\ Ascii.eqb c "*" = false.
Proof.
  unfold specialCharsRe_test, specialChars. cbn [List.existsb]. intros H.
  repeat (apply orb_false_elim in H as [? H]). auto.
Qed.

Lemma parsePattern_unfold (c : ascii) (rest : string) :
  parsePattern (String c rest)
  = if Ascii.eqb c "^" then option_map (cons AssertStart) (parsePattern rest)
    else if Ascii.eqb c "$" then
      option_map (cons AssertEnd) (parsePattern rest)
    else if Ascii.eqb c "." then quantified AnyChar rest
    else if Ascii.eqb c backslashChar then
      match rest with
      | String e rest' =>
          if specialCharsRe_test e then quantified (Literal e) rest' else None
      | EmptyString => None
      end
    else if specialCharsRe_test c then None
    else quantified (Literal c) rest.
Proof. reflexivity. Qed.

Lemma quantified_one (a : Atom) (rest : string) :
  startsWithStar rest = false ->
  quantified a rest = option_map (cons (One a)) (parsePattern rest).
Proof.
  intros Hrest. destruct rest as [| q rest']; [reflexivity |].
  unfold quantified. simpl in Hrest. rewrite Hrest. reflexivity.
Qed.

(** An atom followed by something that is not a star is taken once. *)
Lemma parsePattern_one (rest : string) :
  startsWithStar rest = false ->
  (parsePattern (String "." rest)
   = option_map (cons (One AnyChar)) (parsePattern rest))
  /\ (forall c, specialCharsRe_test c = true ->
        parsePattern (String backslashChar (String c rest))
        = option_map (cons (One (Literal c))) (parsePattern rest))
  /\ (forall c, specialCharsRe_test c = false ->
        parsePattern (String c rest)
        = option_map (cons (One (Literal c))) (parsePattern rest)).
Proof.
  intros Hrest. split; [| split].
  - rewrite parsePattern_unfold. cbn [Ascii.eqb Bool.eqb andb].
    apply quantified_one, Hrest.
  - intros c Hc. rewrite parsePattern_unfold.
    change (Ascii.eqb backslashChar "^") with false.
    change (Ascii.eqb backslashChar "$") with false.
    change (Ascii.eqb backslashChar ".") with false.
    rewrite Ascii.eqb_refl, Hc. cbv iota.
    apply quantified_one, Hrest.
  - intros c Hc. destruct (not_special c Hc) as (H1 & H2 & H3 & H4 & _).
    rewrite parsePattern_unfold, H1, H2, H3, H4, Hc.
    apply quantified_one, Hrest.
Qed.

Lemma parsePattern_token (t : LikeToken) (rest : string) :
  startsWithStar rest = false ->
  parsePattern (tokenSource t +:+ rest)
  = option_map (cons (tokenTerm t)) (parsePattern rest).
Proof.
  intros Hrest. destruct (parsePattern_one rest Hrest) as (Hdot & Hesc & Hlit).
  destruct t as [| | c]; cbn [tokenSource tokenTerm].
  - change (".*" +:+ rest) with (String "." (String "*" rest)).
    rewrite parsePattern_unfold. reflexivity.
  - exact Hdot.
  - destruct (specialCharsRe_test c) eqn:Hc.
    + apply Hesc, Hc.
    + apply Hlit, Hc.
Qed.

Lemma tokensSource_no_star (ts : list LikeToken) :
  startsWithStar (tokensSource ts +:+ "$") = false.
Proof.
  destruct ts as [| [| | c] ts]; try reflexivity.
  cbn [tokensSource tokenSource].
  destruct (specialCharsRe_test c) eqn:Hc; [reflexivity |].
  destruct (not_special c Hc) as (_ & _ & _ & _ & Hstar). exact Hstar.
Qed.

Lemma parsePattern_tokens (ts : list LikeToken) :
  parsePattern (tokensSource ts +:+ "$")
  = Some (List.map tokenTerm ts ++ [AssertEnd])%list.
Proof.
  induction ts as [| t ts IH].
  - reflexivity.
  - cbn [tokensSource List.map]. rewrite str_append_assoc.
    rewrite parsePattern_token by apply tokensSource_no_star.
    rewrite IH. reflexivity.
Qed.

(** The regular expression of a pattern without a dangling escape. *)
Lemma patternToRegExp_terms (source : string) (flags : Flags) :
  endsWithDanglingEscape source = false ->
  patternToRegExp source flags
  = Ok {| terms :=
            (AssertStart :: List.map tokenTerm (likeTokens source)
               ++ [AssertEnd])%list;
          ignoreCase := caseInsensitive flags |}.
Proof.
  intros Hd. unfold patternToRegExp.
  pose proof (patternToRegExpLoop_throws (String.length source) source "^"
                (Nat.le_refl _)) as Ht.
  rewrite Hd in Ht.
  destruct (patternToRegExpLoop source "^") as [out |] eqn:Hloop;
    [| discriminate Ht].
  apply (patternToRegExpLoop_source _ _ _ _ (Nat.le_refl _)) in Hloop.
  subst out. cbn [bindRes]. unfold RegExp_new.
  rewrite str_append_assoc.
  change ("^" +:+ (tokensSource (likeTokens source) +:+ "$"))
    with (String "^" (tokensSource (likeTokens source) +:+ "$")).
  rewrite parsePattern_unfold. change (Ascii.eqb "^" "^") with true. cbv iota.
  rewrite parsePattern_tokens. destruct flags; reflexivity.
Qed.

Lemma patternToRegExp_throws (source : string) (flags : Flags) :
  isThrow (patternToRegExp source flags) = endsWithDanglingEscape source.
Proof.
  destruct (endsWithDanglingEscape source) eqn:Hd.
  - unfold patternToRegExp.
    pose proof (patternToRegExpLoop_throws (String.length source) source "^"
                  (Nat.le_refl _)) as Ht.
    rewrite Hd in Ht.
    destruct (patternToRegExpLoop source "^"); [discriminate Ht | reflexivity].
  - rewrite (patternToRegExp_terms _ _ Hd). reflexivity.
Qed.

Lemma getLikeOp_throws (pattern : string) (flags : Flags) :
  isThrow (getLikeOp pattern flags) = endsWithDanglingEscape pattern.
Proof.
  unfold getLikeOp. destruct (hasWildcard pattern) eqn:Hw; cbn [negb].
  - rewrite <- (patternToRegExp_throws pattern flags).
    destruct (patternToRegExp pattern flags); reflexivity.
  - unfold endsWithDanglingEscape.
    rewrite (hasWildcard_trailingEscapes _ Hw). destruct flags; reflexivity.
Qed.

(** On the code units below 256 the two case foldings identify the same
    pairs of characters. *)
Lemma canonicalize_toLowerCaseChar (c d : ascii) :
  Ascii.eqb (canonicalize c) (canonicalize d)
  = Ascii.eqb (toLowerCaseChar c) (toLowerCaseChar d).
Proof.
  assert (H :
    List.forallb
      (fun c =>
         List.forallb
           (fun d =>
              Bool.eqb (Ascii.eqb (canonicalize c) (canonicalize d))
                (Ascii.eqb (toLowerCaseChar c) (toLowerCaseChar d)))
           allAscii)
      allAscii = true) by (vm_compute; reflexivity).
  rewrite forallb_forall in H. specialize (H c (allAscii_complete c)).
  rewrite forallb_forall in H. specialize (H d (allAscii_complete d)).
  apply Bool.eqb_prop in H. exact H.
Qed.

Lemma atomMatches_literal (ic : bool) (c d : ascii) :
  atomMatches ic (Literal c) d = sameCharacter ic c d.
Proof.
  unfold atomMatches, sameCharacter. destruct ic; [| reflexivity].
  apply canonicalize_toLowerCaseChar.
Qed.

(** The terms of a pattern match as the tokens do, with [.] for the
    wildcards. *)
Lemma matchHere_tokens (ic : bool) (ts : list LikeToken) :
  forall atStart s,
    matchHere ic (List.map tokenTerm ts ++ [AssertEnd])%list atStart s
    = likeMatchesRegExp ic ts s.
Proof.
  unfold likeMatchesRegExp.
  induction ts as [| t ts IH]; intros atStart s.
  - destruct s; reflexivity.
  - destruct t as [| | c]; cbn [List.map List.app tokenTerm].
    + revert atStart.
      induction s as [| d s IHs]; intros atStart.
      * cbn. rewrite IH. reflexivity.
      * cbn [matchHere likeMatchesWith]. rewrite IH. f_equal.
        cbn [atomMatches]. f_equal. apply IHs.
    + destruct s as [| d s]; [reflexivity |].
      cbn [matchHere likeMatchesWith atomMatches]. rewrite IH. reflexivity.
    + destruct s as [| d s]; [reflexivity |].
      cbn [matchHere likeMatchesWith]. rewrite IH, atomMatches_literal.
      reflexivity.
Qed.

Lemma test_anchored (ic : bool) (ts : list Term) (s : string) :
  test {| terms := AssertStart :: ts; ignoreCase := ic |} s
  = matchHere ic ts true s.
Proof.
  unfold test. cbn [terms ignoreCase].
  assert (Hfalse : forall s,
    (fix search (atStart : bool) (s : string) {struct s} : bool :=
       matchHere ic (AssertStart :: ts) atStart s
       || match s with
          | EmptyString => false
          | String _ s' => search false s'
          end) false s = false).
  { clear s. induction s as [| d s IHs]; [reflexivity |].
    cbn [matchHere andb orb]. exact IHs. }
  destruct s as [| d s].
  - cbn [matchHere andb]. apply orb_false_r.
  - cbn [matchHere andb]. rewrite Hfalse. apply orb_false_r.
Qed.

Lemma likeTokens_plain (wild : ascii -> bool) (pattern : string) :
  hasWildcard pattern = false ->
  forall lhs,
    (String.eqb lhs pattern = likeMatchesWith wild false (likeTokens pattern) lhs)
    /\ (String.eqb (toLowerCase lhs) (toLowerCase pattern)
        = likeMatchesWith wild true (likeTokens pattern) lhs).
Proof.
  induction pattern as [| c pattern IH]; intros Hw lhs.
  - destruct lhs; split; reflexivity.
  - cbn [hasWildcard] in Hw.
    apply orb_false_elim in Hw as [Hw Hrest].
    apply orb_false_elim in Hw as [Hw Hbs].
    apply orb_false_elim in Hw as [Hund Hpct].
    cbn [likeTokens]. rewrite Hpct, Hund, Hbs.
    destruct lhs as [| d lhs]; [split; reflexivity |].
    destruct (IH Hrest lhs) as [IH1 IH2].
    cbn [likeMatchesWith toLowerCase sameCharacter String.eqb].
    rewrite <- IH1, <- IH2.
    rewrite (Ascii.eqb_sym c d).
    rewrite (Ascii.eqb_sym (toLowerCaseChar c) (toLowerCaseChar d)).
    split; reflexivity.
Qed.

(** What the compiled predicate computes: LIKE matching of the whole input,
    case-folded under [ILIKE], with wildcards that stand for every character
    except the line terminators. *)
Lemma getLikeOp_semantics (pattern : string) (flags : Flags) :
  endsWithDanglingEscape pattern = false ->
  exists f,
    getLikeOp pattern flags = Ok f
    /\ forall lhs,
         f lhs
         = likeMatchesRegExp (caseInsensitive flags) (likeTokens pattern) lhs.
Proof.
  intros Hd. unfold getLikeOp.
  destruct (hasWildcard pattern) eqn:Hw; cbn [negb].
  - rewrite (patternToRegExp_terms _ flags Hd). cbn [bindRes].
    eexists. split; [reflexivity |]. intros lhs. cbv beta.
    rewrite test_anchored. apply matchHere_tokens.
  - destruct flags; eexists; (split; [reflexivity |]); intros lhs; cbv beta;
      apply (likeTokens_plain _ pattern Hw lhs).
Qed.

(** On inputs without line terminators this is LIKE matching as claimed. *)
Lemma likeMatchesRegExp_no_line_terminator (ic : bool)
  (ts : list LikeToken) :
  forall s,
    noLineTerminator s = true ->
    likeMatchesRegExp ic ts s = likeMatches ic ts s.
Proof.
  unfold likeMatchesRegExp, likeMatches.
  induction ts as [| t ts IH]; intros s Hs; [reflexivity |].
  destruct t as [| | c].
  - induction s as [| d s IHs].
    + cbn. rewrite IH by reflexivity. reflexivity.
    + cbn [likeMatchesWith]. rewrite IH by exact Hs.
      cbn [noLineTerminator] in Hs. apply andb_prop in Hs as [Hd Hs'].
      rewrite Hd. cbn [andb]. f_equal. apply IHs, Hs'.
  - destruct s as [| d s]; [reflexivity |].
    cbn [noLineTerminator] in Hs. apply andb_prop in Hs as [Hd Hs'].
    cbn [likeMatchesWith]. rewrite Hd, IH by exact Hs'. reflexivity.
  - destruct s as [| d s]; [reflexivity |].
    cbn [noLineTerminator] in Hs. apply andb_prop in Hs as [Hd Hs'].
    cbn [likeMatchesWith]. rewrite IH by exact Hs'. reflexivity.
Qed.

Lemma likeMatchesWith_exact (wild : ascii -> bool) (t : string) :
  forall s,
    likeMatchesWith wild false (List.map Exactly (list_ascii_of_string t)) s
    = String.eqb s t.
Proof.
  induction t as [| c t IH]; intros s.
  - destruct s; reflexivity.
  - destruct s as [| d s]; [reflexivity |].
    cbn [list_ascii_of_string List.map likeMatchesWith sameCharacter String.eqb].
    rewrite IH, (Ascii.eqb_sym c d). reflexivity.
Qed.

(** The examples of the specification behave as it says. *)
Lemma like_examples :
  (exists f,
      getLikeOp fooPercentBar FlagsNone = Ok f
      /\ forall s, f s = true <-> s = "foo%bar")
  /\ (exists f,
         getLikeOp "f_o%" FlagsNone = Ok f
         /\ f "fXo" = true /\ f "foobar" = true /\ f "fo" = false).
Proof.
  split.
  - destruct (getLikeOp_semantics fooPercentBar FlagsNone eq_refl)
      as [f [Hf Hsem]].
    exists f. split; [exact Hf |]. intros s. rewrite Hsem.
    change (likeTokens fooPercentBar)
      with (List.map Exactly (list_ascii_of_string "foo%bar")).
    unfold likeMatchesRegExp. rewrite likeMatchesWith_exact.
    apply String.eqb_eq.
  - destruct (getLikeOp_semantics "f_o%" FlagsNone eq_refl) as [f [Hf Hsem]].
    exists f. split; [exact Hf |]. rewrite !Hsem.
    repeat split; vm_compute; reflexivity.
Qed.

(** C6 (code defect).  The compiled predicate does not let [_] and [%]
    stand for a line feed: the pattern [f_o%] rejects the three characters
    f, line feed, o, and the pattern [%] rejects a single line feed,
    although LIKE matching as claimed accepts both. *)
Theorem like_wildcards_reject_line_feed :
  (exists f,
      getLikeOp "f_o%" FlagsNone = Ok f
      /\ f ("f" +:+ lineFeed +:+ "o") = false
      /\ likeMatches false (likeTokens "f_o%") ("f" +:+ lineFeed +:+ "o")
         = true)
  /\ (exists f,
         getLikeOp "%" FlagsNone = Ok f
         /\ f lineFeed = false
         /\ likeMatches false (likeTokens "%") lineFeed = true).
Proof.
  split.
  - destruct (getLikeOp_semantics "f_o%" FlagsNone eq_refl) as [f [Hf Hsem]].
    exists f. split; [exact Hf |]. rewrite Hsem.
    split; vm_compute; reflexivity.
  - destruct (getLikeOp_semantics "%" FlagsNone eq_refl) as [f [Hf Hsem]].
    exists f. split; [exact Hf |]. rewrite Hsem.
    split; vm_compute; reflexivity.
Qed.

Lemma getOperator_like_throws (op : SimpleOperator) (field pattern : string) :
  isLikeOperator op = true ->
  isThrow (getOperator (Simple op field (PString pattern)))
  = endsWithDanglingEscape pattern.
Proof.
  intros Hop.
  assert (Hmap : forall g flags,
    isThrow (mapPredicate g (getLikeOpAny (PString pattern) flags))
    = endsWithDanglingEscape pattern).
  { intros g flags. cbn [getLikeOpAny].
    rewrite <- (getLikeOp_throws pattern flags).
    destruct (getLikeOp pattern flags); reflexivity. }
  destruct op; try discriminate Hop; cbn [getOperator]; apply Hmap.
Qed.

(** C7.  Compiling a LIKE, NOT LIKE, ILIKE or NOT ILIKE condition throws
    exactly when the pattern ends with a dangling escape, that is with an
    odd number of backslashes.  The error is the outcome of [getOperator],
    hence of [buildPipeline] for a query that filters on the condition;
    otherwise [getOperator] returns a predicate, which is total. *)
Theorem like_compile_error_iff_dangling_escape (op : SimpleOperator)
  (field pattern : string) :
  isLikeOperator op = true ->
  isThrow (getOperator (Simple op field (PString pattern)))
  = endsWithDanglingEscape pattern
  /\ (forall flags,
        isThrow (getLikeOp pattern flags) = endsWithDanglingEscape pattern)
  /\ (forall provider ast,
        where_ ast = Some (Simple op field (PString pattern)) ->
        endsWithDanglingEscape pattern = true ->
        isThrow (buildPipeline provider ast) = true)
  /\ (endsWithDanglingEscape pattern = false ->
      exists f : string -> bool,
        getOperator (Simple op field (PString pattern))
        = Ok (StringPredicate f)).
Proof.
  intros Hop.
  pose proof (getOperator_like_throws op field pattern Hop) as Hthrow.
  split; [exact Hthrow |].
  split; [intros flags; apply getLikeOp_throws |].
  split.
  - intros provider ast Hw Hd. unfold buildPipeline. rewrite Hw.
    cbn [applyWhere]. unfold applySimpleCondition.
    rewrite Hd in Hthrow.
    destruct (getOperator (Simple op field (PString pattern)));
      [discriminate Hthrow | reflexivity].
  - intros Hd. rewrite Hd in Hthrow.
    destruct op; try discriminate Hop; cbn [getOperator getLikeOpAny] in *;
      unfold mapPredicate in *;
      match goal with
      | |- context [getLikeOp pattern ?fl] =>
          destruct (getLikeOp pattern fl) as [f |]; [| discriminate Hthrow]
      end;
      eexists; reflexivity.
Qed.

(** The pattern [a\] is rejected when the operator is compiled and when the
    pipeline is built; the pattern [a\\] is accepted. *)
Lemma like_compile_error_iff_dangling_escape_witness :
  isThrow (getOperator danglingLike) = true
  /\ isThrow
       (buildPipeline SourceStream
          (aggregateQuery (Some danglingLike) None None)) = true
  /\ exists f : string -> bool,
       getOperator
         (Simple OpILike "title" (PString ("a" +:+ backslash +:+ backslash)))
       = Ok (StringPredicate f).
Proof.
  split; [| split].
  - apply (proj1 (like_compile_error_iff_dangling_escape OpLike "title"
                    ("a" +:+ backslash) eq_refl)).
  - apply (proj1 (proj2 (proj2 (like_compile_error_iff_dangling_escape OpLike
                                  "title" ("a" +:+ backslash) eq_refl)))
             SourceStream (aggregateQuery (Some danglingLike) None None));
      reflexivity.
  - apply (proj2 (proj2 (proj2 (like_compile_error_iff_dangling_escape OpILike
                                  "title" ("a" +:+ backslash +:+ backslash)
                                  eq_refl)))).
    reflexivity.
Defined.

End LikeFacts.

Section StorageKeyFacts.
Import Js JoinOp Characters JoinProperties.

Lemma allChars_impl (P Q : ascii -> bool) (s : string) :
  (forall c, P c = true -> Q c = true) ->
  allChars P s = true -> allChars Q s = true.
Proof.
  intros HPQ. induction s as [| c s IH]; simpl; [reflexivity |].
  intros H. apply andb_prop in H as [Hc Hs]. rewrite (HPQ c Hc). auto.
Qed.

Lemma decimalChar_plain (c : ascii) : decimalChar c = true -> plainChar c = true.
Proof.
  assert (H :
    List.forallb (fun c => implb (decimalChar c) (plainChar c)) allAscii = true)
    by (vm_compute; reflexivity).
  rewrite forallb_forall in H. specialize (H c (allAscii_complete c)).
  intros Hd. rewrite Hd in H. exact H.
Qed.

Lemma string_of_uint_decimal (u : Decimal.uint) :
  allChars decimalChar (NilEmpty.string_of_uint u) = true.
Proof. induction u; simpl; auto. Qed.

Lemma numberToString_decimal (z : Z) :
  allChars decimalChar (numberToString (Int z)) = true.
Proof.
  unfold numberToString, NilZero.string_of_int.
  destruct (Z.to_int z) as [u | u]; cbn [allChars]; cbn [decimalChar];
    destruct u; try reflexivity; apply (string_of_uint_decimal (_ u)).
Qed.

Lemma numberToString_inj (z z' : Z) :
  numberToString (Int z) = numberToString (Int z') -> z = z'.
Proof.
  unfold numberToString. intros H.
  assert (Hnon : forall z, Z.to_int z <> Decimal.Pos Decimal.Nil
                           /\ Z.to_int z <> Decimal.Neg Decimal.Nil).
  { intros [| p | p]; simpl; split; try discriminate;
      intros Heq; injection Heq as Heq;
      exact (Unsigned.to_uint_nonnil p Heq). }
  apply to_int_inj.
  assert (Hs : Some (Z.to_int z) = Some (Z.to_int z')).
  { rewrite <- (NilZero.isi (Z.to_int z)) by apply Hnon.
    rewrite <- (NilZero.isi (Z.to_int z')) by apply Hnon.
    now rewrite H. }
  now injection Hs.
Qed.

Lemma plain_terminated (a b x y : string) :
  allChars plainChar a = true -> allChars plainChar b = true ->
  a +:+ String "," x = b +:+ String "," y -> a = b.
Proof.
  revert b. induction a as [| c a IH]; intros [| d b] Ha Hb H.
  - reflexivity.
  - rewrite str_append_nil_l, str_append_cons in H. injection H as Hc _.
    subst d. simpl in Hb. discriminate Hb.
  - rewrite str_append_nil_l, str_append_cons in H. injection H as Hc _.
    subst c. simpl in Ha. discriminate Ha.
  - rewrite !str_append_cons in H. injection H as -> H.
    simpl in Ha, Hb. apply andb_prop in Ha as [_ Ha].
    apply andb_prop in Hb as [_ Hb]. f_equal. eapply IH; eauto.
Qed.

Lemma plain_not_quoted (a x y : string) :
  allChars plainChar a = true ->
  a +:+ String "," x <> String dquoteChar y.
Proof.
  intros Ha H. destruct a as [| c a].
  - rewrite str_append_nil_l in H. discriminate H.
  - rewrite str_append_cons in H. injection H as -> _.
    simpl in Ha. discriminate Ha.
Qed.

Lemma append_comparable (a b x y : string) :
  a +:+ x = b +:+ y -> comparable a b = true.
Proof.
  unfold comparable. revert b. induction a as [| c a IH]; intros b H.
  - destruct b; reflexivity.
  - destruct b as [| d b].
    + reflexivity.
    + rewrite !str_append_cons in H. injection H as -> H.
      simpl. destruct (ascii_dec d d) as [_ | Hne]; [| now destruct Hne].
      apply IH, H.
Qed.

(** The escapes of two different characters never start one another, and
    none starts with a double quote. *)
Lemma jsonEscapeChar_code (c d : ascii) :
  comparable (jsonEscapeChar c) (jsonEscapeChar d) = true -> c = d.
Proof.
  assert (H :
    List.forallb
      (fun c =>
         List.forallb
           (fun d =>
              implb (comparable (jsonEscapeChar c) (jsonEscapeChar d))
                (Ascii.eqb c d))
           allAscii)
      allAscii = true) by (vm_compute; reflexivity).
  rewrite forallb_forall in H. specialize (H c (allAscii_complete c)).
  rewrite forallb_forall in H. specialize (H d (allAscii_complete d)).
  intros Hc. rewrite Hc in H. apply Ascii.eqb_eq, H.
Qed.

Lemma jsonEscapeChar_head (c : ascii) :
  headIsNot dquoteChar (jsonEscapeChar c) = true.
Proof.
  assert (H :
    List.forallb (fun c => headIsNot dquoteChar (jsonEscapeChar c)) allAscii
    = true) by (vm_compute; reflexivity).
  rewrite forallb_forall in H. exact (H c (allAscii_complete c)).
Qed.

Lemma headIsNot_append (h : ascii) (a x y : string) :
  headIsNot h a = true -> a +:+ x <> String h y.
Proof.
  intros Ha H. destruct a as [| c a]; [discriminate Ha |].
  rewrite str_append_cons in H. injection H as -> _.
  simpl in Ha. rewrite Ascii.eqb_refl in Ha. discriminate Ha.
Qed.

(** A quoted string ends at its closing quote. *)
Lemma jsonEscape_terminated (s s' x y : string) :
  jsonEscape s +:+ String dquoteChar x = jsonEscape s' +:+ String dquoteChar y ->
  s = s'.
Proof.
  revert s'. induction s as [| c s IH]; intros [| c' s'] H.
  - reflexivity.
  - exfalso. cbn [jsonEscape] in H.
    rewrite str_append_nil_l, str_append_assoc in H. symmetry in H.
    exact (headIsNot_append _ _ _ _ (jsonEscapeChar_head c') H).
  - exfalso. cbn [jsonEscape] in H.
    rewrite str_append_nil_l, str_append_assoc in H.
    exact (headIsNot_append _ _ _ _ (jsonEscapeChar_head c) H).
  - cbn [jsonEscape] in H. rewrite !str_append_assoc in H.
    pose proof (jsonEscapeChar_code _ _ (append_comparable _ _ _ _ H)) as Hc.
    subst c'. apply str_append_cancel_l in H. f_equal. apply IH, H.
Qed.

Lemma jsonValue_plain (v : NormalizedValue) :
  finiteValue v = true -> isString v = false ->
  allChars plainChar (jsonValue v) = true.
Proof.
  destruct v as [| [|] | [z | | |] | s]; try discriminate; try reflexivity.
  intros _ _. cbn [jsonValue jsonNumber].
  apply (allChars_impl decimalChar); [apply decimalChar_plain |].
  apply numberToString_decimal.
Qed.

Lemma jsonValue_plain_inj (v v' : NormalizedValue) :
  finiteValue v = true -> finiteValue v' = true ->
  isString v = false -> isString v' = false ->
  jsonValue v = jsonValue v' -> v = v'.
Proof.
  assert (Hnot : forall z s,
    allChars decimalChar s = false -> numberToString (Int z) <> s).
  { intros z s Hs H. rewrite <- H, numberToString_decimal in Hs.
    discriminate Hs. }
  destruct v as [| [|] | [z | | |] | s];
    destruct v' as [| [|] | [z' | | |] | s'];
    try discriminate; try reflexivity; cbn [jsonValue jsonNumber];
    intros _ _ _ _ H;
    try (exfalso; revert H; apply Hnot; reflexivity);
    try (exfalso; symmetry in H; revert H; apply Hnot; reflexivity).
  apply numberToString_inj in H. now subst.
Qed.

(** Two serialised values, each followed by a comma, start the same text
    only when the values are equal. *)
Lemma jsonValue_terminated (v v' : NormalizedValue) (x y : string) :
  finiteValue v = true -> finiteValue v' = true ->
  jsonValue v +:+ String "," x = jsonValue v' +:+ String "," y -> v = v'.
Proof.
  intros Hv Hv' H.
  destruct (isString v) eqn:Sv; destruct (isString v') eqn:Sv'.
  - destruct v as [| | | s]; try discriminate Sv.
    destruct v' as [| | | s']; try discriminate Sv'.
    cbn [jsonValue] in H. unfold quoteJSONString, dquote in H.
    rewrite !str_append_cons, !str_append_nil_l in H. injection H as H.
    rewrite !str_append_assoc, !str_append_cons, !str_append_nil_l in H.
    f_equal. eapply jsonEscape_terminated, H.
  - exfalso. destruct v as [| | | s]; try discriminate Sv.
    cbn [jsonValue] in H. unfold quoteJSONString, dquote in H.
    rewrite !str_append_cons, !str_append_nil_l in H. symmetry in H.
    exact (plain_not_quoted _ _ _ (jsonValue_plain v' Hv' Sv') H).
  - exfalso. destruct v' as [| | | s']; try discriminate Sv'.
    cbn [jsonValue] in H. unfold quoteJSONString, dquote in H.
    rewrite !str_append_cons, !str_append_nil_l in H.
    exact (plain_not_quoted _ _ _ (jsonValue_plain v Hv Sv) H).
  - apply jsonValue_plain_inj; auto.
    eapply plain_terminated; [| | exact H]; apply jsonValue_plain; auto.
Qed.

Lemma createPrimaryKeySetStorageKeyPrefix_unfold (v : NormalizedValue) :
  createPrimaryKeySetStorageKeyPrefix v
  = (quoteJSONString "pKeySet" +:+ ",") +:+ (jsonValue v +:+ ",").
Proof.
  unfold createPrimaryKeySetStorageKeyPrefix.
  rewrite createPrimaryKeySetStorageKey_unfold.
  change (String.concat "," (quoteJSONString "pKeySet" :: List.map jsonValue [v]))
    with (quoteJSONString "pKeySet" +:+ "," +:+ jsonValue v).
  now rewrite !str_append_assoc.
Qed.

(** C10 as stated fails: [NaN] and [null] are distinct normalized values
    with the same prefix, because [JSON.stringify] writes [null] for a
    non-finite number. *)
Lemma prefix_collision_non_finite :
  VNumber NaN <> VNull
  /\ createPrimaryKeySetStorageKeyPrefix (VNumber NaN)
     = createPrimaryKeySetStorageKeyPrefix VNull
  /\ String.prefix (createPrimaryKeySetStorageKeyPrefix (VNumber NaN))
       (createPrimaryKeySetStorageKey [VNull; VString "i1"]) = true.
Proof. repeat split. discriminate. Qed.

(** C10 (amended).  The prefix of a join value starts the key of every
    parent with that join value.  For two different join values, neither a
    non-finite number, the prefix of one starts no key built for the other;
    so among the keys of parents with such join values the scan of a prefix
    selects exactly the stored keys of its own join value. *)
Theorem storage_key_prefix_selects_own_value :
  (forall v primaryKey,
      String.prefix (createPrimaryKeySetStorageKeyPrefix v)
        (createPrimaryKeySetStorageKey (v :: primaryKey)) = true)
  /\ (forall v v' primaryKey',
        finiteValue v = true -> finiteValue v' = true -> v <> v' ->
        String.prefix (createPrimaryKeySetStorageKeyPrefix v)
          (createPrimaryKeySetStorageKey (v' :: primaryKey')) = false)
  /\ (forall (st : Storage) v v' primaryKey' b,
        finiteValue v = true -> finiteValue v' = true ->
        In (createPrimaryKeySetStorageKey (v' :: primaryKey'), b)
          (storage_scan (createPrimaryKeySetStorageKeyPrefix v) st)
        <-> st !! createPrimaryKeySetStorageKey (v' :: primaryKey') = Some b
            /\ v' = v).
Proof.
  assert (Hdistinct : forall v v' primaryKey',
    finiteValue v = true -> finiteValue v' = true ->
    String.prefix (createPrimaryKeySetStorageKeyPrefix v)
      (createPrimaryKeySetStorageKey (v' :: primaryKey')) = true ->
    v = v').
  { intros v v' primaryKey' Hv Hv' H.
    rewrite createPrimaryKeySetStorageKey_cons in H.
    rewrite !createPrimaryKeySetStorageKeyPrefix_unfold in H.
    rewrite (str_append_assoc (quoteJSONString "pKeySet" +:+ ",")) in H.
    rewrite str_prefix_append_cancel in H.
    apply str_prefix_inv in H as [t H].
    rewrite !str_append_assoc in H.
    change ("," +:+ keyTail primaryKey') with (String "," (keyTail primaryKey')) in H.
    change ("," +:+ t) with (String "," t) in H.
    symmetry. eapply jsonValue_terminated; eauto. }
  split; [exact prefix_of_own_key |]. split.
  - intros v v' primaryKey' Hv Hv' Hne.
    destruct (String.prefix _ _) eqn:Hp; [| reflexivity].
    exfalso. apply Hne. eapply Hdistinct; eauto.
  - intros st v v' primaryKey' b Hv Hv'. rewrite storage_scan_spec. split.
    + intros [Hst Hp]. split; [exact Hst |].
      symmetry. eapply Hdistinct; eauto.
    + intros [Hst ->]. split; [exact Hst | apply prefix_of_own_key].
Qed.

(** The join values [u1] and [u2]: the prefix of the first starts the key of
    no parent of the second. *)
Lemma storage_key_prefix_selects_own_value_witness :
  String.prefix (createPrimaryKeySetStorageKeyPrefix (VString "u1"))
    (createPrimaryKeySetStorageKey [VString "u2"; VString "i1"]) = false.
Proof.
  apply (proj1 (proj2 storage_key_prefix_selects_own_value)
           (VString "u1") (VString "u2") [VString "i1"]).
  - reflexivity.
  - reflexivity.
  - discriminate.
Defined.

End StorageKeyFacts.

Section CleanupMode.
Import Js JoinOp Characters JoinProperties.





End CleanupMode.

(** *** The comparisons are total orders *)

Section LexFacts.
Import Js Ast AstProperties.
Context {A : Type} (f : A -> A -> Z).

Lemma lexCompare_cons (x y : A) (la lb : list A) :
  lexCompare f (x :: la) (y :: lb)
  = if f x y =? 0 then lexCompare f la lb else f x y.
Proof.
  unfold lexCompare. cbn [firstDifference List.length].
  destruct (f x y =? 0); [| reflexivity].
  destruct (firstDifference f la lb); [reflexivity | lia].
Qed.

Lemma lexCompare_nil_l (lb : list A) :
  lexCompare f [] lb = - Z.of_nat (List.length lb).
Proof. unfold lexCompare. simpl. lia. Qed.

Lemma lexCompare_nil_r (la : list A) :
  lexCompare f la [] = Z.of_nat (List.length la).
Proof. unfold lexCompare. destruct la; simpl; lia. Qed.

Lemma lexCompare_neg (la lb : list A) :
  Forall (fun x => forall y, f y x = - f x y) la ->
  lexCompare f lb la = - lexCompare f la lb.
Proof.
  revert lb. induction la as [| x la IH]; intros lb H.
  - rewrite lexCompare_nil_l, lexCompare_nil_r. lia.
  - apply Forall_cons in H as [Hx H]. destruct lb as [| y lb].
    + rewrite lexCompare_nil_l, lexCompare_nil_r. lia.
    + rewrite !lexCompare_cons, (Hx y), (IH lb H).
      destruct (Z.eqb_spec (f x y) 0), (Z.eqb_spec (- f x y) 0); lia.
Qed.

Lemma lexCompare_zero (D : A -> Prop) (la lb : list A) :
  Forall (fun x => forall y, D y -> f x y = 0 -> x = y) la ->
  Forall D lb ->
  lexCompare f la lb = 0 -> la = lb.
Proof.
  revert lb. induction la as [| x la IH]; intros lb H Dlb Hz.
  - destruct lb; [reflexivity |].
    rewrite lexCompare_nil_l in Hz. simpl in Hz. lia.
  - apply Forall_cons in H as [Hx H]. destruct lb as [| y lb].
    + rewrite lexCompare_nil_r in Hz. simpl in Hz. lia.
    + apply Forall_cons in Dlb as [Dy Dlb]. rewrite lexCompare_cons in Hz.
      destruct (Z.eqb_spec (f x y) 0) as [E | N]; [| contradiction].
      rewrite (Hx y Dy E). f_equal. apply IH; auto.
Qed.

Lemma lexCompare_trans (D : A -> Prop) (la lb lc : list A) :
  (forall y z, D y -> D z -> f y z = 0 -> y = z) ->
  Forall
    (fun x =>
       (forall y, D y -> f x y = 0 -> x = y)
       /\ (forall y z, D y -> D z -> f x y < 0 -> f y z < 0 -> f x z < 0))
    la ->
  Forall D lb -> Forall D lc ->
  lexCompare f la lb < 0 -> lexCompare f lb lc < 0 -> lexCompare f la lc < 0.
Proof.
  intros Hzero. revert lb lc.
  induction la as [| x la IH]; intros lb lc H Dlb Dlc Hab Hbc.
  - rewrite lexCompare_nil_l in *. destruct lb as [| y lb]; [simpl in Hab; lia |].
    destruct lc as [| z lc]; [| simpl; lia].
    rewrite lexCompare_nil_r in Hbc. simpl in Hbc. lia.
  - apply Forall_cons in H as [[Hx0 Hxt] H].
    destruct lb as [| y lb]; [rewrite lexCompare_nil_r in Hab; simpl in Hab; lia |].
    destruct lc as [| z lc]; [rewrite lexCompare_nil_r in Hbc; simpl in Hbc; lia |].
    apply Forall_cons in Dlb as [Dy Dlb]. apply Forall_cons in Dlc as [Dz Dlc].
    rewrite lexCompare_cons in *. revert Hab Hbc.
    destruct (Z.eqb_spec (f x y) 0) as [Exy | Nxy];
      destruct (Z.eqb_spec (f y z) 0) as [Eyz | Nyz]; intros Hab Hbc.
    + pose proof (Hx0 y Dy Exy) as Hxy. subst y.
      pose proof (Hzero x z Dy Dz Eyz) as Hyz. subst z.
      rewrite Exy. simpl. exact (IH lb lc H Dlb Dlc Hab Hbc).
    + pose proof (Hx0 y Dy Exy) as Hxy. subst y.
      destruct (Z.eqb_spec (f x z) 0); [contradiction | exact Hbc].
    + pose proof (Hzero y z Dy Dz Eyz) as Hyz. subst z.
      destruct (Z.eqb_spec (f x y) 0); [contradiction | exact Hab].
    + pose proof (Hxt y z Dy Dz Hab Hbc) as Hxz.
      destruct (Z.eqb_spec (f x z) 0); [lia | exact Hxz].
Qed.

End LexFacts.

Section CompareUTF8Facts.
Import Js Ast AstProperties.

Lemma length_list_ascii_of_string (s : string) :
  List.length (list_ascii_of_string s) = String.length s.
Proof. induction s as [| c s IH]; simpl; [reflexivity | now rewrite IH]. Qed.

Lemma compareUTF8_lexCompare (a b : string) :
  compareUTF8 a b
  = lexCompare (fun x y => code x - code y)
      (list_ascii_of_string a) (list_ascii_of_string b).
Proof.
  unfold compareUTF8, lexCompare. now rewrite !length_list_ascii_of_string.
Qed.

Lemma code_inj (x y : ascii) : code x - code y = 0 -> x = y.
Proof.
  unfold code. intros H.
  assert (Hn : N_of_ascii x = N_of_ascii y) by lia.
  rewrite <- (ascii_N_embedding x), <- (ascii_N_embedding y). now rewrite Hn.
Qed.

Lemma compareUTF8_neg (a b : string) : compareUTF8 b a = - compareUTF8 a b.
Proof.
  rewrite !compareUTF8_lexCompare. apply lexCompare_neg.
  apply Forall_forall. intros x _ y. lia.
Qed.

Lemma compareUTF8_zero (a b : string) : compareUTF8 a b = 0 -> a = b.
Proof.
  rewrite compareUTF8_lexCompare. intros H.
  apply (lexCompare_zero _ (fun _ => True)) in H.
  - rewrite <- (string_of_list_ascii_of_string a),
      <- (string_of_list_ascii_of_string b). now rewrite H.
  - apply Forall_forall. intros x _ y _. apply code_inj.
  - apply Forall_forall. auto.
Qed.

Lemma compareUTF8_refl (a : string) : compareUTF8 a a = 0.
Proof. pose proof (compareUTF8_neg a a). lia. Qed.

Lemma compareUTF8_trans (a b c : string) :
  compareUTF8 a b < 0 -> compareUTF8 b c < 0 -> compareUTF8 a c < 0.
Proof.
  rewrite !compareUTF8_lexCompare.
  apply (lexCompare_trans _ (fun _ => True)).
  - intros y z _ _. apply code_inj.
  - apply Forall_forall. intros x _. split.
    + intros y _. apply code_inj.
    + intros y z _ _. lia.
  - apply Forall_forall. auto.
  - apply Forall_forall. auto.
Qed.

End CompareUTF8Facts.

Section CmpFacts.
Import Js Ast AstProperties.

Lemma simpleOperatorName_inj (a b : SimpleOperator) :
  simpleOperatorName a = simpleOperatorName b -> a = b.
Proof. destruct a, b; simpl; intros H; try reflexivity; discriminate H. Qed.

Lemma conjunctionOpName_inj (a b : ConjunctionOp) :
  conjunctionOpName a = conjunctionOpName b -> a = b.
Proof. destruct a, b; simpl; intros H; try reflexivity; discriminate H. Qed.

Lemma cmp_simple opa fa va opb fb vb :
  cmp (Simple opa fa va) (Simple opb fb vb)
  = lexCompare compareUTF8 (simpleKey opa fa va) (simpleKey opb fb vb).
Proof.
  cbn [cmp]. unfold simpleKey, orElse. rewrite !lexCompare_cons.
  destruct (compareUTF8 fa fb =? 0); [| reflexivity].
  destruct (compareUTF8 (simpleOperatorName opa) (simpleOperatorName opb) =? 0);
    [| reflexivity].
  destruct (Z.eqb_spec (compareUTF8 (String_ va) (String_ vb)) 0) as [E | N];
    [rewrite E |]; reflexivity.
Qed.

Lemma cmp_conjunction opa la opb lb :
  cmp (Conjunction opa la) (Conjunction opb lb)
  = if compareUTF8 (conjunctionOpName opa) (conjunctionOpName opb) =? 0
    then lexCompare cmp la lb
    else compareUTF8 (conjunctionOpName opa) (conjunctionOpName opb).
Proof.
  cbn [cmp]. unfold lexCompare.
  destruct (compareUTF8 (conjunctionOpName opa) (conjunctionOpName opb) =? 0);
    reflexivity.
Qed.

Lemma cmp_neg (a : Condition) : forall b, cmp b a = - cmp a b.
Proof.
  induction a as [opa fa va | opa la IH] using Condition_nested_ind;
    intros [opb fb vb | opb lb]; try reflexivity.
  - rewrite !cmp_simple. apply lexCompare_neg.
    apply Forall_forall. intros x _ y. apply compareUTF8_neg.
  - rewrite !cmp_conjunction.
    rewrite (compareUTF8_neg (conjunctionOpName opa) (conjunctionOpName opb)).
    rewrite (lexCompare_neg cmp la lb IH).
    destruct (Z.eqb_spec
                (compareUTF8 (conjunctionOpName opa) (conjunctionOpName opb)) 0),
      (Z.eqb_spec
         (- compareUTF8 (conjunctionOpName opa) (conjunctionOpName opb)) 0);
      lia.
Qed.

(** From here on the simple conditions are taken from a list [L] in which
    [cmp] tells different simple conditions apart. *)
Variable L : list (SimpleOperator * string * Primitive).
Hypothesis L_inj :
  forall op f v w,
    In (op, f, v) L -> In (op, f, w) L -> String_ v = String_ w -> v = w.

Lemma within_child op conds c :
  within L (Conjunction op conds) -> In c conds -> within L c.
Proof.
  intros H Hc v Hv. apply H. simpl. apply in_flat_map. eauto.
Qed.

Lemma within_children op conds :
  within L (Conjunction op conds) -> Forall (within L) conds.
Proof.
  intros H. apply Forall_forall. intros c Hc.
  apply (within_child op conds); [exact H |]. now apply list_elem_of_In.
Qed.

Lemma cmp_zero (a : Condition) :
  forall b, within L a -> within L b -> cmp a b = 0 -> a = b.
Proof.
  induction a as [opa fa va | opa la IH] using Condition_nested_ind;
    intros [opb fb vb | opb lb] Da Db H; try discriminate H.
  - rewrite cmp_simple in H.
    apply (lexCompare_zero _ (fun _ => True)) in H.
    + unfold simpleKey in H. injection H as Hf Hop Hv. subst fb.
      apply simpleOperatorName_inj in Hop. subst opb.
      f_equal. apply (L_inj opa fa); [apply Da | apply Db | exact Hv];
        simpl; auto.
    + apply Forall_forall. intros x _ y _. apply compareUTF8_zero.
    + apply Forall_forall. auto.
  - rewrite cmp_conjunction in H.
    destruct (Z.eqb_spec
                (compareUTF8 (conjunctionOpName opa) (conjunctionOpName opb)) 0)
      as [E | N]; [| contradiction].
    apply compareUTF8_zero, conjunctionOpName_inj in E. subst opb.
    f_equal. apply (lexCompare_zero _ (within L)) in H; [exact H | |].
    + pose proof (within_children _ _ Da) as Dla.
      rewrite Forall_forall in IH, Dla |- *.
      intros x Hx y Dy. apply IH; auto.
    + apply (within_children _ _ Db).
Qed.

Lemma cmp_trans (a : Condition) :
  forall b c, within L a -> within L b -> within L c ->
    cmp a b < 0 -> cmp b c < 0 -> cmp a c < 0.
Proof.
  induction a as [opa fa va | opa la IH] using Condition_nested_ind;
    intros [opb fb vb | opb lb] [opc fc vc | opc lc] Da Db Dc Hab Hbc;
    try reflexivity; try discriminate Hab; try discriminate Hbc.
  - rewrite !cmp_simple in *.
    revert Hab Hbc. apply (lexCompare_trans _ (fun _ => True)).
    + intros y z _ _. apply compareUTF8_zero.
    + apply Forall_forall. intros x _. split.
      * intros y _. apply compareUTF8_zero.
      * intros y z _ _. apply compareUTF8_trans.
    + apply Forall_forall. auto.
    + apply Forall_forall. auto.
  - rewrite !cmp_conjunction in *. revert Hab Hbc.
    destruct (Z.eqb_spec
                (compareUTF8 (conjunctionOpName opa) (conjunctionOpName opb)) 0)
      as [Eab | Nab];
      destruct (Z.eqb_spec
                  (compareUTF8 (conjunctionOpName opb) (conjunctionOpName opc)) 0)
        as [Ebc | Nbc]; intros Hab Hbc.
    + apply compareUTF8_zero, conjunctionOpName_inj in Eab.
      apply compareUTF8_zero, conjunctionOpName_inj in Ebc. subst opb opc.
      rewrite compareUTF8_refl. simpl.
      revert Hab Hbc. apply (lexCompare_trans _ (within L)).
      * intros y z Dy Dz. now apply cmp_zero.
      * pose proof (within_children _ _ Da) as Dla.
        rewrite Forall_forall in IH, Dla |- *. intros x Hx. split.
        -- intros y Dy. apply cmp_zero; auto.
        -- intros y z Dy Dz. apply IH; auto.
      * apply (within_children _ _ Db).
      * apply (within_children _ _ Dc).
    + apply compareUTF8_zero, conjunctionOpName_inj in Eab. subst opb.
      destruct (Z.eqb_spec
                  (compareUTF8 (conjunctionOpName opa) (conjunctionOpName opc)) 0);
        [contradiction | exact Hbc].
    + apply compareUTF8_zero, conjunctionOpName_inj in Ebc. subst opc.
      destruct (Z.eqb_spec
                  (compareUTF8 (conjunctionOpName opa) (conjunctionOpName opb)) 0);
        [contradiction | exact Hab].
    + pose proof (compareUTF8_trans _ _ _ Hab Hbc) as Hac.
      destruct (Z.eqb_spec
                  (compareUTF8 (conjunctionOpName opa) (conjunctionOpName opc)) 0);
        [lia | exact Hac].
Qed.

End CmpFacts.

(** *** The normalized form of a WHERE clause *)

Section NormalizeFacts.
Import Js Ast AstProperties.

Lemma defined_app {A : Type} (l1 l2 : list (option A)) :
  defined (l1 ++ l2) = (defined l1 ++ defined l2)%list.
Proof. unfold defined. apply flat_map_app. Qed.

Lemma defined_flat_map {A B : Type} (g : B -> list (option A)) (l : list B) :
  defined (List.flat_map g l) = List.flat_map (fun x => defined (g x)) l.
Proof.
  induction l as [| x l IH]; [reflexivity |].
  cbn [List.flat_map]. now rewrite defined_app, IH.
Qed.

Lemma map_defined {A B : Type} (f : A -> B) (l : list (option A)) :
  List.map f (defined l) = defined (List.map (option_map f) l).
Proof.
  induction l as [| [a |] l IH]; [reflexivity | |]; simpl in *; now rewrite ?IH.
Qed.

Lemma map_flat_map {A B C : Type} (f : B -> C) (g : A -> list B) (l : list A) :
  List.map f (List.flat_map g l) = List.flat_map (fun x => List.map f (g x)) l.
Proof.
  induction l as [| x l IH]; [reflexivity |].
  cbn [List.flat_map]. now rewrite List.map_app, IH.
Qed.

Lemma In_defined {A : Type} (x : A) (l : list (option A)) :
  In x (defined l) <-> In (Some x) l.
Proof.
  unfold defined. rewrite in_flat_map. split.
  - intros [[a |] [Hin Hx]]; simpl in Hx; [| contradiction].
    destruct Hx as [-> | []]. exact Hin.
  - intros Hin. exists (Some x). split; [exact Hin | now left].
Qed.

Lemma flattenedCondition_conjunction op conds :
  flattenedCondition (Conjunction op conds)
  = packConditions op (defined (List.flat_map (flatMapCallback op) conds)).
Proof. reflexivity. Qed.

Lemma sorted_packConditions op (l : list Condition) :
  option_map sorted (packConditions op l)
  = packConditions op (sort cmp (List.map sorted l)).
Proof.
  destruct l as [| c1 [| c2 l]]; [reflexivity | reflexivity |].
  cbn [packConditions option_map sorted].
  pose proof (length_sort cmp (List.map sorted (c1 :: c2 :: l))) as Hlen.
  destruct (sort cmp (List.map sorted (c1 :: c2 :: l))) as [| d1 [| d2 l']];
    try discriminate Hlen.
  reflexivity.
Qed.

Lemma normalizedCondition_conjunction op conds :
  normalizedCondition (Conjunction op conds)
  = packConditions op (sort cmp (List.flat_map (sortedItems op) conds)).
Proof.
  unfold normalizedCondition.
  rewrite flattenedCondition_conjunction, sorted_packConditions.
  rewrite defined_flat_map, map_flat_map. reflexivity.
Qed.

Lemma sortedItems_spec op (c : Condition) :
  sortedItems op c
  = if hasOp op c then normalizedChildren c
    else defined [normalizedCondition c].
Proof.
  unfold sortedItems, normalizedChildren. rewrite map_defined.
  destruct c as [o f v | op' conds']; [reflexivity |].
  cbn [flatMapCallback hasOp children].
  destruct (conjunctionOpEqb op' op); [| reflexivity].
  now rewrite List.map_map.
Qed.

Lemma flat_map_defined {A B : Type} (f : A -> list B) (l : list (option A)) :
  List.flat_map f (defined l)
  = List.flat_map
      (fun o => match o with Some a => f a | None => [] end) l.
Proof.
  induction l as [| o l IH]; [reflexivity |].
  unfold defined in *. cbn [flat_map]. rewrite flat_map_app, IH.
  destruct o; cbn [flat_map]; [now rewrite app_nil_r | reflexivity].
Qed.

Lemma flat_map_flat_map {A B C : Type} (f : B -> list C) (g : A -> list B)
  (l : list A) :
  List.flat_map f (List.flat_map g l)
  = List.flat_map (fun x => List.flat_map f (g x)) l.
Proof.
  induction l as [| x l IH]; [reflexivity |].
  cbn [flat_map]. now rewrite flat_map_app, IH.
Qed.

Lemma flat_map_map {A B C : Type} (f : B -> list C) (g : A -> B)
  (l : list A) :
  List.flat_map f (List.map g l) = List.flat_map (fun x => f (g x)) l.
Proof.
  induction l as [| x l IH]; [reflexivity |].
  cbn [List.map flat_map]. now rewrite IH.
Qed.

Lemma flat_map_pointwise {A B : Type} (R : list B -> list B -> Prop)
  (f g : A -> list B) (l : list A) :
  R [] [] ->
  (forall a b c d, R a b -> R c d -> R (a ++ c)%list (b ++ d)%list) ->
  (forall x, In x l -> R (f x) (g x)) ->
  R (List.flat_map f l) (List.flat_map g l).
Proof.
  intros Hnil Happ. induction l as [| x l IH]; intros H; [exact Hnil |].
  cbn [flat_map]. apply Happ.
  - apply H. now left.
  - apply IH. intros y Hy. apply H. now right.
Qed.

Lemma simpleConditions_packConditions op (l : list Condition) :
  simpleConditionsOf (packConditions op l) = List.flat_map simpleConditions l.
Proof.
  destruct l as [| c1 [| c2 l]]; try reflexivity.
  cbn [packConditions simpleConditionsOf flat_map]. now rewrite app_nil_r.
Qed.

(** [flattened] keeps the simple conditions of a tree, in their order. *)
Lemma simpleConditions_flattened_both (c : Condition) :
  let Q (c : Condition) :=
    simpleConditionsOf (flattenedCondition c) = simpleConditions c in
  Q c /\ Forall Q (children c).
Proof.
  intros Q.
  induction c as [o f v | op conds IH] using Condition_nested_ind.
  - split; [reflexivity | constructor].
  - assert (HQ : Forall Q conds).
    { eapply Forall_impl; [exact IH |]. intros c [H _]. exact H. }
    split; [| exact HQ]. unfold Q.
    rewrite flattenedCondition_conjunction, simpleConditions_packConditions.
    rewrite flat_map_defined, flat_map_flat_map.
    cbn [simpleConditions].
    apply (flat_map_pointwise eq); [reflexivity | congruence |].
    intros ci Hci. rewrite Forall_forall in IH.
    apply list_elem_of_In in Hci. destruct (IH ci Hci) as [Hself Hgrand].
    assert (Hone :
      List.flat_map
        (fun o : option Condition =>
           match o with Some a => simpleConditions a | None => [] end)
        [flattenedCondition ci]
      = simpleConditions ci).
    { cbn [flat_map]. rewrite app_nil_r. exact Hself. }
    destruct ci as [o f v | op' conds']; [exact Hone |].
    cbn [flatMapCallback]. destruct (conjunctionOpEqb op' op); [| exact Hone].
    rewrite flat_map_map. cbn [simpleConditions].
    apply (flat_map_pointwise eq); [reflexivity | congruence |].
    intros g Hg. cbn [children] in Hgrand. rewrite Forall_forall in Hgrand.
    apply list_elem_of_In in Hg. exact (Hgrand g Hg).
Qed.

Lemma simpleConditions_sorted (c : Condition) :
  Permutation (simpleConditions (sorted c)) (simpleConditions c).
Proof.
  induction c as [o f v | op conds IH] using Condition_nested_ind;
    [reflexivity |].
  cbn [sorted simpleConditions].
  etransitivity.
  { apply Permutation_flat_map, Permutation_sym, sort_is_Permutation. }
  rewrite flat_map_map.
  apply (flat_map_pointwise (@Permutation _));
    [constructor | intros; now apply Permutation_app |].
  intros x Hx. rewrite Forall_forall in IH. apply IH.
  now apply list_elem_of_In.
Qed.

Lemma simpleConditions_flattened (c c' : Condition) :
  flattenedCondition c = Some c' ->
  simpleConditions c' = simpleConditions c.
Proof.
  intros H. rewrite <- (proj1 (simpleConditions_flattened_both c)).
  now rewrite H.
Qed.

Lemma simpleConditions_normalized (c c' : Condition) :
  normalizedCondition c = Some c' ->
  Permutation (simpleConditions c') (simpleConditions c).
Proof.
  unfold normalizedCondition. intros H.
  destruct (flattenedCondition c) as [x |] eqn:Hx; [| discriminate H].
  injection H as <-. rewrite <- (simpleConditions_flattened c x Hx).
  apply simpleConditions_sorted.
Qed.

Lemma simpleConditions_sortedItems op (c x : Condition) :
  In x (sortedItems op c) ->
  forall leaf, In leaf (simpleConditions x) -> In leaf (simpleConditions c).
Proof.
  rewrite sortedItems_spec. intros Hx leaf Hleaf.
  destruct (hasOp op c).
  - unfold normalizedChildren in Hx.
    apply In_defined, in_map_iff in Hx as [g [Hg Hin]].
    destruct c as [o f w | op' conds']; [contradiction |].
    cbn [children] in Hin. cbn [simpleConditions]. apply in_flat_map.
    exists g. split; [exact Hin |].
    exact (Permutation_in _ (simpleConditions_normalized g x Hg) Hleaf).
  - apply In_defined in Hx. destruct Hx as [Hx | []].
    exact (Permutation_in _ (simpleConditions_normalized c x Hx) Hleaf).
Qed.

End NormalizeFacts.

Section WhereVariants.
Import Js Ast AstProperties.

Variable L : list (SimpleOperator * string * Primitive).
Hypothesis L_inj :
  forall op f v w,
    In (op, f, v) L -> In (op, f, w) L -> String_ v = String_ w -> v = w.

Lemma within_sortedItems op conds :
  within L (Conjunction op conds) ->
  Forall (within L) (List.flat_map (sortedItems op) conds).
Proof.
  intros H. apply Forall_forall. intros x Hx. apply list_elem_of_In in Hx.
  apply in_flat_map in Hx as [c [Hc Hx]]. intros leaf Hleaf.
  apply (within_child L op conds c H Hc).
  eapply simpleConditions_sortedItems; eauto.
Qed.

Lemma normalizedCondition_Permutation op conds conds' :
  within L (Conjunction op conds) ->
  Permutation (List.flat_map (sortedItems op) conds)
    (List.flat_map (sortedItems op) conds') ->
  normalizedCondition (Conjunction op conds)
  = normalizedCondition (Conjunction op conds').
Proof.
  intros H Hp. rewrite !normalizedCondition_conjunction. f_equal.
  apply (sort_Permutation cmp (within L)).
  - intros x y _ _. apply cmp_neg.
  - intros x y. apply (cmp_zero L L_inj).
  - intros x y z. apply (cmp_trans L L_inj).
  - now apply within_sortedItems.
  - exact Hp.
Qed.

Lemma hasOp_conditionOp op (c c' : Condition) :
  conditionOp c = conditionOp c' -> hasOp op c = hasOp op c'.
Proof.
  destruct c, c'; simpl; intros H; try reflexivity; try discriminate H.
  now injection H as ->.
Qed.

Lemma hasOp_false op (c : Condition) :
  conditionOp c <> Some op -> hasOp op c = false.
Proof.
  destruct c as [| op' conds]; [reflexivity |]. simpl. intros H.
  destruct op', op; try reflexivity; now destruct H.
Qed.

Lemma hasOp_true op (c : Condition) :
  hasOp op c = true -> conditionOp c = Some op.
Proof.
  destruct c as [| op' conds]; [discriminate |]. simpl.
  destruct op', op; try reflexivity; discriminate.
Qed.

Lemma sortedItems_interchangeable op (c c' : Condition) :
  interchangeable c c' ->
  Permutation (sortedItems op c) (sortedItems op c').
Proof.
  intros (HN & Hop & Hch). rewrite !sortedItems_spec.
  rewrite (hasOp_conditionOp op c c' Hop), HN.
  destruct (hasOp op c'); [exact Hch | reflexivity].
Qed.

Lemma sortedItems_inline op (l : list Condition) :
  Forall (fun c => conditionOp c <> Some op) l ->
  List.flat_map (sortedItems op) l
  = normalizedChildren (Conjunction op l).
Proof.
  unfold normalizedChildren. cbn [children].
  induction l as [| c l IH]; intros H; [reflexivity |].
  apply Forall_cons in H as [Hc H]. cbn [List.flat_map List.map].
  rewrite (IH H), sortedItems_spec, (hasOp_false op c Hc).
  change (normalizedCondition c :: List.map normalizedCondition l)
    with ([normalizedCondition c] ++ List.map normalizedCondition l)%list.
  now rewrite defined_app.
Qed.

(** Variants have the same simple conditions and the same operator. *)
Lemma variantOf_shape regrouped (c c' : Condition) :
  variantOf regrouped c c' ->
  Permutation (simpleConditions c) (simpleConditions c')
  /\ conditionOp c = conditionOp c'.
Proof.
  induction 1 as [g c | g a b Hab IH | g a b c Hab IHab Hbc IHbc
                 | a b Hab IH | op l l' Hp | op l1 l l2 Hl
                 | g op l1 c c' l2 Hc IH Hop].
  - split; reflexivity.
  - destruct IH as [Hl Hop]. split; now symmetry.
  - destruct IHab as [Hl1 Hop1], IHbc as [Hl2 Hop2].
    split; [now rewrite Hl1 | congruence].
  - exact IH.
  - split; [| reflexivity]. cbn [simpleConditions].
    now apply Permutation_flat_map.
  - split; [| reflexivity]. cbn [simpleConditions].
    rewrite !flat_map_app. cbn [List.flat_map simpleConditions].
    reflexivity.
  - split; [| reflexivity]. destruct IH as [Hl _]. cbn [simpleConditions].
    rewrite !flat_map_app. cbn [List.flat_map].
    now apply Permutation_app_head, Permutation_app_tail.
Qed.

Lemma within_variantOf regrouped (c c' : Condition) :
  variantOf regrouped c c' -> within L c -> within L c'.
Proof.
  intros Hv Hw x Hx. apply Hw.
  eapply Permutation_in; [| exact Hx].
  symmetry. exact (proj1 (variantOf_shape _ _ _ Hv)).
Qed.

(** Variants have the same normalized form; when the grouping at their top
    is the same, their normalized children are arrangements of each
    other. *)
Lemma variantOf_normalized regrouped (c c' : Condition) :
  variantOf regrouped c c' ->
  within L c ->
  normalizedCondition c = normalizedCondition c'
  /\ (regrouped = false ->
      Permutation (normalizedChildren c) (normalizedChildren c')).
Proof.
  induction 1 as [g c | g a b Hab IH | g a b c Hab IHab Hbc IHbc
                 | a b Hab IH | op l l' Hp | op l1 l l2 Hl
                 | g op l1 c c' l2 Hc IH Hop]; intros Hw.
  - split; reflexivity.
  - destruct (IH (within_variantOf _ _ _ (variant_sym _ _ _ Hab) Hw))
      as [HN Hch].
    split; [now symmetry |]. intros Hg. symmetry. now apply Hch.
  - destruct (IHab Hw) as [HN1 Hch1].
    destruct (IHbc (within_variantOf _ _ _ Hab Hw)) as [HN2 Hch2].
    split; [congruence |]. intros Hg. rewrite (Hch1 Hg). now apply Hch2.
  - split; [exact (proj1 (IH Hw)) | discriminate].
  - split.
    + apply normalizedCondition_Permutation; [exact Hw |].
      now apply Permutation_flat_map.
    + intros _. unfold normalizedChildren, defined. cbn [children].
      now apply Permutation_flat_map, Permutation_map.
  - split; [| discriminate].
    rewrite !normalizedCondition_conjunction. do 2 f_equal.
    rewrite !flat_map_app. cbn [List.flat_map]. f_equal.
    rewrite sortedItems_spec. cbn [hasOp].
    replace (conjunctionOpEqb op op) with true by now destruct op.
    now rewrite (sortedItems_inline op l Hl).
  - assert (Hwc : within L c).
    { apply (within_child L op (l1 ++ c :: l2)); [exact Hw | apply in_elt]. }
    destruct (IH Hwc) as [HN Hch].
    pose proof (proj2 (variantOf_shape _ _ _ Hc)) as Hsame.
    split.
    + apply normalizedCondition_Permutation; [exact Hw |].
      rewrite !flat_map_app. cbn [List.flat_map].
      apply Permutation_app_head, Permutation_app_tail.
      rewrite !sortedItems_spec, <- (hasOp_conditionOp op c c' Hsame), HN.
      destruct (hasOp op c) eqn:Hhas; [| reflexivity].
      apply Hch. destruct g; [| reflexivity].
      destruct (Hop eq_refl (hasOp_true op c Hhas)).
    + intros _. unfold normalizedChildren. cbn [children].
      rewrite !List.map_app. cbn [List.map]. now rewrite HN.
Qed.

(** The amended relation stays inside the relation of the claim: it only
    reorders and regroups. *)
Lemma variantOf_sameWhere regrouped (c c' : Condition) :
  variantOf regrouped c c' -> sameWhere c c'.
Proof.
  induction 1 as [g c | g a b Hab IH | g a b c Hab IHab Hbc IHbc
                 | a b Hab IH | op l l' Hp | op l1 l l2 Hl
                 | g op l1 c c' l2 Hc IH Hop].
  - apply sameWhere_refl.
  - now apply sameWhere_sym.
  - now apply (sameWhere_trans _ b).
  - exact IH.
  - now apply sameWhere_commute.
  - apply sameWhere_associate.
  - now apply sameWhere_inside.
Qed.

End WhereVariants.

Section NormalizeAST.
Import Js Ast AstProperties.

Lemma distinctStringForms_spec (vs : list Primitive) :
  distinctStringForms vs = true ->
  forall v w, In v vs -> In w vs -> String_ v = String_ w -> v = w.
Proof.
  unfold distinctStringForms. intros H v w Hv Hw Hs.
  rewrite forallb_forall in H. specialize (H v Hv).
  rewrite forallb_forall in H. specialize (H w Hw).
  rewrite Hs, String.eqb_refl in H. simpl in H.
  now apply bool_decide_eq_true in H.
Qed.

Lemma distinctSimpleForms_spec
  (l : list (SimpleOperator * string * Primitive)) :
  distinctSimpleForms l = true ->
  forall op f v w,
    In (op, f, v) l -> In (op, f, w) l -> String_ v = String_ w -> v = w.
Proof.
  unfold distinctSimpleForms. intros H op f v w Hv Hw Hs.
  rewrite forallb_forall in H. specialize (H _ Hv).
  rewrite forallb_forall in H. specialize (H _ Hw).
  cbn [sameForm] in H.
  rewrite Hs, !String.eqb_refl, bool_decide_eq_true_2 in H by reflexivity.
  cbn [andb implb] in H. apply bool_decide_eq_true in H.
  now injection H.
Qed.

Lemma unambiguousSelect_spec (sel : list (string * string)) :
  List.forallb
    (fun x =>
       List.forallb
         (fun y =>
            implb (String.eqb (fst x) (fst y)) (String.eqb (snd x) (snd y)))
         sel)
    sel = true ->
  forall x y, In x sel -> In y sel -> fst x = fst y -> x = y.
Proof.
  intros H [sx ax] [sy ay] Hx Hy Hf. cbn [fst] in Hf. subst sy.
  rewrite forallb_forall in H. specialize (H _ Hx).
  rewrite forallb_forall in H. specialize (H _ Hy).
  cbn [fst snd] in H. rewrite String.eqb_refl in H. cbn [implb] in H.
  apply String.eqb_eq in H. now subst ay.
Qed.

Lemma sort_select (sel sel' : list (string * string)) :
  (forall x y, In x sel -> In y sel -> fst x = fst y -> x = y) ->
  Permutation sel sel' ->
  sort (fun a b => compareUTF8 (fst a) (fst b)) sel
  = sort (fun a b => compareUTF8 (fst a) (fst b)) sel'.
Proof.
  intros Hd Hp.
  apply (sort_Permutation _ (fun x => In x sel)).
  - intros x y _ _. apply compareUTF8_neg.
  - intros x y Hx Hy Hz. apply compareUTF8_zero in Hz.
    now apply Hd.
  - intros x y z _ _ _. apply compareUTF8_trans.
  - apply Forall_forall. intros x Hx. now apply list_elem_of_In.
  - exact Hp.
Qed.

Lemma sort_groupBy (g g' : list string) :
  Permutation g g' -> sort compareUTF8 g = sort compareUTF8 g'.
Proof.
  intros Hp. apply (sort_Permutation _ (fun _ => True)).
  - intros x y _ _. apply compareUTF8_neg.
  - intros x y _ _. apply compareUTF8_zero.
  - intros x y z _ _ _. apply compareUTF8_trans.
  - apply Forall_forall. auto.
  - exact Hp.
Qed.

(** C3 as stated fails: a repeated condition is kept, so [a AND a AND b]
    and [a AND b], which differ only in duplication, normalize
    differently. *)
Lemma normalizeAST_keeps_duplicates :
  let a := eq1 "a" 1 in
  let b := eq1 "b" 2 in
  differOnly sameWhere
    (queryWhere (Some (Conjunction AND [a; a; b])))
    (queryWhere (Some (Conjunction AND [a; b])))
  /\ normalizeAST (queryWhere (Some (Conjunction AND [a; a; b])))
     <> normalizeAST (queryWhere (Some (Conjunction AND [a; b]))).
Proof.
  intros a b. split.
  - constructor; try reflexivity; try exact I.
    exact (sameWhere_duplicate AND [] a [b]).
  - intros H. apply (f_equal where_) in H. vm_compute in H. discriminate H.
Qed.

(** C3 (amended).  Two queries normalize to the same AST when they differ
    only in the order of their select and groupBy lists and in their WHERE
    clauses, and the WHERE clauses differ only in the order of the
    conditions inside their conjunctions and in the grouping of a
    conjunction into nested conjunctions with the same operator, anywhere
    in the tree, as long as the same operator is not nested three deep
    where the grouping changes; provided that [cmp] tells the simple
    conditions of the WHERE clause apart (no field is compared by one
    operator with two different literals that have the same string form)
    and that select entries with the same selector are equal. *)
Theorem normalizeAST_order_insensitive (A B : AST) :
  differOnly whereVariant A B ->
  distinctSimpleForms (whereConditions A) = true ->
  unambiguousSelect A = true ->
  normalizeAST A = normalizeAST B.
Proof.
  intros [Ht Ha Hagg Hl Ho Hsel Hg Hw] Hforms Hselect.
  destruct A as [tA aA selA aggA wA lA gA oA].
  destruct B as [tB aB selB aggB wB lB gB oB].
  cbn [table alias select aggregate where_ limit groupBy orderBy] in *.
  unfold whereConditions, unambiguousSelect in *.
  cbn [table alias select aggregate where_ limit groupBy orderBy] in *.
  subst tB aB aggB lB oB. unfold normalizeAST.
  cbn [table alias select aggregate where_ limit groupBy orderBy].
  assert (Eselect :
    match selA with
    | Some sel => Some (sort (fun a b => compareUTF8 (fst a) (fst b)) sel)
    | None => None
    end
    = match selB with
      | Some sel => Some (sort (fun a b => compareUTF8 (fst a) (fst b)) sel)
      | None => None
      end).
  { destruct selA as [sel |], selB as [sel' |]; try contradiction;
      [| reflexivity].
    f_equal. apply sort_select; [| exact Hsel].
    now apply unambiguousSelect_spec. }
  assert (EgroupBy :
    match gA with Some g => Some (sort compareUTF8 g) | None => None end
    = match gB with Some g => Some (sort compareUTF8 g) | None => None end).
  { destruct gA as [g |], gB as [g' |]; try contradiction; [| reflexivity].
    f_equal. now apply sort_groupBy. }
  assert (Ewhere :
    match flattened wA with Some w => Some (sorted w) | None => None end
    = match flattened wB with Some w => Some (sorted w) | None => None end).
  { destruct wA as [w |], wB as [w' |]; try contradiction; [| reflexivity].
    cbn [flattened simpleConditionsOf] in *.
    apply (variantOf_normalized (simpleConditions w)
             (distinctSimpleForms_spec _ Hforms) true w w' Hw).
    intros x Hx. exact Hx. }
  rewrite Eselect, EgroupBy, Ewhere. reflexivity.
Qed.

(** What the amended claim leaves out is needed.  Conditions that [cmp]
    cannot tell apart and select entries with one selector and two aliases
    keep the order in which they came.  Where the same operator is nested
    three deep, regrouping changes the normalized query: a conjunction
    regrouped at its top inside a conjunction with its operator, and the
    inlining of a conjunction that again has a conjunction with its
    operator. *)
Lemma normalizeAST_order_provisos :
  normalizeAST (queryWhere (Some (Conjunction AND [xIsNumber; xIsString])))
  <> normalizeAST (queryWhere (Some (Conjunction AND [xIsString; xIsNumber])))
  /\ normalizeAST
       (listedQuery [("id", "a"); ("id", "b")] xIsNumber [])
     <> normalizeAST
          (listedQuery [("id", "b"); ("id", "a")] xIsNumber [])
  /\ normalizeAST
       (queryWhere
          (Some
             (Conjunction AND
                [eq1 "x" 0;
                 Conjunction AND
                   [eq1 "a" 1; Conjunction AND [eq1 "b" 2; eq1 "c" 3]]])))
     <> normalizeAST
          (queryWhere
             (Some
                (Conjunction AND
                   [eq1 "x" 0;
                    Conjunction AND [eq1 "a" 1; eq1 "b" 2; eq1 "c" 3]])))
  /\ normalizeAST
       (queryWhere
          (Some
             (Conjunction AND
                [eq1 "a" 1;
                 Conjunction AND
                   [eq1 "b" 2; Conjunction AND [eq1 "c" 3; eq1 "d" 4]]])))
     <> normalizeAST
          (queryWhere
             (Some
                (Conjunction AND
                   [eq1 "a" 1; eq1 "b" 2;
                    Conjunction AND [eq1 "c" 3; eq1 "d" 4]]))).
Proof.
  repeat split; intros H.
  - apply (f_equal where_) in H. vm_compute in H. discriminate H.
  - apply (f_equal select) in H. vm_compute in H. discriminate H.
  - apply (f_equal where_) in H. vm_compute in H. discriminate H.
  - apply (f_equal where_) in H. vm_compute in H. discriminate H.
Qed.

(** Queries whose lists are arranged and grouped differently: the two
    example queries; a regrouping below an OR, with the literals [1] and
    ['1'] on different fields; and the example of the comment of
    [flattened]. *)
Lemma normalizeAST_order_insensitive_witness :
  normalizeAST queryOneWay = normalizeAST queryOtherWay
  /\ normalizeAST (queryWhere (Some regroupedBelowOr))
     = normalizeAST (queryWhere (Some flatBelowOr))
  /\ normalizeAST (queryWhere (Some commentNested))
     = normalizeAST (queryWhere (Some commentFlat)).
Proof.
  split; [| split].
  - apply normalizeAST_order_insensitive.
    + constructor; try reflexivity.
      * apply perm_swap.
      * apply perm_swap.
      * apply (variant_trans _ _
                 (Conjunction AND
                    [Conjunction OR [eq1 "c" 3; eq1 "d" 4]; eq1 "a" 1;
                     eq1 "b" 2])).
        -- apply variant_regrouped.
           apply (variant_trans _ _
                    (Conjunction AND
                       [eq1 "b" 2; Conjunction OR [eq1 "c" 3; eq1 "d" 4];
                        eq1 "a" 1])).
           ++ apply (variant_inside false AND [eq1 "b" 2] _ _ [eq1 "a" 1]);
                [| discriminate].
              apply variant_commute, perm_swap.
           ++ apply variant_commute.
              apply (Permutation_cons_app
                       [Conjunction OR [eq1 "c" 3; eq1 "d" 4]; eq1 "a" 1] []).
              reflexivity.
        -- apply variant_sym.
           apply (variant_associate AND
                    [Conjunction OR [eq1 "c" 3; eq1 "d" 4]]
                    [eq1 "a" 1; eq1 "b" 2] []).
           repeat constructor; discriminate.
    + reflexivity.
    + reflexivity.
  - apply normalizeAST_order_insensitive.
    + constructor; try reflexivity; try exact I.
      apply variant_regrouped.
      apply (variant_inside true OR [eq1 "x" 0] _ _ []);
        [| intros _; discriminate].
      apply (variant_associate AND [eq1 "a" 1] [bIsString; eq1 "c" 3] []).
      repeat constructor; discriminate.
    + reflexivity.
    + reflexivity.
  - apply normalizeAST_order_insensitive.
    + constructor; try reflexivity; try exact I.
      apply (variant_trans _ _
               (Conjunction AND
                  [Conjunction AND [eq1 "a" 1; eq1 "b" 2];
                   Conjunction AND
                     [eq1 "c" 3;
                      Conjunction OR [eq1 "d" 4; eq1 "e" 5; eq1 "f" 6]]])).
      * apply variant_regrouped.
        apply (variant_inside false AND
                 [Conjunction AND [eq1 "a" 1; eq1 "b" 2]] _ _ []);
          [| discriminate].
        apply (variant_inside true AND [eq1 "c" 3] _ _ []);
          [| intros _; discriminate].
        apply (variant_associate OR [eq1 "d" 4] [eq1 "e" 5; eq1 "f" 6] []).
        repeat constructor; discriminate.
      * apply (variant_trans _ _
                 (Conjunction AND
                    [eq1 "a" 1; eq1 "b" 2;
                     Conjunction AND
                       [eq1 "c" 3;
                        Conjunction OR [eq1 "d" 4; eq1 "e" 5; eq1 "f" 6]]])).
        -- apply (variant_associate AND [] [eq1 "a" 1; eq1 "b" 2]
                    [Conjunction AND
                       [eq1 "c" 3;
                        Conjunction OR [eq1 "d" 4; eq1 "e" 5; eq1 "f" 6]]]).
           repeat constructor; discriminate.
        -- apply (variant_associate AND [eq1 "a" 1; eq1 "b" 2]
                    [eq1 "c" 3;
                     Conjunction OR [eq1 "d" 4; eq1 "e" 5; eq1 "f" 6]] []).
           repeat constructor; discriminate.
    + reflexivity.
    + reflexivity.
Defined.

End NormalizeAST.

(** *** What [flattened] does guarantee *)

Section FlattenFacts.
Import Js Ast AstProperties.

Lemma atLeastTwo_packConditions op (l : list Condition) (c' : Condition) :
  List.forallb atLeastTwo l = true ->
  packConditions op l = Some c' -> atLeastTwo c' = true.
Proof.
  destruct l as [| c1 [| c2 l]]; intros Hl H; try discriminate H.
  - injection H as <-. simpl in Hl. now rewrite andb_true_r in Hl.
  - injection H as <-. cbn [atLeastTwo]. now rewrite Hl.
Qed.

Lemma atLeastTwo_flattened_both (c : Condition) :
  let Q (c : Condition) :=
    forall c', flattenedCondition c = Some c' -> atLeastTwo c' = true in
  Q c /\ Forall Q (children c).
Proof.
  intros Q.
  induction c as [o f v | op conds IH] using Condition_nested_ind.
  - split; [| constructor]. intros c' H. now injection H as <-.
  - assert (HQ : Forall Q conds).
    { eapply Forall_impl; [exact IH |]. intros c [H _]. exact H. }
    split; [| exact HQ].
    intros c' Hc'. rewrite flattenedCondition_conjunction in Hc'.
    revert Hc'. apply atLeastTwo_packConditions.
    apply forallb_forall. intros x Hx.
    apply In_defined, in_flat_map in Hx as [ci [Hci Hx]].
    rewrite Forall_forall in IH, HQ. apply list_elem_of_In in Hci.
    destruct ci as [o f w | op' conds'].
    + destruct Hx as [Hx | []]. exact (HQ _ Hci _ Hx).
    + cbn [flatMapCallback] in Hx.
      destruct (conjunctionOpEqb op' op).
      * apply in_map_iff in Hx as [g [Hg Hin]].
        destruct (IH _ Hci) as [_ Hchildren].
        rewrite Forall_forall in Hchildren. cbn [children] in Hchildren.
        assert (Hg' : g ∈ conds') by now apply list_elem_of_In.
        exact (Hchildren g Hg' x Hg).
      * destruct Hx as [Hx | []]. exact (HQ _ Hci _ Hx).
Qed.

Lemma atLeastTwo_sorted (c : Condition) :
  atLeastTwo c = true -> atLeastTwo (sorted c) = true.
Proof.
  induction c as [o f v | op conds IH] using Condition_nested_ind;
    [auto |].
  cbn [atLeastTwo sorted]. intros H. apply andb_prop in H as [Hlen Hall].
  rewrite length_sort, List.length_map, Hlen. cbn [andb].
  apply forallb_forall. intros x Hx.
  apply (Permutation_in _ (Permutation_sym (sort_is_Permutation cmp _))) in Hx.
  apply in_map_iff in Hx as [c [<- Hc]].
  rewrite Forall_forall in IH. rewrite forallb_forall in Hall.
  apply IH; [now apply list_elem_of_In | now apply Hall].
Qed.

(** In a normalized AST every conjunction has at least two conditions; an
    empty conjunction disappears and a conjunction of one condition is that
    condition, whatever its operator. *)
Lemma normalizeAST_atLeastTwo (ast : AST) (w : Condition) :
  where_ (normalizeAST ast) = Some w -> atLeastTwo w = true.
Proof.
  unfold normalizeAST. cbn [where_].
  destruct (where_ ast) as [c |]; [| discriminate].
  cbn [flattened]. destruct (flattenedCondition c) as [c' |] eqn:Hc;
    [| discriminate].
  intros H. injection H as <-. apply atLeastTwo_sorted.
  exact (proj1 (atLeastTwo_flattened_both c) c' Hc).
Qed.

Lemma flattened_empty_and_singleton op (c : Condition) :
  flattened (Some (Conjunction op [])) = None
  /\ flattened (Some (Conjunction op [Simple OpEq "a" PNull]))
     = Some (Simple OpEq "a" PNull)
  /\ (conditionOp c <> Some op ->
      flattened (Some (Conjunction op [c])) = flattened (Some c)).
Proof.
  split; [reflexivity |]. split; [reflexivity |].
  intros Hc. cbn [flattened]. rewrite flattenedCondition_conjunction.
  cbn [List.flat_map]. rewrite List.app_nil_r.
  assert (Hcb : flatMapCallback op c = [flattenedCondition c]).
  { destruct c as [| op' conds]; [reflexivity |]. cbn [flatMapCallback].
    pose proof (hasOp_false op _ Hc) as Hf. cbn [hasOp] in Hf. now rewrite Hf. }
  rewrite Hcb. destruct (flattenedCondition c); reflexivity.
Qed.

(** The scenario of the specification: [a = 1 AND (b = 2 AND TRUE)], with
    the empty conjunction for TRUE, normalizes as [a = 1 AND b = 2]. *)
Lemma normalizeAST_empty_filter_flatten :
  normalizeAST
    (queryWhere
       (Some
          (Conjunction AND
             [eq1 "a" 1; Conjunction AND [eq1 "b" 2; Conjunction AND []]])))
  = normalizeAST (queryWhere (Some (Conjunction AND [eq1 "a" 1; eq1 "b" 2]))).
Proof. vm_compute. reflexivity. Qed.

End FlattenFacts.

(* ===================================================================== *)
(** * Part III: further properties of the embedded code                   *)
(* ===================================================================== *)

(** *** What the stable sort returns *)

Section SortOrder.
Import Js AstOrder.
Context {A : Type} (cmp : A -> A -> Z).
Hypothesis cmp_total : forall x y, cmp y x = - cmp x y.

Lemma ordered_insertSorted (x : A) (l : list A) :
  ordered cmp l = true -> ordered cmp (insertSorted cmp x l) = true.
Proof.
  induction l as [| y l IH]; intros Hl; [reflexivity |].
  cbn [insertSorted].
  destruct (Z.leb_spec (cmp x y) 0) as [Hxy | Hxy].
  - cbn [ordered]. apply andb_true_intro. split; [now apply Z.leb_le | exact Hl].
  - assert (Hyx : (cmp y x <=? 0) = true).
    { apply Z.leb_le. rewrite cmp_total. lia. }
    destruct l as [| z l].
    + cbn [insertSorted ordered]. now rewrite Hyx.
    + cbn [ordered] in Hl. apply andb_prop in Hl as [Hyz Hl].
      specialize (IH Hl). cbn [insertSorted] in IH |- *.
      destruct (cmp x z <=? 0); cbn [ordered] in IH |- *.
      * now rewrite Hyx, IH.
      * now rewrite Hyz, IH.
Qed.

Lemma ordered_sort (l : list A) : ordered cmp (sort cmp l) = true.
Proof.
  induction l as [| x l IH]; [reflexivity |].
  simpl. now apply ordered_insertSorted.
Qed.

Lemma ordered_tail (x : A) (l : list A) :
  ordered cmp (x :: l) = true -> ordered cmp l = true.
Proof.
  destruct l as [| y l]; [reflexivity |]. cbn [ordered].
  intros H. now apply andb_prop in H as [_ H].
Qed.

Lemma sort_ordered (l : list A) : ordered cmp l = true -> sort cmp l = l.
Proof.
  induction l as [| x l IH]; intros Hl; [reflexivity |].
  simpl. rewrite IH by exact (ordered_tail _ _ Hl).
  destruct l as [| y l]; [reflexivity |].
  cbn [ordered] in Hl. apply andb_prop in Hl as [Hxy _].
  cbn [insertSorted]. now rewrite Hxy.
Qed.

Lemma sort_sort (l : list A) : sort cmp (sort cmp l) = sort cmp l.
Proof. apply sort_ordered, ordered_sort. Qed.

End SortOrder.

(** *** The normal form of a WHERE clause *)

Section NormalForm.
Import Js Ast AstProperties AstOrder.

Lemma In_sort {A : Type} (f : A -> A -> Z) (l : list A) (x : A) :
  In x (sort f l) <-> In x l.
Proof.
  split; apply Permutation_in.
  - apply Permutation_sym, sort_is_Permutation.
  - apply sort_is_Permutation.
Qed.

Lemma sorted_sorted (c : Condition) : sorted (sorted c) = sorted c.
Proof.
  induction c as [o f v | op conds IH] using Condition_nested_ind;
    [reflexivity |].
  cbn [sorted]. f_equal.
  rewrite (map_ext_in sorted (fun x => x)).
  - rewrite map_id. apply sort_sort. intros x y. apply cmp_neg.
  - intros x Hx. apply In_sort, in_map_iff in Hx as [c [<- Hc]].
    rewrite Forall_forall in IH. apply IH. now apply list_elem_of_In.
Qed.

Lemma ordered_simplesFirst (l : list Condition) :
  ordered cmp l = true -> simplesFirst l = true.
Proof.
  induction l as [| x l IH]; [reflexivity |].
  destruct l as [| y l]; [reflexivity |].
  change (ordered cmp (x :: y :: l))
    with ((cmp x y <=? 0) && ordered cmp (y :: l)).
  change (simplesFirst (x :: y :: l))
    with ((isSimple x || negb (isSimple y)) && simplesFirst (y :: l)).
  intros H. apply andb_prop in H as [Hxy Hl].
  rewrite (IH Hl), andb_true_r.
  destruct x as [ox fx vx | opx lx], y as [oy fy vy | opy ly];
    try reflexivity.
  discriminate Hxy.
Qed.

Lemma everyConjunction_sorted (c : Condition) :
  everyConjunction inOrder (sorted c) = true.
Proof.
  induction c as [o f v | op conds IH] using Condition_nested_ind;
    [reflexivity |].
  cbn [sorted everyConjunction].
  assert (Hord : ordered cmp (sort cmp (List.map sorted conds)) = true).
  { apply ordered_sort. intros x y. apply cmp_neg. }
  unfold inOrder. rewrite Hord, (ordered_simplesFirst _ Hord). cbn [andb].
  apply forallb_forall. intros x Hx.
  apply In_sort, in_map_iff in Hx as [c [<- Hc]].
  rewrite Forall_forall in IH. apply IH. now apply list_elem_of_In.
Qed.

(** X1.  The shape of a normalized WHERE clause.  In the WHERE clause that
    [normalizeAST] returns, every conjunction, at any depth, has at least
    two conditions, lists them in the order of [cmp] (no condition sorts
    strictly after its successor), and lists its simple conditions before
    its nested conjunctions. *)
Theorem normalizeAST_where_shape (ast : AST) (w : Condition) :
  where_ (normalizeAST ast) = Some w ->
  atLeastTwo w = true /\ everyConjunction inOrder w = true.
Proof.
  intros Hw. split; [exact (normalizeAST_atLeastTwo ast w Hw) |].
  revert Hw. unfold normalizeAST. cbn [where_].
  destruct (flattened (where_ ast)) as [c |]; [| discriminate].
  intros H. injection H as <-. apply everyConjunction_sorted.
Qed.

Lemma normalizeAST_where_shape_witness :
  atLeastTwo
    (Conjunction AND
       [eq1 "a" 1; eq1 "b" 2; Conjunction OR [eq1 "c" 3; eq1 "d" 4]])
  = true
  /\ everyConjunction inOrder
       (Conjunction AND
          [eq1 "a" 1; eq1 "b" 2; Conjunction OR [eq1 "c" 3; eq1 "d" 4]])
     = true.
Proof. apply (normalizeAST_where_shape queryOneWay). reflexivity. Defined.

(** A condition in which every conjunction has two conditions or more and
    none has a child with its own operator is left as it is by
    [flattened]. *)
Lemma flattenedCondition_fixpoint (c : Condition) :
  atLeastTwo c = true -> noNestedSameOp c = true ->
  flattenedCondition c = Some c.
Proof.
  induction c as [o f v | op conds IH] using Condition_nested_ind;
    [reflexivity |].
  cbn [atLeastTwo noNestedSameOp]. intros Htwo Hnest.
  apply andb_prop in Htwo as [Hlen Htwo].
  rewrite flattenedCondition_conjunction.
  assert (Hitems :
    defined (List.flat_map (flatMapCallback op) conds) = conds).
  { clear Hlen. induction conds as [| ci conds IHconds]; [reflexivity |].
    apply Forall_cons in IH as [IHci IH].
    cbn [forallb] in Htwo, Hnest.
    apply andb_prop in Htwo as [Hci2 Htwo].
    apply andb_prop in Hnest as [Hci Hnest].
    apply andb_prop in Hci as [Hop Hcin].
    cbn [flat_map]. rewrite defined_app, (IHconds IH Htwo Hnest).
    assert (Hcb : flatMapCallback op ci = [Some ci]).
    { specialize (IHci Hci2 Hcin).
      destruct ci as [o f v | op' conds']; [reflexivity |].
      cbn [flatMapCallback]. cbn [hasOp] in Hop.
      destruct (conjunctionOpEqb op' op); [discriminate Hop |].
      now rewrite IHci. }
    rewrite Hcb. reflexivity. }
  rewrite Hitems.
  destruct conds as [| c1 [| c2 conds]]; try discriminate Hlen.
  reflexivity.
Qed.

(** A second pass returns the normalized query unchanged when its WHERE
    clause has no conjunction directly inside a conjunction with the same
    operator. *)
Lemma normalizeAST_second_pass (ast : AST) :
  (forall w, where_ (normalizeAST ast) = Some w -> noNestedSameOp w = true) ->
  normalizeAST (normalizeAST ast) = normalizeAST ast.
Proof.
  intros Hnest.
  assert (Hwhere :
    match flattened (where_ (normalizeAST ast)) with
    | Some w => Some (sorted w)
    | None => None
    end = where_ (normalizeAST ast)).
  { destruct (where_ (normalizeAST ast)) as [w |] eqn:Hw; [| reflexivity].
    cbn [flattened].
    rewrite (flattenedCondition_fixpoint w
               (normalizeAST_atLeastTwo ast w Hw) (Hnest w eq_refl)).
    f_equal. revert Hw. unfold normalizeAST. cbn [where_].
    destruct (flattened (where_ ast)) as [c |]; [| discriminate].
    intros H. injection H as <-. apply sorted_sorted. }
  unfold normalizeAST at 1. rewrite Hwhere.
  unfold normalizeAST. cbn [table alias select aggregate where_ groupBy
                             orderBy limit].
  f_equal.
  - destruct (select ast) as [sel |]; [| reflexivity]. f_equal.
    apply (sort_sort compareSelect).
    intros x y. apply compareUTF8_neg.
  - destruct (aggregate ast) as [aggs |]; [| reflexivity]. f_equal.
    apply (sort_sort compareAggregation).
    intros x y. unfold compareAggregation, orElse.
    rewrite (compareUTF8_neg (aggregateName (agg_aggregate x))).
    rewrite (compareUTF8_neg
               (match agg_field x with Some f => f | None => "*" end)).
    destruct (Z.eqb_spec
                (compareUTF8 (aggregateName (agg_aggregate x))
                   (aggregateName (agg_aggregate y))) 0) as [E | E].
    + rewrite E. reflexivity.
    + destruct (Z.eqb_spec
                  (- compareUTF8 (aggregateName (agg_aggregate x))
                       (aggregateName (agg_aggregate y))) 0); [lia |].
      reflexivity.
  - destruct (groupBy ast) as [g |]; [| reflexivity]. f_equal.
    apply sort_sort. intros x y. apply compareUTF8_neg.
Qed.

Lemma list_sum_cons (x : nat) (l : list nat) :
  list_sum (x :: l) = (x + list_sum l)%nat.
Proof. reflexivity. Qed.

Lemma list_sum_nil : list_sum [] = 0%nat.
Proof. reflexivity. Qed.

Lemma list_sum_Permutation (l l' : list nat) :
  Permutation l l' -> list_sum l = list_sum l'.
Proof.
  induction 1; simpl; lia.
Qed.

Lemma conjunctionCount_sorted (c : Condition) :
  conjunctionCount (sorted c) = conjunctionCount c.
Proof.
  induction c as [o f v | op conds IH] using Condition_nested_ind;
    [reflexivity |].
  cbn [sorted conjunctionCount]. f_equal.
  rewrite <- (list_sum_Permutation _ _
                (Permutation_map conjunctionCount
                   (sort_is_Permutation cmp (List.map sorted conds)))).
  rewrite List.map_map. f_equal.
  apply map_ext_in. intros x Hx.
  rewrite Forall_forall in IH. apply IH. now apply list_elem_of_In.
Qed.

Lemma conjunctionCount_packConditions op (l : list Condition) (c' : Condition) :
  packConditions op l = Some c' ->
  (conjunctionCount c' <= S (list_sum (List.map conjunctionCount l)))%nat.
Proof.
  destruct l as [| c1 [| c2 l]]; intros H; try discriminate H;
    injection H as <-; cbn [List.map conjunctionCount]; rewrite ?list_sum_cons, ?list_sum_nil; lia.
Qed.

(** [flattened] never adds a conjunction, and removes one from a condition
    that has a conjunction directly inside a conjunction with the same
    operator. *)
Lemma conjunctionCount_flattened_both (c : Condition) :
  let Q (c : Condition) :=
    forall c', flattenedCondition c = Some c' ->
      (conjunctionCount c' <= conjunctionCount c)%nat
      /\ (noNestedSameOp c = false ->
          (conjunctionCount c' < conjunctionCount c)%nat) in
  Q c /\ Forall Q (children c).
Proof.
  intros Q.
  induction c as [o f v | op conds IH] using Condition_nested_ind.
  - split; [| constructor]. intros c' H. injection H as <-.
    split; [lia | discriminate].
  - assert (HQ : Forall Q conds).
    { eapply Forall_impl; [exact IH |]. intros c [H _]. exact H. }
    split; [| exact HQ].
    intros c' Hc'. rewrite flattenedCondition_conjunction in Hc'.
    apply conjunctionCount_packConditions in Hc'.
    cbn [conjunctionCount noNestedSameOp].
    set (items := defined (List.flat_map (flatMapCallback op) conds)) in *.
    assert (Hitems :
      (list_sum (List.map conjunctionCount items)
       <= list_sum (List.map conjunctionCount conds))%nat
      /\ (forallb (fun c' => negb (hasOp op c') && noNestedSameOp c') conds
          = false ->
          (list_sum (List.map conjunctionCount items)
           < list_sum (List.map conjunctionCount conds))%nat)).
    { subst items. clear Hc' c' HQ.
      induction conds as [| ci conds IHconds].
      - split; [cbn; lia | discriminate].
      - apply Forall_cons in IH as [[Hci Hgrand] IH].
        specialize (IHconds IH) as [Hle Hlt].
        cbn [flat_map]. rewrite defined_app, List.map_app, list_sum_app.
        cbn [List.map forallb]; rewrite ?list_sum_cons, ?list_sum_nil.
        assert (Hchild :
          (list_sum (List.map conjunctionCount (defined (flatMapCallback op ci)))
           <= conjunctionCount ci)%nat
          /\ (negb (hasOp op ci) && noNestedSameOp ci = false ->
              (list_sum
                 (List.map conjunctionCount (defined (flatMapCallback op ci)))
               < conjunctionCount ci)%nat)).
        { destruct ci as [o f v | op' conds'].
          - split; [cbn; lia | discriminate].
          - cbn [flatMapCallback hasOp].
            destruct (conjunctionOpEqb op' op).
            + cbn [children] in Hgrand.
              assert (Hsum :
                (list_sum
                   (List.map conjunctionCount
                      (defined (List.map flattenedCondition conds')))
                 <= list_sum (List.map conjunctionCount conds'))%nat).
              { clear Hci. induction conds' as [| g conds' IHg];
                  [cbn; lia |].
                apply Forall_cons in Hgrand as [Hg Hgrand].
                specialize (IHg Hgrand).
                cbn [List.map]. unfold defined in *. cbn [flat_map].
                rewrite List.map_app, list_sum_app. rewrite ?list_sum_cons, ?list_sum_nil.
                destruct (flattenedCondition g) as [g' |] eqn:Eg.
                - destruct (Hg g' Eg) as [Hg' _].
                  cbn [List.map]; rewrite ?list_sum_cons, ?list_sum_nil. lia.
                - cbn [List.map]; rewrite ?list_sum_cons, ?list_sum_nil. lia. }
              cbn [conjunctionCount]. split; [lia | intros _; lia].
            + cbn [negb andb]. unfold defined. cbn [flat_map].
              rewrite app_nil_r.
              destruct (flattenedCondition (Conjunction op' conds'))
                as [ci' |] eqn:Eci.
              * destruct (Hci ci' Eci) as [Hle' Hlt'].
                cbn [List.map]; rewrite ?list_sum_cons, ?list_sum_nil. rewrite Nat.add_0_r.
                split; [exact Hle' | exact Hlt'].
              * cbn [List.map conjunctionCount]; rewrite ?list_sum_cons, ?list_sum_nil.
                split; [lia | intros _; lia]. }
        destruct Hchild as [Hcle Hclt].
        split; [lia |].
        intros Hviol. apply andb_false_iff in Hviol as [Hviol | Hviol].
        + specialize (Hclt Hviol). lia.
        + specialize (Hlt Hviol). lia. }
    destruct Hitems as [Hle Hlt]. split; [lia |].
    intros Hviol. specialize (Hlt Hviol). lia.
Qed.

(** X2.  [normalizeAST] is idempotent exactly on the queries whose
    normalized WHERE clause has no conjunction directly inside a
    conjunction with the same operator: on these (and on every query
    without WHERE clause) a second pass returns the normalized query
    unchanged, on all others the second pass removes a conjunction. *)
Theorem normalizeAST_idempotent_iff (ast : AST) :
  normalizeAST (normalizeAST ast) = normalizeAST ast
  <-> (forall w,
         where_ (normalizeAST ast) = Some w -> noNestedSameOp w = true).
Proof.
  split; [| apply normalizeAST_second_pass].
  intros Hidem w Hw.
  destruct (noNestedSameOp w) eqn:Hnest; [reflexivity | exfalso].
  assert (H : where_ (normalizeAST (normalizeAST ast)) = Some w)
    by now rewrite Hidem.
  unfold normalizeAST at 1 in H. cbn [where_] in H. rewrite Hw in H.
  cbn [flattened] in H.
  destruct (flattenedCondition w) as [c' |] eqn:Hc'; [| discriminate H].
  injection H as H.
  destruct (proj1 (conjunctionCount_flattened_both w) c' Hc') as [_ Hlt].
  specialize (Hlt Hnest).
  rewrite <- H, conjunctionCount_sorted in Hlt. lia.
Qed.

End NormalForm.

(** *** What normalisation keeps *)

Section NormalizeKeeps.
Import Js Ast AstProperties AstOrder.

Lemma compareAggregation_neg (x y : Aggregation) :
  compareAggregation y x = - compareAggregation x y.
Proof.
  unfold compareAggregation, orElse.
  rewrite (compareUTF8_neg (aggregateName (agg_aggregate x))).
  rewrite (compareUTF8_neg
             (match agg_field x with Some f => f | None => "*" end)).
  destruct (Z.eqb_spec
              (compareUTF8 (aggregateName (agg_aggregate x))
                 (aggregateName (agg_aggregate y))) 0) as [E | E].
  - rewrite E. reflexivity.
  - destruct (Z.eqb_spec
                (- compareUTF8 (aggregateName (agg_aggregate x))
                     (aggregateName (agg_aggregate y))) 0); [lia |].
    reflexivity.
Qed.

(** X3.  [normalizeAST] only rearranges the lists of a query.  The select,
    aggregate and groupBy lists of the result hold the entries of the
    input lists, each as often as the input does, in the order of the
    comparison handed to [sort]; an absent list stays absent; table, alias,
    orderBy and limit are returned as they are. *)
Theorem normalizeAST_rearranges_lists (ast : AST) :
  table (normalizeAST ast) = table ast
  /\ alias (normalizeAST ast) = alias ast
  /\ orderBy (normalizeAST ast) = orderBy ast
  /\ limit (normalizeAST ast) = limit ast
  /\ liftOption
       (fun l l' => Permutation l l' /\ ordered compareSelect l' = true)
       (select ast) (select (normalizeAST ast))
  /\ liftOption
       (fun l l' => Permutation l l' /\ ordered compareAggregation l' = true)
       (aggregate ast) (aggregate (normalizeAST ast))
  /\ liftOption
       (fun l l' => Permutation l l' /\ ordered compareUTF8 l' = true)
       (groupBy ast) (groupBy (normalizeAST ast)).
Proof.
  unfold normalizeAST.
  cbn [table alias select aggregate groupBy orderBy limit].
  repeat (split; [reflexivity |]).
  split; [| split].
  - destruct (select ast) as [sel |]; [| exact I]. split.
    + apply sort_is_Permutation.
    + apply (ordered_sort compareSelect).
      intros x y. apply compareUTF8_neg.
  - destruct (aggregate ast) as [aggs |]; [| exact I]. split.
    + apply sort_is_Permutation.
    + apply (ordered_sort compareAggregation), compareAggregation_neg.
  - destruct (groupBy ast) as [g |]; [| exact I]. split.
    + apply sort_is_Permutation.
    + apply ordered_sort. intros x y. apply compareUTF8_neg.
Qed.

(** X4.  Normalisation neither drops nor invents a simple condition: the
    simple conditions (operator, field, literal) of the normalized WHERE
    clause are those of the given WHERE clause, each as often as there,
    in another order.  What [flattened] removes is conjunctions, never a
    simple condition; a WHERE clause that disappears had none. *)
Theorem normalizeAST_keeps_simple_conditions (ast : AST) :
  Permutation (simpleConditionsOf (where_ (normalizeAST ast)))
    (simpleConditionsOf (where_ ast)).
Proof.
  unfold normalizeAST. cbn [where_].
  destruct (where_ ast) as [w |]; [| reflexivity].
  cbn [flattened].
  change (simpleConditionsOf (Some w)) with (simpleConditions w).
  rewrite <- (proj1 (simpleConditions_flattened_both w)).
  destruct (flattenedCondition w) as [c |]; [| reflexivity].
  apply simpleConditions_sorted.
Qed.

End NormalizeKeeps.

(** *** Normalisation and the truth value of a WHERE clause *)

Section NormalizeTruth.
Import Js Ast AstProperties AstOrder.
Variable simple : SimpleOperator -> string -> Primitive -> bool.

Lemma forallb_flat_map {A B : Type} (p : B -> bool) (g : A -> list B)
  (l : list A) :
  forallb p (List.flat_map g l) = forallb (fun x => forallb p (g x)) l.
Proof.
  induction l as [| x l IH]; [reflexivity |].
  cbn [flat_map forallb]. now rewrite forallb_app, IH.
Qed.

Lemma existsb_flat_map {A B : Type} (p : B -> bool) (g : A -> list B)
  (l : list A) :
  existsb p (List.flat_map g l) = existsb (fun x => existsb p (g x)) l.
Proof.
  induction l as [| x l IH]; [reflexivity |].
  cbn [flat_map existsb]. now rewrite existsb_app, IH.
Qed.

Lemma forallb_pointwise {A : Type} (p q : A -> bool) (l : list A) :
  (forall x, In x l -> p x = q x) -> forallb p l = forallb q l.
Proof.
  induction l as [| x l IH]; intros H; [reflexivity |].
  cbn [forallb]. rewrite (H x (or_introl eq_refl)), IH; [reflexivity |].
  intros y Hy. apply H. now right.
Qed.

Lemma existsb_pointwise {A : Type} (p q : A -> bool) (l : list A) :
  (forall x, In x l -> p x = q x) -> existsb p l = existsb q l.
Proof.
  induction l as [| x l IH]; intros H; [reflexivity |].
  cbn [existsb]. rewrite (H x (or_introl eq_refl)), IH; [reflexivity |].
  intros y Hy. apply H. now right.
Qed.

Lemma forallb_of_map {A B : Type} (p : B -> bool) (f : A -> B) (l : list A) :
  forallb p (List.map f l) = forallb (fun x => p (f x)) l.
Proof.
  induction l as [| x l IH]; [reflexivity |].
  cbn [List.map forallb]. now rewrite IH.
Qed.

Lemma existsb_of_map {A B : Type} (p : B -> bool) (f : A -> B) (l : list A) :
  existsb p (List.map f l) = existsb (fun x => p (f x)) l.
Proof.
  induction l as [| x l IH]; [reflexivity |].
  cbn [List.map existsb]. now rewrite IH.
Qed.

Lemma forallb_Permutation {A : Type} (p : A -> bool) (l l' : list A) :
  Permutation l l' -> forallb p l = forallb p l'.
Proof.
  induction 1; cbn [forallb]; try congruence.
  now rewrite !andb_assoc, (andb_comm (p y)).
Qed.

Lemma existsb_Permutation {A : Type} (p : A -> bool) (l l' : list A) :
  Permutation l l' -> existsb p l = existsb p l'.
Proof.
  induction 1; cbn [existsb]; try congruence.
  now rewrite !orb_assoc, (orb_comm (p y)).
Qed.

Lemma combine_flat_map {A : Type} op (g : A -> list Condition) (l : list A) :
  combine simple op (List.flat_map g l)
  = match op with
    | AND => forallb (fun x => combine simple op (g x)) l
    | OR => existsb (fun x => combine simple op (g x)) l
    end.
Proof.
  unfold combine. destruct op; cbn [holds].
  - apply forallb_flat_map.
  - apply existsb_flat_map.
Qed.

Lemma combine_singleton op (c : Condition) :
  combine simple op [c] = holds simple c.
Proof.
  unfold combine. destruct op; cbn [holds forallb existsb].
  - apply andb_true_r.
  - apply orb_false_r.
Qed.

Lemma holds_packConditions op (l : list Condition) :
  l <> [] ->
  exists c', packConditions op l = Some c' /\ holds simple c' = combine simple op l.
Proof.
  destruct l as [| c1 [| c2 l]]; intros Hl; [congruence | |].
  - exists c1. split; [reflexivity |]. symmetry. apply combine_singleton.
  - eexists. split; reflexivity.
Qed.

(** On a condition without empty conjunction [flattened] returns a
    condition, and it has the truth value of the given one. *)
Lemma holds_flattened_both (c : Condition) :
  let Q (c : Condition) :=
    everyConjunction nonEmpty c = true ->
    exists c', flattenedCondition c = Some c'
               /\ holds simple c' = holds simple c in
  Q c /\ Forall Q (children c).
Proof.
  intros Q.
  induction c as [o f v | op conds IH] using Condition_nested_ind.
  - split; [| constructor]. intros _. now eexists.
  - assert (HQ : Forall Q conds).
    { eapply Forall_impl; [exact IH |]. intros c [H _]. exact H. }
    split; [| exact HQ].
    intros Hne. cbn [everyConjunction] in Hne.
    apply andb_prop in Hne as [Hconds Hne].
    rewrite flattenedCondition_conjunction, defined_flat_map.
    assert (Hchild : forall ci, In ci conds ->
      defined (flatMapCallback op ci) <> []
      /\ combine simple op (defined (flatMapCallback op ci)) = holds simple ci).
    { intros ci Hci. rewrite forallb_forall in Hne.
      specialize (Hne ci Hci). rewrite Forall_forall in IH.
      apply list_elem_of_In in Hci. destruct (IH ci Hci) as [Hself Hgrand].
      assert (Hone :
        defined [flattenedCondition ci] <> []
        /\ combine simple op (defined [flattenedCondition ci]) = holds simple ci).
      { destruct (Hself Hne) as [ci' [-> Hci']].
        split; [discriminate |]. unfold defined. cbn [flat_map app].
        now rewrite combine_singleton. }
      destruct ci as [o f v | op' conds']; [exact Hone |].
      cbn [flatMapCallback].
      destruct (conjunctionOpEqb op' op) eqn:Hop; [| exact Hone].
      assert (op' = op) as ->
        by (destruct op', op; try reflexivity; discriminate Hop).
      cbn [children] in Hgrand. cbn [everyConjunction] in Hne.
      apply andb_prop in Hne as [Hconds' Hne'].
      assert (Hgrands :
        (conds' <> [] -> defined (List.map flattenedCondition conds') <> [])
        /\ combine simple op (defined (List.map flattenedCondition conds'))
           = combine simple op conds').
      { clear Hself Hconds' Hop Hone Hci. induction conds' as [| g conds' IHg].
        - split; [congruence | reflexivity].
        - apply Forall_cons in Hgrand as [Hg Hgrand].
          cbn [forallb] in Hne'. apply andb_prop in Hne' as [Hgne Hne'].
          destruct (IHg Hgrand Hne') as [_ Hrest].
          destruct (Hg Hgne) as [g' [Eg Hg']].
          cbn [List.map]. rewrite Eg.
          change (defined (Some g' :: List.map flattenedCondition conds'))
            with (g' :: defined (List.map flattenedCondition conds')).
          split; [discriminate |].
          revert Hrest. unfold combine.
          destruct op; cbn [holds forallb existsb]; intros ->;
            now rewrite Hg'. }
      destruct Hgrands as [Hnonnil Hsame]. split.
      - apply Hnonnil. destruct conds'; [discriminate Hconds' | discriminate].
      - exact Hsame. }
    destruct (holds_packConditions op
                (List.flat_map (fun x => defined (flatMapCallback op x)) conds))
      as [c' [Hc' Hholds]].
    { destruct conds as [| c1 conds]; [discriminate Hconds |].
      cbn [flat_map]. intros H. apply app_eq_nil in H as [H _].
      exact (proj1 (Hchild c1 (or_introl eq_refl)) H). }
    exists c'. split; [exact Hc' |].
    rewrite Hholds, combine_flat_map.
    destruct op; cbn [holds].
    + apply forallb_pointwise. intros x Hx. exact (proj2 (Hchild x Hx)).
    + apply existsb_pointwise. intros x Hx. exact (proj2 (Hchild x Hx)).
Qed.

Lemma holds_sorted (c : Condition) :
  holds simple (sorted c) = holds simple c.
Proof.
  induction c as [o f v | op conds IH] using Condition_nested_ind;
    [reflexivity |].
  assert (Hpoint : forall x, In x conds ->
            holds simple (sorted x) = holds simple x).
  { intros x Hx. rewrite Forall_forall in IH. apply IH.
    now apply list_elem_of_In. }
  cbn [sorted]. destruct op; cbn [holds].
  - rewrite <- (forallb_Permutation _ _ _ (sort_is_Permutation cmp _)).
    rewrite forallb_of_map. now apply forallb_pointwise.
  - rewrite <- (existsb_Permutation _ _ _ (sort_is_Permutation cmp _)).
    rewrite existsb_of_map. now apply existsb_pointwise.
Qed.

End NormalizeTruth.

Section NormalizeTruthStatement.
Import Js Ast AstProperties AstOrder.

(** X5.  Normalisation keeps the meaning of a WHERE clause that has no
    empty conjunction.  Whatever the truth values of the simple conditions
    on a row are, the normalized WHERE clause holds on the row exactly when
    the given one does, an AND holding when all its conditions hold and an
    OR when one of them does; and such a WHERE clause never disappears. *)
Theorem normalizeAST_keeps_truth
  (simple : SimpleOperator -> string -> Primitive -> bool)
  (ast : AST) (w : Condition) :
  where_ ast = Some w ->
  everyConjunction nonEmpty w = true ->
  where_ (normalizeAST ast) <> None
  /\ holdsWhere simple (where_ (normalizeAST ast)) = holds simple w.
Proof.
  intros Hw Hne. unfold normalizeAST. cbn [where_]. rewrite Hw.
  cbn [flattened].
  destruct (proj1 (holds_flattened_both simple w) Hne) as [c' [-> Hc']].
  split; [discriminate |].
  cbn [holdsWhere]. now rewrite holds_sorted.
Qed.

Lemma normalizeAST_keeps_truth_witness :
  where_ (normalizeAST queryOtherWay) <> None
  /\ holdsWhere (fun _ field _ => String.eqb field "a")
       (where_ (normalizeAST queryOtherWay))
     = false.
Proof.
  apply (normalizeAST_keeps_truth (fun _ field _ => String.eqb field "a")
           queryOtherWay
           (Conjunction AND
              [Conjunction OR [eq1 "c" 3; eq1 "d" 4];
               Conjunction AND [eq1 "a" 1; eq1 "b" 2]]));
    reflexivity.
Defined.

(** The proviso of the previous theorem is needed.  An empty AND keeps
    every row and an empty OR keeps none ([applyAnd] returns the stream,
    [applyOr] merges no branch), but [flattened] removes both: [OR()]
    holds on no row and normalizes to no WHERE clause at all, and
    [OR(AND(), a = 1)] holds on every row and normalizes to [a = 1]. *)
Lemma normalizeAST_empty_conjunction_changes_truth :
  let never : SimpleOperator -> string -> Primitive -> bool :=
    fun _ _ _ => false in
  holds never (Conjunction OR []) = false
  /\ where_ (normalizeAST (queryWhere (Some (Conjunction OR [])))) = None
  /\ holds never trueOrA = true
  /\ where_ (normalizeAST (queryWhere (Some trueOrA))) = Some (eq1 "a" 1)
  /\ holds never (eq1 "a" 1) = false.
Proof. repeat split. Qed.

End NormalizeTruthStatement.

(** *** The bookkeeping of the Join *)

Section JoinBookkeepingFacts.
Import Js JoinOp Characters JoinProperties JoinBookkeeping.

Lemma processParentNode_fetch (j : Join) (st : Storage) (node : Node) :
  processParentNode j st node Fetch
  = (joinedNode j Fetch node, <[storageKeyOf j node := true]> st).
Proof. reflexivity. Qed.

Lemma processParentNode_cleanup (j : Join) (st : Storage) (node : Node) :
  processParentNode j st node Cleanup
  = (joinedNode j (cleanupMethod j st node) node,
     delete (storageKeyOf j node) st).
Proof.
  unfold processParentNode, joinedNode, cleanupMethod, childPull,
    parentKeyValueOf, storageKeyOf, storage_del, take.
  f_equal. f_equal. f_equal. f_equal.
  destruct (storage_scan _ st) as [| e1 [| e2 l]]; reflexivity.
Qed.

Lemma cleanupMethod_iff (j : Join) (st : Storage) (node : Node) :
  is_Some (st !! storageKeyOf j node) ->
  (cleanupMethod j st node = Cleanup
   <-> forall k, is_Some (st !! k) ->
         String.prefix
           (createPrimaryKeySetStorageKeyPrefix (parentKeyValueOf j node)) k
         = true ->
         k = storageKeyOf j node).
Proof.
  intros Hown.
  rewrite <- (scan_short_iff _ st _ Hown (prefix_of_storageKeyOf j node)).
  unfold cleanupMethod.
  destruct (Nat.leb_spec 2
              (List.length
                 (storage_scan
                    (createPrimaryKeySetStorageKeyPrefix
                       (parentKeyValueOf j node)) st))) as [Hle | Hlt].
  - split; [discriminate | lia].
  - split; [intros _; exact Hlt | reflexivity].
Qed.

Lemma processParentNodes_fetch (j : Join) (nodes : list Node) :
  forall st,
    fst (processParentNodes j st nodes Fetch)
    = List.map (joinedNode j Fetch) nodes
    /\ forall k,
         snd (processParentNodes j st nodes Fetch) !! k
         = if bool_decide (k ∈ List.map (storageKeyOf j) nodes)
           then Some true else st !! k.
Proof.
  induction nodes as [| node nodes IH]; intros st.
  - split; [reflexivity |]. intros k. cbn [List.map processParentNodes snd].
    rewrite bool_decide_eq_false_2; [reflexivity | apply not_elem_of_nil].
  - cbn [processParentNodes]. rewrite processParentNode_fetch.
    destruct (IH (<[storageKeyOf j node := true]> st)) as [Hnodes Hst].
    destruct (processParentNodes j (<[storageKeyOf j node := true]> st)
                nodes Fetch) as [out st'].
    cbn [fst snd] in *. split; [now rewrite Hnodes |].
    intros k. rewrite Hst. cbn [List.map].
    destruct (decide (k ∈ List.map (storageKeyOf j) nodes)) as [Hin | Hin].
    + rewrite !bool_decide_eq_true_2;
        [reflexivity | now apply list_elem_of_further | exact Hin].
    + rewrite (bool_decide_eq_false_2 _ Hin).
      destruct (decide (storageKeyOf j node = k)) as [<- | Hne].
      * rewrite lookup_insert_eq, bool_decide_eq_true_2;
          [reflexivity | apply list_elem_of_here].
      * rewrite lookup_insert_ne by exact Hne.
        rewrite bool_decide_eq_false_2; [reflexivity |].
        intros H. apply elem_of_cons in H as [H | H];
          [exact (Hne (eq_sym H)) | exact (Hin H)].
Qed.

Lemma processParentNodes_cleanup (j : Join) (nodes : list Node) :
  forall st,
    List.map row (fst (processParentNodes j st nodes Cleanup))
    = List.map row nodes
    /\ forall k,
         snd (processParentNodes j st nodes Cleanup) !! k
         = if bool_decide (k ∈ List.map (storageKeyOf j) nodes)
           then None else st !! k.
Proof.
  induction nodes as [| node nodes IH]; intros st.
  - split; [reflexivity |]. intros k. cbn [List.map processParentNodes snd].
    rewrite bool_decide_eq_false_2; [reflexivity | apply not_elem_of_nil].
  - cbn [processParentNodes]. rewrite processParentNode_cleanup.
    destruct (IH (delete (storageKeyOf j node) st)) as [Hnodes Hst].
    destruct (processParentNodes j (delete (storageKeyOf j node) st)
                nodes Cleanup) as [out st'].
    cbn [fst snd] in *. split; [cbn [List.map]; now rewrite Hnodes |].
    intros k. rewrite Hst. cbn [List.map].
    destruct (decide (k ∈ List.map (storageKeyOf j) nodes)) as [Hin | Hin].
    + rewrite !bool_decide_eq_true_2;
        [reflexivity | now apply list_elem_of_further | exact Hin].
    + rewrite (bool_decide_eq_false_2 _ Hin).
      destruct (decide (storageKeyOf j node = k)) as [<- | Hne].
      * rewrite lookup_delete_eq, bool_decide_eq_true_2;
          [reflexivity | apply list_elem_of_here].
      * rewrite lookup_delete_ne by exact Hne.
        rewrite bool_decide_eq_false_2; [reflexivity |].
        intros H. apply elem_of_cons in H as [H | H];
          [exact (Hne (eq_sym H)) | exact (Hin H)].
Qed.

(** X6.  What [fetch] and [cleanup] do to the storage, and their round
    trip.  [fetch] yields one node per parent node, in order, with the row
    and the relationships of the parent and the child pulled with [fetch]
    for its join value; it sets the storage key of every parent it yields
    and touches no other key.  [cleanup] yields one node per parent node
    with the same rows, deletes the key of each and touches no other key.
    So when the parent answers [cleanup] with the nodes it answered [fetch]
    with, and none of their keys was stored before, a fetch followed by a
    cleanup leaves the storage as it was. *)
Theorem fetch_cleanup_storage (j : Join) (st : Storage) (req : FetchRequest) :
  let parents := input_fetch (parent j) req in
  let keys := List.map (storageKeyOf j) parents in
  fst (fetch j st req) = List.map (joinedNode j Fetch) parents
  /\ (forall k,
         snd (fetch j st req) !! k
         = if bool_decide (k ∈ keys) then Some true else st !! k)
  /\ List.map row (fst (cleanup j st req))
     = List.map row (input_cleanup (parent j) req)
  /\ (forall k,
         snd (cleanup j st req) !! k
         = if bool_decide
                (k ∈ List.map (storageKeyOf j) (input_cleanup (parent j) req))
           then None else st !! k)
  /\ (input_cleanup (parent j) req = parents ->
      (forall k, k ∈ keys -> st !! k = None) ->
      snd (cleanup j (snd (fetch j st req)) req) = st).
Proof.
  intros parents keys. unfold fetch, cleanup. fold parents.
  destruct (processParentNodes_fetch j parents st) as [Hnodes Hst].
  split; [exact Hnodes |]. split; [exact Hst |].
  split; [apply processParentNodes_cleanup |].
  split; [apply processParentNodes_cleanup |].
  intros -> Hfresh. apply map_eq. intros k.
  rewrite (proj2 (processParentNodes_cleanup j parents _) k), Hst.
  fold keys. destruct (bool_decide_reflect (k ∈ keys)) as [Hin | Hin];
    [symmetry; exact (Hfresh k Hin) | reflexivity].
Qed.

Lemma fetch_cleanup_storage_witness :
  snd (cleanup exampleJoin
         (snd (fetch exampleJoin ∅ {| constraint := None |}))
         {| constraint := None |})
  = ∅.
Proof.
  apply (fetch_cleanup_storage exampleJoin ∅ {| constraint := None |}).
  - reflexivity.
  - intros k _. apply lookup_empty.
Defined.

Lemma cleanup_run (j : Join) (v : NormalizedValue) (parents : list Node)
  (final : Node) :
  forall st,
    (forall p, p ∈ (parents ++ [final])%list -> parentKeyValueOf j p = v) ->
    NoDup (List.map (storageKeyOf j) (parents ++ [final])%list) ->
    (forall k,
        String.prefix (createPrimaryKeySetStorageKeyPrefix v) k = true ->
        (is_Some (st !! k)
         <-> k ∈ List.map (storageKeyOf j) (parents ++ [final])%list)) ->
    fst (processParentNodes j st (parents ++ [final])%list Cleanup)
    = (List.map (joinedNode j Fetch) parents
         ++ [joinedNode j Cleanup final])%list.
Proof.
  induction parents as [| p parents IH]; intros st Hv Hnd Hst.
  - cbn [app processParentNodes List.map fst].
    rewrite processParentNode_cleanup. cbn [fst].
    assert (Hfinal : parentKeyValueOf j final = v)
      by (apply Hv, list_elem_of_here).
    assert (Hown : is_Some (st !! storageKeyOf j final)).
    { apply Hst; [| apply list_elem_of_here].
      rewrite <- Hfinal. apply prefix_of_storageKeyOf. }
    rewrite (proj2 (cleanupMethod_iff j st final Hown)); [reflexivity |].
    intros k Hk Hp. rewrite Hfinal in Hp.
    apply (Hst k Hp) in Hk. now apply list_elem_of_singleton in Hk.
  - cbn [app processParentNodes List.map] in *.
    rewrite processParentNode_cleanup.
    assert (Hp : parentKeyValueOf j p = v) by (apply Hv, list_elem_of_here).
    apply NoDup_cons in Hnd as [Hfresh Hnd].
    assert (Hmethod : cleanupMethod j st p = Fetch).
    { destruct (cleanupMethod j st p) eqn:Hm; [reflexivity | exfalso].
      assert (Hown : is_Some (st !! storageKeyOf j p)).
      { apply Hst; [| apply list_elem_of_here].
        rewrite <- Hp. apply prefix_of_storageKeyOf. }
      pose proof (proj1 (cleanupMethod_iff j st p Hown) Hm) as Honly.
      assert (Hin : storageKeyOf j final
                    ∈ List.map (storageKeyOf j) (parents ++ [final])%list).
      { apply list_elem_of_fmap_2, elem_of_app. right.
        apply list_elem_of_here. }
      assert (Hpre : String.prefix (createPrimaryKeySetStorageKeyPrefix v)
                       (storageKeyOf j final) = true).
      { rewrite <- (Hv final).
        - apply prefix_of_storageKeyOf.
        - apply list_elem_of_further, elem_of_app. right.
          apply list_elem_of_here. }
      apply Hfresh. rewrite <- (Honly (storageKeyOf j final)); [exact Hin | |].
      - apply Hst; [exact Hpre | now apply list_elem_of_further].
      - now rewrite Hp. }
    rewrite Hmethod.
    specialize (IH (delete (storageKeyOf j p) st)).
    destruct (processParentNodes j (delete (storageKeyOf j p) st)
                (parents ++ [final])%list Cleanup) as [out st'].
    cbn [fst] in *. f_equal. apply IH.
    + intros q Hq. apply Hv. now apply list_elem_of_further.
    + exact Hnd.
    + intros k Hk.
      destruct (decide (storageKeyOf j p = k)) as [<- | Hne].
      * rewrite lookup_delete_eq. split; [intros [? H]; discriminate H |].
        intros H. destruct (Hfresh H).
      * rewrite lookup_delete_ne by exact Hne. rewrite (Hst k Hk).
        rewrite elem_of_cons. split; [| now right].
        intros [H | H]; [destruct (Hne (eq_sym H)) | exact H].
Qed.

(** X7.  Among parents that share a join value, only the last one cleaned
    up takes the child with it.  Let the parent answer [fetch] and
    [cleanup] with the same nodes, all with the join value [v] and with
    pairwise different storage keys, and let the storage hold no entry for
    [v] beforehand.  Then the cleanup that follows the fetch pulls the
    child with [fetch] for every parent but the last and with [cleanup]
    for the last, and leaves the storage as it was before the fetch. *)
Theorem cleanup_pulls_child_cleanup_last (j : Join) (st : Storage)
  (req : FetchRequest) (v : NormalizedValue) (parents : list Node)
  (final : Node) :
  input_fetch (parent j) req = (parents ++ [final])%list ->
  input_cleanup (parent j) req = (parents ++ [final])%list ->
  (forall p, p ∈ (parents ++ [final])%list -> parentKeyValueOf j p = v) ->
  NoDup (List.map (storageKeyOf j) (parents ++ [final])%list) ->
  noEntryFor v st ->
  cleanup j (snd (fetch j st req)) req
  = ((List.map (joinedNode j Fetch) parents
        ++ [joinedNode j Cleanup final])%list,
     st).
Proof.
  intros Hfetch Hcleanup Hv Hnd Hnone.
  unfold fetch, cleanup. rewrite Hfetch, Hcleanup.
  set (all := (parents ++ [final])%list) in *.
  destruct (processParentNodes_fetch j all st) as [_ Hfetched].
  assert (Hkey : forall k, k ∈ List.map (storageKeyOf j) all ->
            String.prefix (createPrimaryKeySetStorageKeyPrefix v) k = true).
  { intros k Hk. apply list_elem_of_fmap in Hk as [p [-> Hp]].
    rewrite <- (Hv p Hp). apply prefix_of_storageKeyOf. }
  apply injective_projections.
  - apply (cleanup_run j v parents final); [exact Hv | exact Hnd |].
    intros k Hk. fold all. rewrite Hfetched.
    destruct (bool_decide_reflect (k ∈ List.map (storageKeyOf j) all))
      as [Hin | Hin].
    + split; [intros _; exact Hin | intros _; now eexists].
    + split; [| intros H; destruct (Hin H)].
      intros H. apply Hnone in H. congruence.
  - cbn [snd]. apply map_eq. intros k.
    rewrite (proj2 (processParentNodes_cleanup j all _) k), Hfetched.
    destruct (bool_decide_reflect (k ∈ List.map (storageKeyOf j) all))
      as [Hin | Hin]; [| reflexivity].
    destruct (st !! k) as [b |] eqn:Hk; [| reflexivity].
    pose proof (Hnone k (ex_intro _ b Hk)) as H.
    rewrite (Hkey k Hin) in H. discriminate H.
Qed.

Lemma cleanup_pulls_child_cleanup_last_witness :
  cleanup threeParents
    (snd (fetch threeParents ∅ {| constraint := None |}))
    {| constraint := None |}
  = ([joinedNode threeParents Fetch parentNode1;
      joinedNode threeParents Fetch parentNode2;
      joinedNode threeParents Cleanup parentNode3],
     ∅).
Proof.
  apply (cleanup_pulls_child_cleanup_last threeParents ∅
           {| constraint := None |} (VString "u1")
           [parentNode1; parentNode2] parentNode3).
  - reflexivity.
  - reflexivity.
  - intros p Hp. repeat (apply elem_of_cons in Hp as [-> | Hp];
                         [reflexivity |]).
    now apply elem_of_nil in Hp.
  - apply (bool_decide_unpack _). vm_compute. reflexivity.
  - intros k [b Hk]. rewrite lookup_empty in Hk. discriminate Hk.
Defined.

Lemma concat_terminated (l : list NormalizedValue) :
  forall x,
    String.concat "," (x :: List.map jsonValue l) +:+ ","
    = (x +:+ ",") +:+ terminatedValues l.
Proof.
  induction l as [| v l IH]; intros x.
  - cbn [List.map String.concat terminatedValues].
    now rewrite str_append_nil_r.
  - change (String.concat "," (x :: List.map jsonValue (v :: l)))
      with (x +:+ ("," +:+ String.concat "," (jsonValue v :: List.map jsonValue l))).
    rewrite !str_append_assoc, IH. cbn [terminatedValues].
    rewrite !str_append_assoc. reflexivity.
Qed.

Lemma createPrimaryKeySetStorageKey_terminated (values : list NormalizedValue) :
  createPrimaryKeySetStorageKey values
  = (quoteJSONString "pKeySet" +:+ ",") +:+ terminatedValues values.
Proof.
  rewrite createPrimaryKeySetStorageKey_unfold. apply concat_terminated.
Qed.

Lemma terminatedValues_inj (vs : list NormalizedValue) :
  forall ws,
    forallb finiteValue vs = true -> forallb finiteValue ws = true ->
    terminatedValues vs = terminatedValues ws -> vs = ws.
Proof.
  induction vs as [| v vs IH]; intros [| w ws] Hvs Hws H.
  - reflexivity.
  - exfalso. cbn [terminatedValues] in H.
    destruct (jsonValue w); discriminate H.
  - exfalso. cbn [terminatedValues] in H.
    destruct (jsonValue v); discriminate H.
  - cbn [forallb] in Hvs, Hws.
    apply andb_prop in Hvs as [Hv Hvs]. apply andb_prop in Hws as [Hw Hws].
    cbn [terminatedValues] in H.
    pose proof (jsonValue_terminated v w _ _ Hv Hw H) as ->.
    apply str_append_cancel_l in H. injection H as H.
    f_equal. now apply IH.
Qed.

(** X8.  Storage keys do not collide.  Two lists of values that differ, and
    that hold no non-finite number, get different storage keys from
    [createPrimaryKeySetStorageKey]: a string with a comma or a quote is
    not mistaken for two values, a number not for the string of its digits,
    a shorter list not for a longer one.  So two parents share an entry of
    the storage only when they agree on the join value and on every column
    of the primary key. *)
Theorem createPrimaryKeySetStorageKey_injective
  (vs ws : list NormalizedValue) :
  forallb finiteValue vs = true -> forallb finiteValue ws = true ->
  vs <> ws ->
  createPrimaryKeySetStorageKey vs <> createPrimaryKeySetStorageKey ws.
Proof.
  intros Hvs Hws Hne H. apply Hne.
  rewrite !createPrimaryKeySetStorageKey_terminated in H.
  apply str_append_cancel_l in H.
  now apply terminatedValues_inj.
Qed.

Lemma createPrimaryKeySetStorageKey_injective_witness :
  createPrimaryKeySetStorageKey [VString "a,b"; VNumber (Int 1)]
  <> createPrimaryKeySetStorageKey [VString "a"; VString "b"; VString "1"].
Proof.
  apply createPrimaryKeySetStorageKey_injective;
    [reflexivity | reflexivity | discriminate].
Defined.

(** X9.  Changes pushed by the parent.  Without an output every push
    throws.  With one, an [add] is passed on with the node processed in
    fetch mode and records the key of the parent; a [remove] is passed on
    with the node processed in cleanup mode and deletes the key; a [child]
    change is passed on as it is and leaves the storage alone.  Each push
    hands exactly one change to the output.  An [add] followed by the
    [remove] of the same node, with no entry for its join value stored
    beforehand, pulls the child with [cleanup] and restores the storage. *)
Theorem push_from_parent (j : Join) (st : Storage) (node : Node) :
  (output j = false ->
   forall change from, push j st change from = Throw "Output not set")
  /\ (output j = true ->
      push j st (AddChange node) FromParent
      = Ok ([AddChange (joinedNode j Fetch node)],
            <[storageKeyOf j node := true]> st)
      /\ push j st (RemoveChange node) FromParent
         = Ok ([RemoveChange (joinedNode j (cleanupMethod j st node) node)],
               delete (storageKeyOf j node) st)
      /\ (forall r name change,
            push j st (ChildChange r name change) FromParent
            = Ok ([ChildChange r name change], st))
      /\ (noEntryFor (parentKeyValueOf j node) st ->
          push j (<[storageKeyOf j node := true]> st) (RemoveChange node)
            FromParent
          = Ok ([RemoveChange (joinedNode j Cleanup node)], st))).
Proof.
  split.
  - intros Hout change from. unfold push. now rewrite Hout.
  - intros Hout. unfold push. rewrite Hout. cbn [negb].
    rewrite processParentNode_fetch, !processParentNode_cleanup.
    split; [reflexivity |]. split; [reflexivity |].
    split; [reflexivity |].
    intros Hnone.
    assert (Hfresh : st !! storageKeyOf j node = None).
    { destruct (st !! storageKeyOf j node) as [b |] eqn:Hk; [| reflexivity].
      pose proof (Hnone _ (ex_intro _ b Hk)) as H.
      rewrite prefix_of_storageKeyOf in H. discriminate H. }
    rewrite delete_insert_eq, (delete_id _ _ Hfresh).
    rewrite (proj2 (cleanupMethod_iff j _ node
                      (ex_intro _ true (lookup_insert_eq _ _ _))));
      [reflexivity |].
    intros k [b Hk] Hp.
    destruct (decide (storageKeyOf j node = k)) as [E | E]; [now symmetry |].
    rewrite lookup_insert_ne in Hk by exact E.
    pose proof (Hnone _ (ex_intro _ b Hk)) as H. congruence.
Qed.

Lemma push_from_parent_witness :
  push exampleJoin ∅ (AddChange parentNode1) FromParent
  = Ok ([AddChange (joinedNode exampleJoin Fetch parentNode1)],
        <[storageKeyOf exampleJoin parentNode1 := true]> ∅)
  /\ push exampleJoin (<[storageKeyOf exampleJoin parentNode1 := true]> ∅)
       (RemoveChange parentNode1) FromParent
     = Ok ([RemoveChange (joinedNode exampleJoin Cleanup parentNode1)], ∅).
Proof.
  destruct (proj2 (push_from_parent exampleJoin ∅ parentNode1) eq_refl)
    as [Hadd [_ [_ Hround]]].
  split; [exact Hadd |]. apply Hround.
  intros k [b Hk]. rewrite lookup_empty in Hk. discriminate Hk.
Defined.

End JoinBookkeepingFacts.

(** *** The reducer of GROUP BY *)

Section ReducerFacts.
Import Js Ast PipelineBuilder PipelineProperties PipelineMore.

Lemma safeSums_head (sum : Z) (ints : list Z) :
  safeSums sum ints = true -> isSafeInteger sum = true.
Proof.
  destruct ints as [| z rest]; cbn [safeSums]; [auto |].
  intros H. apply andb_prop in H as [H _]. now apply andb_prop in H as [H _].
Qed.

Lemma isSafeInteger_between (lo z hi : Z) :
  isSafeInteger lo = true -> isSafeInteger hi = true ->
  lo <= z <= hi -> isSafeInteger z = true.
Proof.
  unfold isSafeInteger. intros Hlo Hhi Hz.
  apply andb_prop in Hlo as [Hlo _]. apply andb_prop in Hhi as [_ Hhi].
  apply Z.leb_le in Hlo, Hhi.
  apply andb_true_intro. split; apply Z.leb_le; lia.
Qed.

Lemma forOf_count (values : list JsValue) :
  forall count,
    0 <= count ->
    isSafeInteger (count + Z.of_nat (List.length values)) = true ->
    forOf values (fun count _ => numberAdd count (Int 1)) (Int count)
    = Some (Int (count + Z.of_nat (List.length values))).
Proof.
  induction values as [| x values IH]; intros count Hpos Hsafe.
  - cbn [forOf List.length]. do 2 f_equal. lia.
  - cbn [forOf numberAdd]. cbn [List.length] in Hsafe.
    assert (H0 : isSafeInteger 0 = true) by reflexivity.
    rewrite (isSafeInteger_between 0 count _ H0 Hsafe) by lia.
    rewrite (isSafeInteger_between 0 1 _ H0 Hsafe) by lia.
    rewrite (isSafeInteger_between 0 (count + 1) _ H0 Hsafe) by lia.
    cbn [andb]. rewrite IH.
    + do 2 f_equal. cbn [List.length]. lia.
    + lia.
    + replace (count + 1 + Z.of_nat (List.length values))
        with (count + Z.of_nat (S (List.length values))) by lia.
      exact Hsafe.
Qed.

Lemma numberAdd_safe (sum z : Z) (rest : list Z) :
  safeSums sum (z :: rest) = true ->
  numberAdd (Int sum) (Int z) = Some (Int (sum + z))
  /\ safeSums (sum + z) rest = true.
Proof.
  cbn [safeSums numberAdd]. intros H.
  apply andb_prop in H as [H Hrest]. apply andb_prop in H as [Hsum Hz].
  now rewrite Hsum, Hz, (safeSums_head _ _ Hrest).
Qed.

Lemma safeSums_total (ints : list Z) :
  forall sum,
    safeSums sum ints = true -> isSafeInteger (sum + sumZ ints) = true.
Proof.
  induction ints as [| z rest IH]; intros sum H.
  - cbn [sumZ fold_right]. now rewrite Z.add_0_r.
  - destruct (numberAdd_safe _ _ _ H) as [_ Hrest].
    specialize (IH _ Hrest). unfold sumZ in *. cbn [fold_right].
    now rewrite Z.add_assoc.
Qed.

Lemma forOf_sum (field : string) (values : list JsValue) (ints : list Z) :
  integerColumn field values ints ->
  forall sum,
    safeSums sum ints = true ->
    forOf values (fun sum value => jsAdd sum (getProp value field))
      (JNumber (Int sum))
    = Some (JNumber (Int (sum + sumZ ints))).
Proof.
  induction 1 as [| x z values ints Hx _ IH]; intros sum Hsafe.
  - cbn [forOf sumZ fold_right]. now rewrite Z.add_0_r.
  - destruct (numberAdd_safe _ _ _ Hsafe) as [Hadd Hrest].
    cbn [forOf]. rewrite Hx. cbn [jsAdd toNumber]. rewrite Hadd.
    cbn [option_map]. rewrite (IH _ Hrest).
    f_equal. f_equal. f_equal. unfold sumZ. cbn [fold_right]. lia.
Qed.

Lemma forOf_avg (field : string) (values : list JsValue) (ints : list Z) :
  integerColumn field values ints ->
  forall sum count,
    safeSums sum ints = true ->
    0 <= count ->
    isSafeInteger (count + Z.of_nat (List.length ints)) = true ->
    forOf values
      (fun '(sum, count) value =>
         match jsAdd sum (getProp value field) with
         | Some sum' =>
             option_map (fun count' => (sum', count'))
               (numberAdd count (Int 1))
         | None => None
         end)
      (JNumber (Int sum), Int count)
    = Some (JNumber (Int (sum + sumZ ints)),
            Int (count + Z.of_nat (List.length ints))).
Proof.
  induction 1 as [| x z values ints Hx _ IH]; intros sum count Hsafe Hpos Hlen.
  - cbn [forOf sumZ fold_right List.length]. do 2 f_equal.
    + do 2 f_equal. lia.
    + f_equal. lia.
  - destruct (numberAdd_safe _ _ _ Hsafe) as [Hadd Hrest].
    cbn [forOf]. rewrite Hx. cbn [jsAdd toNumber]. rewrite Hadd.
    cbn [option_map numberAdd]. cbn [List.length] in Hlen.
    assert (H0 : isSafeInteger 0 = true) by reflexivity.
    rewrite (isSafeInteger_between 0 count _ H0 Hlen) by lia.
    rewrite (isSafeInteger_between 0 1 _ H0 Hlen) by lia.
    rewrite (isSafeInteger_between 0 (count + 1) _ H0 Hlen) by lia.
    cbn [andb option_map]. rewrite (IH _ _ Hrest).
    + unfold sumZ. cbn [fold_right List.length].
      do 2 f_equal; [do 2 f_equal | f_equal]; lia.
    + lia.
    + replace (count + 1 + Z.of_nat (List.length ints))
        with (count + Z.of_nat (S (List.length ints))) by lia.
      exact Hlen.
Qed.

Lemma forOf_min (field : string) (values : list JsValue) (ints : list Z) :
  integerColumn field values ints ->
  forall m,
    forOf values
      (fun min value =>
         let newValue := getProp value field in
         if isUndefined min then Some newValue
         else
           option_map (fun gt => if gt : bool then newValue else min)
             (jsLess newValue min))
      (JNumber (Int m))
    = Some (JNumber (Int (least m ints))).
Proof.
  induction 1 as [| x z values ints Hx _ IH]; intros m; [reflexivity |].
  cbn [forOf]. rewrite Hx.
  cbn [isUndefined jsLess numberLess option_map].
  unfold least. cbn [fold_left].
  destruct (Z.ltb_spec z m) as [Hlt | Hge].
  - rewrite IH. unfold least. now rewrite Z.min_r by lia.
  - rewrite IH. unfold least. now rewrite Z.min_l by lia.
Qed.

Lemma forOf_max (field : string) (values : list JsValue) (ints : list Z) :
  integerColumn field values ints ->
  forall m,
    forOf values
      (fun max value =>
         let newValue := getProp value field in
         if isUndefined max then Some newValue
         else
           option_map (fun lt => if lt : bool then newValue else max)
             (jsLess max newValue))
      (JNumber (Int m))
    = Some (JNumber (Int (greatest m ints))).
Proof.
  induction 1 as [| x z values ints Hx _ IH]; intros m; [reflexivity |].
  cbn [forOf]. rewrite Hx.
  cbn [isUndefined jsLess numberLess option_map].
  unfold greatest. cbn [fold_left].
  destruct (Z.ltb_spec m z) as [Hlt | Hge].
  - rewrite IH. unfold greatest. now rewrite Z.max_r by lia.
  - rewrite IH. unfold greatest. now rewrite Z.max_l by lia.
Qed.

(** X10.  What the aggregations of a group compute on a column of safe
    integers (integers that a double holds exactly) in a group of a safe
    number of rows.  [count] is the number of rows of the group; [min] and
    [max] are the least and the greatest value, and [undefined] for no row;
    [array] lists the values in the order of the rows.  When adding the
    values one after the other never leaves the safe integers, [sum] is the
    sum of the column, and [avg] is the sum divided by the number of rows
    (stated where the quotient is an integer). *)
Theorem aggregateValue_integer_column (field : option string)
  (alias : string) (values : list JsValue) (ints : list Z) :
  integerColumn (propertyKey field) values ints ->
  List.forallb isSafeInteger ints = true ->
  isSafeInteger (Z.of_nat (List.length values)) = true ->
  aggregateValue (aggregation Count field alias) values
  = Some (JNumber (Int (Z.of_nat (List.length values))))
  /\ (safeSums 0 ints = true ->
      aggregateValue (aggregation Sum field alias) values
      = Some (JNumber (Int (sumZ ints))))
  /\ (safeSums 0 ints = true ->
      ints <> [] ->
      sumZ ints mod Z.of_nat (List.length ints) = 0 ->
      aggregateValue (aggregation Avg field alias) values
      = Some (JNumber (Int (sumZ ints / Z.of_nat (List.length ints)))))
  /\ aggregateValue (aggregation Min field alias) values
     = Some (match ints with
             | [] => JUndefined
             | z :: zs => JNumber (Int (least z zs))
             end)
  /\ aggregateValue (aggregation Max field alias) values
     = Some (match ints with
             | [] => JUndefined
             | z :: zs => JNumber (Int (greatest z zs))
             end)
  /\ aggregateValue (aggregation Array field alias) values
     = Some (JArray (List.map (fun z => JNumber (Int z)) ints)).
Proof.
  intros Hcol Hints Hlen. unfold aggregateValue, aggregation.
  cbn [agg_aggregate agg_field].
  assert (Hsame : List.length ints = List.length values).
  { clear Hints Hlen. induction Hcol as [| x z values ints _ _ IH];
      [reflexivity |].
    cbn [List.length]. now rewrite IH. }
  split.
  { rewrite forOf_count; [reflexivity | lia | exact Hlen]. }
  split; [intros Hsafe; now rewrite (forOf_sum _ _ _ Hcol) |].
  split.
  { intros Hsafe Hne Hmod. rewrite (forOf_avg _ _ _ Hcol).
    - rewrite !Z.add_0_l. unfold jsDivide. cbn [toNumber numberDivide].
      destruct (Z.eqb_spec (Z.of_nat (List.length ints)) 0) as [E | _].
      + destruct ints; [congruence | discriminate E].
      + pose proof (safeSums_total _ _ Hsafe) as Htotal.
        rewrite Z.add_0_l in Htotal.
        rewrite <- Hsame in Hlen. now rewrite Htotal, Hlen, Hmod.
    - exact Hsafe.
    - lia.
    - now rewrite Z.add_0_l, Hsame. }
  split; [| split].
  - destruct Hcol as [| x z values ints Hx Hcol]; [reflexivity |].
    cbn [forOf isUndefined]. rewrite Hx. apply (forOf_min _ _ _ Hcol).
  - destruct Hcol as [| x z values ints Hx Hcol]; [reflexivity |].
    cbn [forOf isUndefined]. rewrite Hx. apply (forOf_max _ _ _ Hcol).
  - f_equal. f_equal. clear Hints Hlen Hsame.
    induction Hcol as [| x z values ints Hx _ IH]; [reflexivity |].
    cbn [List.map]. now rewrite Hx, IH.
Qed.

Lemma aggregateValue_integer_column_witness :
  aggregateValue (aggregation Count (Some "v") "n") [rowA1; rowA2; rowB]
  = Some (JNumber (Int 3))
  /\ aggregateValue (aggregation Sum (Some "v") "n") [rowA1; rowA2; rowB]
     = Some (JNumber (Int 8))
  /\ aggregateValue (aggregation Min (Some "v") "n") [rowA1; rowA2; rowB]
     = Some (JNumber (Int 1))
  /\ aggregateValue (aggregation Max (Some "v") "n") [rowA1; rowA2; rowB]
     = Some (JNumber (Int 5)).
Proof.
  assert (Hcol : integerColumn "v" [rowA1; rowA2; rowB] [1; 2; 5])
    by (repeat constructor).
  destruct (aggregateValue_integer_column (Some "v") "n"
              [rowA1; rowA2; rowB] [1; 2; 5] Hcol eq_refl eq_refl)
    as [Hcount [Hsum [_ [Hmin [Hmax _]]]]].
  split; [exact Hcount |]. split; [exact (Hsum eq_refl) |].
  split; assumption.
Defined.

(** Beyond the safe integers the development gives no sum: the source adds
    doubles, which round there. *)
Lemma aggregateValue_sum_beyond_safe :
  aggregateValue (aggregation Sum (Some "v") "n")
    [groupedRow "r1" "a" (2 ^ 53 - 1); groupedRow "r2" "a" 2]
  = None.
Proof. reflexivity. Qed.

Lemma lookupProp_assignProp (props : list (string * JsValue)) (k k' : string)
  (v : JsValue) :
  lookupProp (assignProp props k v) k'
  = if String.eqb k k' then v else lookupProp props k'.
Proof.
  induction props as [| [k0 v0] props IH].
  - cbn [assignProp lookupProp]. reflexivity.
  - cbn [assignProp lookupProp].
    destruct (String.eqb_spec k0 k) as [-> | Hne].
    + cbn [lookupProp]. destruct (String.eqb k k'); reflexivity.
    + cbn [lookupProp]. rewrite IH.
      destruct (String.eqb_spec k0 k') as [-> | _]; [| reflexivity].
      destruct (String.eqb_spec k k') as [E | _]; [| reflexivity].
      now destruct Hne.
Qed.

(** Writing a property of an object leaves an object, and changes what is
    read under that name only; nothing is read back from [__proto__]. *)
Lemma setProp_object (sym : bool) (props : list (string * JsValue))
  (k : string) (v : JsValue) :
  exists props',
    setProp (JObject sym props) k v = JObject sym props'
    /\ forall k', k' <> "__proto__" ->
         lookupProp props' k'
         = if String.eqb k k' then v else lookupProp props k'.
Proof.
  cbn [setProp]. unfold reachesProtoSetter.
  destruct (String.eqb_spec k "__proto__") as [-> | Hk];
    [destruct (hasOwnProp props "__proto__") |]; cbn [negb andb].
  - eexists. split; [reflexivity |]. intros k' _.
    apply lookupProp_assignProp.
  - exists props. split; [reflexivity |]. intros k' Hk'.
    destruct (String.eqb_spec "__proto__" k') as [E | _]; [| reflexivity].
    now destruct Hk'.
  - eexists. split; [reflexivity |]. intros k' _.
    apply lookupProp_assignProp.
Qed.

Lemma groupReducer_fold_none (values : list JsValue)
  (aggregations : list Aggregation) :
  List.fold_left
    (fun ret aggregation =>
       match ret, aggregateValue aggregation values with
       | Some ret, Some v =>
           if setsPrototype ret (agg_alias aggregation) v then None
           else Some (setProp ret (agg_alias aggregation) v)
       | _, _ => None
       end)
    aggregations None
  = None.
Proof. induction aggregations as [| a rest IH]; [reflexivity | exact IH]. Qed.

Lemma groupReducer_fold (values : list JsValue)
  (aggregations : list Aggregation) :
  forall sym props,
    match
      List.fold_left
        (fun ret aggregation =>
           match ret, aggregateValue aggregation values with
           | Some ret, Some v =>
               if setsPrototype ret (agg_alias aggregation) v then None
               else Some (setProp ret (agg_alias aggregation) v)
           | _, _ => None
           end)
        aggregations (Some (JObject sym props))
    with
    | Some ret =>
        allAggregate aggregations values = true
        /\ forall k, k <> "__proto__" ->
             match lastWithAlias k aggregations with
             | Some a => aggregateValue a values = Some (getProp ret k)
             | None => getProp ret k = lookupProp props k
             end
    | None =>
        plainAliases aggregations = true ->
        allAggregate aggregations values = false
    end.
Proof.
  unfold allAggregate, plainAliases.
  induction aggregations as [| a rest IH]; intros sym props.
  - cbn [fold_left lastWithAlias forallb]. auto.
  - cbn [fold_left lastWithAlias forallb].
    destruct (aggregateValue a values) as [v |] eqn:Ha.
    + rewrite bool_decide_eq_false_2 by discriminate. cbn [negb andb].
      destruct (setProp_object sym props (agg_alias a) v)
        as [props' [Hset Hread]].
      destruct (setsPrototype (JObject sym props) (agg_alias a) v) eqn:Hproto.
      * rewrite groupReducer_fold_none. intros Hplain.
        apply andb_prop in Hplain as [Hplain _].
        cbn [setsPrototype] in Hproto. unfold reachesProtoSetter in Hproto.
        apply negb_true_iff in Hplain. rewrite Hplain in Hproto.
        discriminate Hproto.
      * rewrite Hset. specialize (IH sym props').
        match goal with
        | |- match ?r with _ => _ end => destruct r as [ret |]
        end.
        -- destruct IH as [Hall Hk]. split; [exact Hall |].
           intros k Hne. specialize (Hk k Hne).
           destruct (lastWithAlias k rest) as [a' |]; [exact Hk |].
           rewrite Hk, (Hread k Hne).
           destruct (String.eqb (agg_alias a) k); [exact Ha | reflexivity].
        -- intros Hplain. apply andb_prop in Hplain as [_ Hplain].
           exact (IH Hplain).
    + rewrite groupReducer_fold_none, bool_decide_eq_true_2 by reflexivity.
      intros _. reflexivity.
Qed.

(** X11.  The row of a group.  When the reducer returns a row, every
    aggregation has a value, and under every property name other than
    [__proto__] the row has the value of the last aggregation whose alias
    is that name, or else what the first row of the group has there: an
    alias hides a column of the same name, and a repeated alias keeps the
    later aggregation.  An aggregation with the alias [__proto__] changes
    none of these properties.  When no alias is [__proto__], the reducer
    returns a row as soon as every aggregation has a value. *)
Theorem groupReducer_row (aggregations : list Aggregation)
  (values : list JsValue) :
  (forall ret,
      groupReducer aggregations values = Some ret ->
      allAggregate aggregations values = true
      /\ forall k, k <> "__proto__" ->
           match lastWithAlias k aggregations with
           | Some a => aggregateValue a values = Some (getProp ret k)
           | None => getProp ret k = getProp (List.hd JUndefined values) k
           end)
  /\ (plainAliases aggregations = true ->
      allAggregate aggregations values = true ->
      exists ret, groupReducer aggregations values = Some ret).
Proof.
  unfold groupReducer.
  assert (H : exists sym props,
    match List.hd JUndefined values with
    | JObject sym props => JObject sym props
    | _ => JObject false []
    end = JObject sym props
    /\ forall k, lookupProp props k = getProp (List.hd JUndefined values) k).
  { destruct (List.hd JUndefined values) as [| | b | n | s | l | sym props];
      try (exists false, []; split; reflexivity).
    exists sym, props. split; reflexivity. }
  destruct H as [sym [props [-> Hfirst]]].
  pose proof (groupReducer_fold values aggregations sym props) as Hfold.
  destruct (fold_left _ aggregations _) as [ret |].
  - destruct Hfold as [Hall Hk]. split.
    + intros ret' Hret. injection Hret as <-. split; [exact Hall |].
      intros k Hne. specialize (Hk k Hne). rewrite <- Hfirst.
      exact Hk.
    + intros _ _. now exists ret.
  - split; [discriminate |].
    intros Hplain Hall. rewrite (Hfold Hplain) in Hall. discriminate Hall.
Qed.

(** The example rows: the group row of [a] shows the count and the sum, and
    the columns of the first row; an alias that names a column hides it. *)
Lemma groupReducer_row_witness :
  exists ret,
    groupReducer
      (countAndSum ++ [aggregation Max (Some "v") "g"]) [rowA1; rowA2]
    = Some ret
    /\ getProp ret "count" = JNumber (Int 2)
    /\ getProp ret "sum" = JNumber (Int 3)
    /\ getProp ret "id" = JString "r1"
    /\ getProp ret "g" = JNumber (Int 2).
Proof.
  destruct (proj2 (groupReducer_row
                     (countAndSum ++ [aggregation Max (Some "v") "g"])
                     [rowA1; rowA2]) eq_refl eq_refl) as [ret Hret].
  exists ret. split; [exact Hret |].
  destruct (proj1 (groupReducer_row _ _) ret Hret) as [_ Hk].
  pose proof (Hk "count" ltac:(discriminate)) as Hcount.
  pose proof (Hk "sum" ltac:(discriminate)) as Hsum.
  pose proof (Hk "id" ltac:(discriminate)) as Hid.
  pose proof (Hk "g" ltac:(discriminate)) as Hg.
  remember (getProp ret "count") as count eqn:Ecount.
  remember (getProp ret "sum") as sum eqn:Esum.
  remember (getProp ret "id") as id eqn:Eid.
  remember (getProp ret "g") as g eqn:Eg.
  vm_compute in Hcount, Hsum, Hid, Hg.
  repeat split; congruence.
Defined.

(** The alias [__proto__] stores nothing in the group row: a number is
    dropped by the setter of [Object.prototype]. *)
Lemma groupReducer_proto_alias :
  groupReducer [aggregation Count None "__proto__"] [rowA1; rowA2]
  = Some rowA1.
Proof. reflexivity. Qed.

End ReducerFacts.

(** *** Group keys and selectors *)

Section GroupKeyFacts.
Import Js Ast JoinOp PipelineBuilder JoinProperties JoinBookkeeping.
Import PipelineProperties PipelineMore.

Lemma str_append_cancel_r (a b c : string) : a +:+ c = b +:+ c -> a = b.
Proof.
  revert b. induction a as [| x a IH]; intros [| y b] H.
  - reflexivity.
  - apply (f_equal String.length) in H.
    rewrite str_append_nil_l, str_append_cons in H. cbn [String.length] in H.
    rewrite str_length_append in H. lia.
  - apply (f_equal String.length) in H.
    rewrite str_append_nil_l, str_append_cons in H. cbn [String.length] in H.
    rewrite str_length_append in H. lia.
  - rewrite !str_append_cons in H. injection H as -> H. f_equal. now apply IH.
Qed.

Lemma jsonValue_nonempty (v : NormalizedValue) : jsonValue v <> EmptyString.
Proof.
  destruct v as [| [|] | [z | | |] | s]; try discriminate.
  cbn [jsonValue jsonNumber numberToString]. unfold NilZero.string_of_int.
  destruct (Z.to_int z) as [d | d]; [| discriminate].
  destruct d; discriminate.
Qed.

Lemma concat_values_inj (vs ws : list NormalizedValue) :
  forallb finiteValue vs = true -> forallb finiteValue ws = true ->
  String.concat "," (List.map jsonValue vs)
  = String.concat "," (List.map jsonValue ws) ->
  vs = ws.
Proof.
  assert (Hnil : forall w l,
    String.concat "," (List.map jsonValue (w :: l)) <> EmptyString).
  { intros w l H. apply (jsonValue_nonempty w).
    cbn [List.map String.concat] in H.
    destruct (List.map jsonValue l); [exact H |].
    destruct (jsonValue w); [reflexivity | discriminate H]. }
  destruct vs as [| v vs], ws as [| w ws]; intros Hvs Hws H.
  - reflexivity.
  - symmetry in H. destruct (Hnil _ _ H).
  - destruct (Hnil _ _ H).
  - apply terminatedValues_inj; [exact Hvs | exact Hws |].
    apply (f_equal (fun s => s +:+ ",")) in H.
    cbn [List.map] in H. rewrite !concat_terminated in H.
    rewrite !str_append_assoc in H. exact H.
Qed.

Lemma jsonElement_keyable (v : JsValue) :
  keyable v = true ->
  jsonElement v = jsonValue (normalizedValueOf v)
  /\ finiteValue (normalizedValueOf v) = true.
Proof.
  destruct v as [| | [|] | [z | | |] | s | l | sym props];
    try discriminate; intros _; split; reflexivity.
Qed.

Lemma normalizedValueOf_inj (v w : JsValue) :
  keyable v = true -> keyable w = true ->
  normalizedValueOf v = normalizedValueOf w -> v = w.
Proof.
  destruct v as [| | b | [z | | |] | s | l | sym props]; try discriminate;
    destruct w as [| | b' | [z' | | |] | s' | l' | sym' props'];
    try discriminate; intros _ _ H; try reflexivity; now injection H as ->.
Qed.

Lemma keyable_values (vs : list JsValue) :
  forallb keyable vs = true ->
  List.map jsonElement vs = List.map jsonValue (List.map normalizedValueOf vs)
  /\ forallb finiteValue (List.map normalizedValueOf vs) = true.
Proof.
  induction vs as [| v vs IH]; [split; reflexivity |].
  cbn [forallb List.map]. intros H. apply andb_prop in H as [Hv Hvs].
  destruct (IH Hvs) as [Hmap Hfin].
  destruct (jsonElement_keyable v Hv) as [Hjson Hfinite].
  now rewrite Hjson, Hmap, Hfinite, Hfin.
Qed.

Lemma makeKeyFunction_plain (columns : list string) (x : JsValue) :
  isJoinResult x = false ->
  makeKeyFunction columns x
  = Ok (jsonArray (List.map jsonElement (groupValues columns x))).
Proof.
  intros Hx. unfold makeKeyFunction, groupValues.
  rewrite (getValuesFromEntity_plain _ _ Hx). reflexivity.
Qed.

(** X12.  Rows are grouped by the values of their group columns.  On plain
    rows the key function does not throw, and two rows whose group columns
    hold [null], booleans, finite numbers or strings get the same key
    exactly when they agree on every group column: a string with a comma,
    a quote or a bracket is not mistaken for two values, and a number not
    for the string of its digits. *)
Theorem makeKeyFunction_same_group (columns : list string) (x y : JsValue) :
  isJoinResult x = false -> isJoinResult y = false ->
  forallb keyable (groupValues columns x) = true ->
  forallb keyable (groupValues columns y) = true ->
  isThrow (makeKeyFunction columns x) = false
  /\ (makeKeyFunction columns x = makeKeyFunction columns y
      <-> groupValues columns x = groupValues columns y).
Proof.
  intros Hx Hy Kx Ky.
  rewrite (makeKeyFunction_plain columns x Hx),
    (makeKeyFunction_plain columns y Hy).
  split; [reflexivity |]. split; [| now intros ->].
  intros H. injection H as H. unfold jsonArray in H.
  apply str_append_cancel_l, str_append_cancel_r in H.
  destruct (keyable_values _ Kx) as [Ex Fx].
  destruct (keyable_values _ Ky) as [Ey Fy].
  rewrite Ex, Ey in H. apply (concat_values_inj _ _ Fx Fy) in H.
  clear Ex Ey Fx Fy.
  revert H Kx Ky. generalize (groupValues columns x) (groupValues columns y).
  induction l as [| v l IH]; intros [| w l'] H Kv Kw;
    try discriminate H; [reflexivity |].
  cbn [List.map forallb] in *. injection H as Hv Hl.
  apply andb_prop in Kv as [Kv Kl]. apply andb_prop in Kw as [Kw Kl'].
  f_equal; [now apply normalizedValueOf_inj | now apply IH].
Qed.

Lemma makeKeyFunction_same_group_witness :
  makeKeyFunction ["g"] rowA1 = makeKeyFunction ["g"] rowA2
  /\ makeKeyFunction ["g"; "v"] rowA1 <> makeKeyFunction ["g"; "v"] rowA2.
Proof.
  split.
  - apply (makeKeyFunction_same_group ["g"] rowA1 rowA2); reflexivity.
  - intros H.
    apply (makeKeyFunction_same_group ["g"; "v"] rowA1 rowA2) in H;
      [discriminate H | reflexivity ..].
Defined.

(** The proviso on the values is needed: a row without the column and a row
    that has [null] there get the same key, because [JSON.stringify] writes
    [null] for an [undefined] element of an array. *)
Lemma makeKeyFunction_missing_and_null :
  groupValues ["g"] rowNullG <> groupValues ["g"] rowNoG
  /\ makeKeyFunction ["g"] rowNullG = makeKeyFunction ["g"] rowNoG.
Proof. split; [discriminate | reflexivity]. Qed.

Lemma splitDot_no_dot (c : string) :
  includesDot c = false -> splitDot c = [c].
Proof.
  induction c as [| a c IH]; [reflexivity |].
  cbn [includesDot splitDot]. intros H. apply orb_false_elim in H as [Ha Hc].
  now rewrite Ha, (IH Hc).
Qed.

Lemma splitDot_dot (t r : string) :
  includesDot t = false ->
  splitDot (t +:+ String "." r) = t :: splitDot r.
Proof.
  induction t as [| a t IH]; [reflexivity |].
  cbn [includesDot]. intros H. apply orb_false_elim in H as [Ha Ht].
  rewrite str_append_cons. cbn [splitDot]. now rewrite Ha, (IH Ht).
Qed.

Lemma includesDot_dot (t r : string) :
  includesDot (t +:+ String "." r) = true.
Proof.
  induction t as [| a t IH]; [reflexivity |].
  rewrite str_append_cons. cbn [includesDot]. rewrite IH. apply orb_true_r.
Qed.



End GroupKeyFacts.

(** *** Operators and the WHERE stage *)

Section WhereStageFacts.
Import Js Ast AstProperties PipelineBuilder PipelineProperties.
Import LikeProperties PipelineMore.

(** X14.  What the LIKE operators compute.  For a string pattern that does
    not end with a dangling escape, [getOperator] returns a predicate on
    strings: LIKE matching of the whole input against the pattern, where
    [%] and [_] stand for the characters that are no line terminators,
    with case ignored under [ILIKE] and [NOT ILIKE] and the result negated
    under [NOT LIKE] and [NOT ILIKE].  On an input without line terminator
    the wildcards stand for every character.  A pattern without [%], [_]
    and backslash is compared with the input as a whole. *)
Theorem getOperator_like_semantics (op : SimpleOperator)
  (field pattern : string) :
  isLikeOperator op = true ->
  endsWithDanglingEscape pattern = false ->
  exists f,
    getOperator (Simple op field (PString pattern)) = Ok (StringPredicate f)
    /\ (forall lhs,
          f lhs
          = xorb (likeNegated op)
              (likeMatchesRegExp (likeIgnoresCase op) (likeTokens pattern) lhs))
    /\ (forall lhs,
          noLineTerminator lhs = true ->
          f lhs
          = xorb (likeNegated op)
              (likeMatches (likeIgnoresCase op) (likeTokens pattern) lhs))
    /\ (hasWildcard pattern = false ->
        forall lhs,
          f lhs
          = xorb (likeNegated op)
              (if likeIgnoresCase op
               then String.eqb (toLowerCase lhs) (toLowerCase pattern)
               else String.eqb lhs pattern)).
Proof.
  intros Hop Hd.
  assert (Hall : forall flags (neg : bool),
    exists f,
      mapPredicate (if neg then not_ else fun f => f)
        (getLikeOpAny (PString pattern) flags)
      = Ok (StringPredicate f)
      /\ forall lhs,
           f lhs
           = xorb neg
               (likeMatchesRegExp (caseInsensitive flags) (likeTokens pattern)
                  lhs)).
  { intros flags neg. cbn [getLikeOpAny].
    destruct (getLikeOp_semantics pattern flags Hd) as [f [-> Hf]].
    destruct neg; cbn [mapPredicate bindRes]; eexists;
      (split; [reflexivity |]); intros lhs; unfold not_;
      rewrite Hf; [reflexivity | now destruct (likeMatchesRegExp _ _ _)]. }
  assert (Hget : exists f,
    getOperator (Simple op field (PString pattern)) = Ok (StringPredicate f)
    /\ forall lhs,
         f lhs
         = xorb (likeNegated op)
             (likeMatchesRegExp (likeIgnoresCase op) (likeTokens pattern) lhs)).
  { destruct op; try discriminate Hop; cbn [getOperator].
    - exact (Hall FlagsNone false).
    - exact (Hall FlagsNone true).
    - exact (Hall FlagsI false).
    - exact (Hall FlagsI true). }
  destruct Hget as [f [Hf Hsem]]. exists f.
  split; [exact Hf |]. split; [exact Hsem |]. split.
  - intros lhs Hlhs.
    now rewrite Hsem, (likeMatchesRegExp_no_line_terminator _ _ lhs Hlhs).
  - intros Hw lhs. rewrite Hsem. f_equal. unfold likeMatchesRegExp.
    destruct (likeTokens_plain (fun c => negb (isLineTerminator c)) pattern
                Hw lhs) as [H1 H2].
    destruct (likeIgnoresCase op); [now rewrite H2 | now rewrite H1].
Qed.

Lemma getOperator_like_semantics_witness :
  exists f,
    getOperator (Simple OpNotILike "title" (PString "F_o%"))
    = Ok (StringPredicate f)
    /\ f "fXoBAR" = false
    /\ f "bar" = true.
Proof.
  destruct (getOperator_like_semantics OpNotILike "title" "F_o%"
              eq_refl eq_refl) as [f [Hf [Hsem _]]].
  exists f. split; [exact Hf |]. rewrite !Hsem.
  split; vm_compute; reflexivity.
Defined.

Lemma conditionCompiles_compiles (c : Condition) :
  conditionCompiles c = compiles c.
Proof.
  induction c as [op field value | op conds IH] using Condition_nested_ind.
  - cbn [conditionCompiles compiles]. unfold simpleCompiles.
    destruct (isLikeOperator op) eqn:Hop.
    + destruct value as [pattern | n | b |].
      * now rewrite getOperator_like_throws.
      * destruct op; try discriminate Hop; reflexivity.
      * destruct op; try discriminate Hop; reflexivity.
      * destruct op; try discriminate Hop; reflexivity.
    + destruct op; try discriminate Hop; reflexivity.
  - cbn [conditionCompiles compiles].
    induction conds as [| c conds IHconds]; [reflexivity |].
    apply Forall_cons in IH as [Hc Hconds].
    cbn [forallb]. now rewrite Hc, (IHconds Hconds).
Qed.

(** X15.  When [buildPipeline] throws.  It throws exactly when the WHERE
    clause has a simple condition that does not compile (a LIKE pattern
    that ends with a dangling escape, or [ILIKE] with a literal that is no
    string), or when there is no groupBy and one of the aggregations is
    [min], [max] or [array].  Comparisons and membership tests never make
    it throw, and neither does any aggregation under a groupBy. *)
Theorem buildPipeline_throws_iff (provider : string -> DifferenceStream)
  (ast : AST) :
  isThrow (buildPipeline provider ast)
  = negb (match where_ ast with
          | Some w => compiles w
          | None => true
          end)
    || match groupBy ast, aggregate ast with
       | None, Some aggs =>
           List.existsb (fun a => negb (supportedOutsideGroupBy a)) aggs
       | _, _ => false
       end.
Proof.
  pose proof (filtered_throws provider ast) as Hf.
  unfold whereCompiles in Hf.
  assert (Hbuild :
    buildPipeline provider ast
    = bindRes (filtered provider ast)
        (fun stream =>
           match groupBy ast with
           | Some columns =>
               Ok (applyGroupBy stream columns
                     (match aggregate ast with
                      | Some aggs => aggs
                      | None => []
                      end))
           | None =>
               match aggregate ast with
               | Some aggs => applyFullTableAggregation stream aggs
               | None => Ok stream
               end
           end)) by reflexivity.
  rewrite Hbuild.
  replace (match where_ ast with Some w => compiles w | None => true end)
    with (match where_ ast with
          | Some c => conditionCompiles c
          | None => true
          end)
    by (destruct (where_ ast); [apply conditionCompiles_compiles | reflexivity]).
  rewrite <- Hf.
  destruct (filtered provider ast) as [stream | m]; [| reflexivity].
  cbn [bindRes isThrow negb orb].
  destruct (groupBy ast); [reflexivity |].
  destruct (aggregate ast); [| reflexivity].
  apply applyFullTableAggregation_throws.
Qed.

Lemma bindRes_assoc {A B C : Type} (r : Res A) (f : A -> Res B)
  (g : B -> Res C) :
  bindRes (bindRes r f) g = bindRes r (fun x => bindRes (f x) g).
Proof. destruct r; reflexivity. Qed.

Lemma bindRes_pointwise {A B : Type} (r : Res A) (f g : A -> Res B) :
  (forall x, f x = g x) -> bindRes r f = bindRes r g.
Proof. intros H. destruct r; [apply H | reflexivity]. Qed.

Lemma applyWhere_and_cons (c : Condition) (rest : list Condition)
  (stream : DifferenceStream) :
  applyWhere (Conjunction AND (c :: rest)) stream
  = bindRes (applyWhere c stream) (applyWhere (Conjunction AND rest)).
Proof. reflexivity. Qed.

Lemma applyWhere_and_app (l1 l2 : list Condition) :
  forall stream,
    applyWhere (Conjunction AND (l1 ++ l2)) stream
    = bindRes (applyWhere (Conjunction AND l1) stream)
        (applyWhere (Conjunction AND l2)).
Proof.
  induction l1 as [| c l1 IH]; intros stream; [reflexivity |].
  cbn [app]. rewrite !applyWhere_and_cons, bindRes_assoc.
  apply bindRes_pointwise. exact IH.
Qed.

Lemma applyWhere_or_branches (conds : list Condition)
  (stream : DifferenceStream) :
  match applyWhere (Conjunction OR conds) stream with
  | Ok result =>
      exists branches,
        result = DistinctStream (ConcatStream branches)
        /\ Forall2 (fun c branch => applyWhere c stream = Ok branch)
             conds branches
  | Throw _ => True
  end.
Proof.
  cbn [applyWhere].
  match goal with
  | |- match bindRes ?b _ with _ => _ end =>
      assert (Hb : match b with
                   | Ok branches =>
                       Forall2 (fun c branch => applyWhere c stream = Ok branch)
                         conds branches
                   | Throw _ => True
                   end);
      [| destruct b as [branches | m]; [| exact I];
         exists branches; split; [reflexivity | exact Hb]]
  end.
  induction conds as [| c conds IH]; [constructor |].
  destruct (applyWhere c stream) as [branch |] eqn:Hc; [| exact I].
  cbn [bindRes].
  match goal with
  | |- match bindRes ?b _ with _ => _ end => destruct b; [| exact I]
  end.
  cbn [bindRes]. constructor; [exact Hc | exact IH].
Qed.

(** X16.  How a WHERE clause becomes pipeline stages.  A comparison or a
    membership test becomes one filter with that operator and literal, on
    the column its selector names ([t.c] is the column [c] of [t]; a
    selector without a dot is taken as both).  An AND chains its
    conditions: the stage of [AND(l1 ++ l2)] is the stage of [AND(l2)] on
    top of the stage of [AND(l1)], an empty AND adds nothing, and an AND
    nested in an AND, or an AND of one condition, builds the pipeline of
    the flattened condition, so the flattening of ANDs by [normalizeAST]
    does not change the pipeline.  An OR that compiles is one [distinct]
    over one [concat] of as many branches as it has conditions, each built
    from the stream the OR starts from. *)
Theorem applyWhere_stages (stream : DifferenceStream) :
  (forall op field value,
      isLikeOperator op = false -> includesDot field = false ->
      applyWhere (Simple op field value) stream
      = Ok (FilterStream (field, field) (Comparison op value) stream))
  /\ (forall op t c value,
        isLikeOperator op = false ->
        includesDot t = false -> includesDot c = false ->
        applyWhere (Simple op (t +:+ String "." c) value) stream
        = Ok (FilterStream (t, c) (Comparison op value) stream))
  /\ (forall l1 l2,
        applyWhere (Conjunction AND (l1 ++ l2)) stream
        = bindRes (applyWhere (Conjunction AND l1) stream)
            (applyWhere (Conjunction AND l2)))
  /\ applyWhere (Conjunction AND []) stream = Ok stream
  /\ (forall c, applyWhere (Conjunction AND [c]) stream = applyWhere c stream)
  /\ (forall l1 l l2,
        applyWhere (Conjunction AND (l1 ++ Conjunction AND l :: l2)) stream
        = applyWhere (Conjunction AND (l1 ++ l ++ l2)) stream)
  /\ (forall conds result,
        applyWhere (Conjunction OR conds) stream = Ok result ->
        exists branches,
          result = DistinctStream (ConcatStream branches)
          /\ Forall2 (fun c branch => applyWhere c stream = Ok branch)
               conds branches).
Proof.
  assert (Hop : forall op field value,
    isLikeOperator op = false ->
    getOperator (Simple op field value) = Ok (Comparison op value)).
  { intros op field value H. destruct op; try discriminate H; reflexivity. }
  split.
  { intros op field value Hlike Hdot. cbn [applyWhere].
    unfold applySimpleCondition. rewrite (Hop _ _ _ Hlike). cbn [bindRes].
    now rewrite Hdot. }
  split.
  { intros op t c value Hlike Ht Hc. cbn [applyWhere].
    unfold applySimpleCondition. rewrite (Hop _ _ _ Hlike). cbn [bindRes].
    now rewrite includesDot_dot, (splitDot_dot _ _ Ht), (splitDot_no_dot _ Hc). }
  split; [intros l1 l2; apply applyWhere_and_app |].
  split; [reflexivity |].
  split.
  { intros c. rewrite applyWhere_and_cons.
    destruct (applyWhere c stream); reflexivity. }
  split.
  - intros l1 l l2. rewrite !applyWhere_and_app.
    apply bindRes_pointwise. intros s.
    rewrite applyWhere_and_cons. symmetry. apply applyWhere_and_app.
  - intros conds result H.
    pose proof (applyWhere_or_branches conds stream) as Hor.
    rewrite H in Hor. exact Hor.
Qed.

End WhereStageFacts.

(** *** The comparison of conditions *)

Section CmpOrder.
Import Js Ast AstProperties AstOrder.

Lemma lexCompare_refl {A : Type} (f : A -> A -> Z) (l : list A) :
  Forall (fun x => f x x = 0) l -> lexCompare f l l = 0.
Proof.
  induction l as [| x l IH]; intros H.
  - reflexivity.
  - apply Forall_cons in H as [Hx Hl].
    rewrite lexCompare_cons, Hx. cbn [Z.eqb]. now apply IH.
Qed.

Lemma cmp_refl (a : Condition) : cmp a a = 0.
Proof.
  induction a as [o f v | op conds IH] using Condition_nested_ind.
  - rewrite cmp_simple. apply lexCompare_refl.
    unfold simpleKey. repeat constructor; apply compareUTF8_refl.
  - rewrite cmp_conjunction, compareUTF8_refl. cbn [Z.eqb].
    now apply lexCompare_refl.
Qed.

Lemma literals_simpleConditions (c : Condition) :
  literals c = List.map (fun x => snd x) (simpleConditions c).
Proof.
  induction c as [o f v | op conds IH] using Condition_nested_ind;
    [reflexivity |].
  cbn [literals simpleConditions]. rewrite map_flat_map.
  induction conds as [| c conds IHconds]; [reflexivity |].
  apply Forall_cons in IH as [Hc Hconds]. cbn [flat_map].
  now rewrite Hc, (IHconds Hconds).
Qed.

(** X17.  [cmp] is a consistent comparison, as [sort] needs it.  A
    condition compares equal to itself; exchanging the arguments negates
    the result; a simple condition sorts before every conjunction; and
    among conditions whose literals are told apart by their string forms,
    only equal conditions compare equal, and the order is transitive. *)
Theorem cmp_consistent (a b c : Condition) :
  distinctStringForms (literals a ++ literals b ++ literals c)%list = true ->
  cmp a a = 0
  /\ cmp b a = - cmp a b
  /\ (isSimple a = true -> isSimple b = false -> cmp a b < 0)
  /\ (cmp a b = 0 -> a = b)
  /\ (cmp a b < 0 -> cmp b c < 0 -> cmp a c < 0).
Proof.
  intros Hdistinct.
  pose proof (distinctStringForms_spec _ Hdistinct) as Hinj.
  set (L := (simpleConditions a ++ simpleConditions b
               ++ simpleConditions c)%list).
  assert (HL : forall op f v w,
            In (op, f, v) L -> In (op, f, w) L ->
            String_ v = String_ w -> v = w).
  { assert (Hlit : forall op f v, In (op, f, v) L ->
              In v (literals a ++ literals b ++ literals c)%list).
    { intros op f v Hv. unfold L in Hv. rewrite !literals_simpleConditions.
      rewrite <- !List.map_app.
      apply (in_map (fun x => snd x) _ _ Hv). }
    intros op f v w Hv Hw. apply Hinj; eapply Hlit; eassumption. }
  assert (Ha : within L a).
  { intros v Hv. apply in_or_app. now left. }
  assert (Hb : within L b).
  { intros v Hv. apply in_or_app. right. apply in_or_app. now left. }
  assert (Hc : within L c).
  { intros v Hv. apply in_or_app. right. apply in_or_app. now right. }
  split; [apply cmp_refl |]. split; [apply cmp_neg |]. split; [| split].
  - destruct a, b; try discriminate; reflexivity.
  - exact (cmp_zero _ HL a b Ha Hb).
  - exact (cmp_trans _ HL a b c Ha Hb Hc).
Qed.

Lemma cmp_consistent_witness :
  cmp (eq1 "a" 1) (Conjunction OR [eq1 "c" 3; eq1 "d" 4]) < 0.
Proof.
  destruct (cmp_consistent (eq1 "a" 1) (eq1 "b" 2)
              (Conjunction OR [eq1 "c" 3; eq1 "d" 4]) eq_refl)
    as [_ [_ [_ [_ Htrans]]]].
  apply Htrans; reflexivity.
Defined.

End CmpOrder.

(** *** Replication slot names *)

Section SlotNameFacts.
Import Js InitialSync SlotNames.

Lemma everyCharacter_append (p : ascii -> bool) (a b : string) :
  everyCharacter p (a +:+ b) = everyCharacter p a && everyCharacter p b.
Proof.
  induction a as [| c a IH]; [reflexivity |].
  rewrite str_append_cons. cbn [everyCharacter]. now rewrite IH, andb_assoc.
Qed.

Lemma countCharacters_append (p : ascii -> bool) (a b : string) :
  countCharacters p (a +:+ b)
  = (countCharacters p a + countCharacters p b)%nat.
Proof.
  induction a as [| c a IH]; [reflexivity |].
  rewrite str_append_cons. cbn [countCharacters]. rewrite IH. lia.
Qed.

Lemma countCharacters_none (p q : ascii -> bool) (s : string) :
  (forall c, q c = true -> p c = false) ->
  everyCharacter q s = true -> countCharacters p s = 0%nat.
Proof.
  intros Hpq. induction s as [| c s IH]; [reflexivity |].
  cbn [everyCharacter countCharacters]. intros H.
  apply andb_prop in H as [Hc Hs]. now rewrite (Hpq c Hc), (IH Hs).
Qed.

Lemma allowed_not_quote_or_blank (c : ascii) :
  allowedShardIdCharacter c = true -> isQuote c = false /\ isBlank c = false.
Proof.
  revert c.
  assert (H : forallb
                (fun c => implb (allowedShardIdCharacter c)
                            (negb (isQuote c) && negb (isBlank c)))
                Characters.allAscii = true) by (vm_compute; reflexivity).
  intros c Hc. rewrite forallb_forall in H.
  specialize (H c (allAscii_complete c)). rewrite Hc in H. cbn [implb] in H.
  apply andb_prop in H as [H1 H2].
  apply negb_true_iff in H1, H2. now split.
Qed.

(** X18.  Shard ids and replication slot names.  [initialSync] rejects a
    shard id that is empty or has a character other than a lower-case
    letter, a digit or the underscore, before it does anything else.  For
    an accepted shard id the slot name is [zero_] followed by the id; it
    again consists of such characters only, so the statements that create
    (and first drop) the slot have the two quotes and the blanks of their
    template and no others, whatever the shard id is.  Different shard ids
    get different slot names. *)
Theorem replication_slot_names (shardID : string) :
  (ALLOWED_SHARD_ID_CHARACTERS_test shardID = false ->
   isThrow (initialSyncSlotName shardID) = true)
  /\ (ALLOWED_SHARD_ID_CHARACTERS_test shardID = true ->
      initialSyncSlotName shardID = Ok ("zero_" +:+ shardID)
      /\ ALLOWED_SHARD_ID_CHARACTERS_test (replicationSlot shardID) = true
      /\ createReplicationSlotStatements (replicationSlot shardID) true
         = ["DROP_REPLICATION_SLOT zero_" +:+ shardID +:+ " WAIT";
            "CREATE_REPLICATION_SLOT " +:+ dquote +:+ "zero_" +:+ shardID
              +:+ dquote +:+ " LOGICAL pgoutput"]
      /\ Forall
           (fun statement => countCharacters isQuote statement = 2%nat)
           (createReplicationSlotStatements (replicationSlot shardID) false)
      /\ List.map (countCharacters isBlank)
           (createReplicationSlotStatements (replicationSlot shardID) true)
         = [2%nat; 3%nat])
  /\ (forall other,
        replicationSlot shardID = replicationSlot other -> shardID = other).
Proof.
  split; [| split].
  - intros H. unfold initialSyncSlotName. now rewrite H.
  - intros H.
    assert (Hevery : everyCharacter allowedShardIdCharacter shardID = true).
    { destruct shardID; [discriminate H | exact H]. }
    assert (Hquote : countCharacters isQuote shardID = 0%nat).
    { apply (countCharacters_none _ allowedShardIdCharacter); [| exact Hevery].
      intros c Hc. apply (allowed_not_quote_or_blank c Hc). }
    assert (Hblank : countCharacters isBlank shardID = 0%nat).
    { apply (countCharacters_none _ allowedShardIdCharacter); [| exact Hevery].
      intros c Hc. apply (allowed_not_quote_or_blank c Hc). }
    split; [unfold initialSyncSlotName; now rewrite H |].
    split.
    { unfold replicationSlot.
      change ("zero_" +:+ shardID)
        with (String "z" ("ero_" +:+ shardID)).
      cbn [ALLOWED_SHARD_ID_CHARACTERS_test].
      change (String "z" ("ero_" +:+ shardID)) with ("zero_" +:+ shardID).
      rewrite everyCharacter_append, Hevery. reflexivity. }
    split.
    { unfold createReplicationSlotStatements, replicationSlot. cbn [app].
      rewrite !str_append_assoc. reflexivity. }
    split.
    { unfold createReplicationSlotStatements, replicationSlot. cbn [app].
      repeat constructor.
      rewrite !countCharacters_append, Hquote. reflexivity. }
    unfold createReplicationSlotStatements, replicationSlot.
    cbn [app List.map]. rewrite !countCharacters_append, Hblank. reflexivity.
  - intros other H. unfold replicationSlot in H.
    now apply str_append_cancel_l in H.
Qed.

End SlotNameFacts.

(** *** Errors of the pipeline builder *)

Section BuildErrors.
Import Js Ast AstProperties AstOrder PipelineBuilder PipelineProperties.
Import PipelineMore.

Lemma firstError_app (l1 l2 : list (SimpleOperator * string * Primitive)) :
  firstError (l1 ++ l2)
  = match firstError l1 with
    | Some message => Some message
    | None => firstError l2
    end.
Proof.
  induction l1 as [| [[op field] value] l1 IH]; [reflexivity |].
  cbn [app firstError].
  destruct (getOperator (Simple op field value)); [exact IH | reflexivity].
Qed.

Lemma applyWhere_first_error (c : Condition) :
  forall stream,
    match applyWhere c stream with
    | Ok _ => firstError (simpleConditions c) = None
    | Throw message => firstError (simpleConditions c) = Some message
    end.
Proof.
  induction c as [op field value | op conds IH] using Condition_nested_ind;
    intros stream.
  - cbn [applyWhere simpleConditions firstError].
    unfold applySimpleCondition.
    destruct (getOperator (Simple op field value)); reflexivity.
  - cbn [simpleConditions]. destruct op.
    + revert stream.
      induction conds as [| c conds IHconds]; intros stream; [reflexivity |].
      apply Forall_cons in IH as [Hc Hconds].
      rewrite applyWhere_and_cons. cbn [flat_map]. rewrite firstError_app.
      specialize (Hc stream).
      destruct (applyWhere c stream) as [stream' | m]; rewrite Hc;
        [apply (IHconds Hconds) | reflexivity].
    + cbn [applyWhere].
      match goal with
      | |- match bindRes ?b _ with _ => _ end =>
          assert (Hb : match b with
                       | Ok _ =>
                           firstError (flat_map simpleConditions conds) = None
                       | Throw m =>
                           firstError (flat_map simpleConditions conds)
                           = Some m
                       end);
          [| destruct b; exact Hb]
      end.
      induction conds as [| c conds IHconds]; [reflexivity |].
      apply Forall_cons in IH as [Hc Hconds].
      cbn [flat_map]. rewrite firstError_app.
      specialize (Hc stream).
      destruct (applyWhere c stream) as [branch | m]; rewrite Hc;
        [| reflexivity].
      cbn [bindRes]. specialize (IHconds Hconds).
      match goal with
      | |- match bindRes ?b _ with _ => _ end => destruct b; exact IHconds
      end.
Qed.

(** X19.  Which error the WHERE stage reports.  [applyWhere] succeeds when
    [getOperator] accepts every simple condition of the tree, and otherwise
    throws the error that [getOperator] throws for the first simple
    condition, from left to right, that it rejects, whatever the stream
    is.  [buildPipeline] throws that error whatever the aggregations of
    the query are: the WHERE clause is compiled first. *)
Theorem applyWhere_reports_first_error (w : Condition) :
  (forall stream,
      match firstError (simpleConditions w) with
      | Some message => applyWhere w stream = Throw message
      | None => exists result, applyWhere w stream = Ok result
      end)
  /\ (forall provider ast message,
        where_ ast = Some w ->
        firstError (simpleConditions w) = Some message ->
        buildPipeline provider ast = Throw message).
Proof.
  assert (Hfirst : forall stream,
    match firstError (simpleConditions w) with
    | Some message => applyWhere w stream = Throw message
    | None => exists result, applyWhere w stream = Ok result
    end).
  { intros stream. pose proof (applyWhere_first_error w stream) as H.
    destruct (applyWhere w stream) as [result | m]; rewrite H;
      [now exists result | reflexivity]. }
  split; [exact Hfirst |].
  intros provider ast message Hw Hm. unfold buildPipeline. rewrite Hw.
  specialize (Hfirst (provider (table ast))). rewrite Hm in Hfirst.
  now rewrite Hfirst.
Qed.

Lemma applyFullTableAggregation_stages (aggs : list Aggregation) :
  forall stream,
    List.forallb supportedOutsideGroupBy aggs = true ->
    applyFullTableAggregation stream aggs
    = Ok (List.fold_left aggregationStage aggs stream).
Proof.
  induction aggs as [| a aggs IH]; intros stream H; [reflexivity |].
  cbn [forallb] in H. apply andb_prop in H as [Ha Haggs].
  cbn [applyFullTableAggregation fold_left].
  unfold supportedOutsideGroupBy in Ha. unfold aggregationStage at 2.
  destruct (agg_aggregate a); try discriminate Ha; now apply IH.
Qed.

(** X20.  The stages and the error of the full-table aggregation.  When
    every aggregation is [count], [sum] or [avg], the result is the stream
    with one stage per aggregation, stacked in the order of the list.
    Otherwise the error names the first aggregation of the list that is
    [min], [max] or [array]. *)
Theorem applyFullTableAggregation_result (stream : DifferenceStream)
  (aggs : list Aggregation) :
  (List.forallb supportedOutsideGroupBy aggs = true ->
   applyFullTableAggregation stream aggs
   = Ok (List.fold_left aggregationStage aggs stream))
  /\ (forall before agg after,
        aggs = (before ++ agg :: after)%list ->
        List.forallb supportedOutsideGroupBy before = true ->
        supportedOutsideGroupBy agg = false ->
        applyFullTableAggregation stream aggs
        = Throw
            (aggregateName (agg_aggregate agg)
               +:+ " not yet supported outside of group-by")).
Proof.
  split; [apply applyFullTableAggregation_stages |].
  intros before agg after -> Hbefore Hagg. revert stream.
  induction before as [| a before IH]; intros stream.
  - cbn [app applyFullTableAggregation].
    unfold supportedOutsideGroupBy in Hagg.
    destruct (agg_aggregate agg); try discriminate Hagg; reflexivity.
  - cbn [forallb] in Hbefore. apply andb_prop in Hbefore as [Ha Hbefore].
    cbn [app applyFullTableAggregation].
    unfold supportedOutsideGroupBy in Ha.
    destruct (agg_aggregate a); try discriminate Ha; now apply IH.
Qed.

End BuildErrors.
